(** * The PRP proof subsystem of gpuowl: Proof.cpp

    A shallow embedding of [src/Proof.cpp] (the [proof] namespace, [Proof]
    and [ProofSet]) together with the file layer and the engine interface it
    consumes, followed by the properties of the proof points, the residue
    cache, the [.proof] file format, the hash chain and the verifier. *)

From Stdlib Require Import ZArith Lia List String Ascii Znumtheory.
From stdpp Require Import gmap strings list fin_maps pretty sorting.

Local Open Scope string_scope.
Local Open Scope list_scope.
Local Open Scope Z_scope.

(** ** Machine integers

    [u32] and [u64] values are integers in [Z]; every operation that can wrap
    in the C++ code is written with its reduction. *)

Definition u32_max : Z := 4294967295.

Definition wrap32 (x : Z) : Z := x mod 2 ^ 32.
Definition wrap64 (x : Z) : Z := x mod 2 ^ 64.

Definition is_u32 (x : Z) : Prop := 0 <= x < 2 ^ 32.
Definition is_u64 (x : Z) : Prop := 0 <= x < 2 ^ 64.

(** [Words] is [vector<u32>]. *)
Definition Words : Type := list Z.

Definition Words_eqb (a b : Words) : bool := bool_decide (a = b).

(** ** Outcomes of fallible code

    A C++ function either returns, throws an exception that a [catch] can
    intercept, or the process dies (a failed [assert], or a step whose
    behaviour C++ leaves undefined). *)

Inductive outcome (A : Type) : Type :=
| Ok (a : A)
| Throw (msg : string)
| Crash (msg : string).

Arguments Ok {A} a.
Arguments Throw {A} msg.
Arguments Crash {A} msg.

Definition outcome_bind {A B : Type} (m : outcome A) (f : A -> outcome B) : outcome B :=
  match m with
  | Ok a => f a
  | Throw s => Throw s
  | Crash s => Crash s
  end.

Definition assert (b : bool) (what : string) : outcome unit :=
  if b then Ok tt else Crash what.

Declare Scope outcome_scope.
Delimit Scope outcome_scope with outcome.
Notation "x <- m ;; k" := (outcome_bind m (fun x => k))
  (at level 100, m at next level, right associativity) : outcome_scope.
Notation "m ;; k" := (outcome_bind m (fun _ => k))
  (at level 100, right associativity) : outcome_scope.

(** ** Bytes

    A byte of memory or of a file is an [ascii]; multi-byte integers are
    little-endian (the code refuses to build on other byte orders). *)

Definition byte_of_Z (v : Z) : ascii := ascii_of_N (Z.to_N (v mod 256)).
Definition Z_of_byte (c : ascii) : Z := Z.of_N (N_of_ascii c).

Fixpoint le_bytes (n : nat) (v : Z) : list ascii :=
  match n with
  | O => []
  | S n' => byte_of_Z v :: le_bytes n' (v / 256)
  end.

Fixpoint le_value (bs : list ascii) : Z :=
  match bs with
  | [] => 0
  | b :: bs' => Z_of_byte b + 256 * le_value bs'
  end.

(** The memory behind [words.data()]. *)
Definition Words_data (w : Words) : list ascii := flat_map (le_bytes 4) w.

(** The first [n] bytes at [words.data()]; the vector must own them. *)
Definition read_mem (w : Words) (n : Z) : outcome (list ascii) :=
  if n <=? 4 * Z.of_nat (length w) then Ok (take (Z.to_nat n) (Words_data w))
  else Crash "read past the end of the vector".

(** Groups of [k] bytes as integers; a short last group is zero-extended. *)
Fixpoint group_values (fuel : nat) (k : nat) (bs : list ascii) : list Z :=
  match fuel with
  | O => []
  | S fuel' =>
      match bs with
      | [] => []
      | _ :: _ => le_value (take k bs) :: group_values fuel' k (drop k bs)
      end
  end.

Definition words_of_bytes (bs : list ascii) : Words := group_values (length bs) 4 bs.

(** The number of bytes of a residue, [(E - 1) / 8 + 1] on [u32]. *)
Definition nBytes (E : Z) : Z := wrap32 (wrap32 (E - 1) / 8 + 1).

(** ** CRC-32 *)

(** Modelled from the spec: the checksum of the residue-cache files (the
    file layer, File.h, is not among the sources); the spec names it CRC-32,
    taken here as the usual reflected CRC-32 with polynomial 0xEDB88320. *)
Definition crc32_step (crc : Z) : Z :=
  Z.lxor (Z.shiftr crc 1) (if Z.testbit crc 0 then 3988292384 else 0).

Definition crc32_byte (crc : Z) (b : ascii) : Z :=
  Nat.iter 8 crc32_step (Z.lxor crc (Z_of_byte b)).

Definition crc32 (bs : list ascii) : Z :=
  Z.lxor (fold_left crc32_byte bs u32_max) u32_max.

(** ** SHA3-256 *)

Module SHA3.

(** Modelled from the spec: SHA3-256 as in FIPS 202 (Sha3Hash.h is not among
    the sources).  The state collects the bytes absorbed so far; [finish]
    pads, runs the sponge and returns the first four lanes. *)

Definition rotl64 (x : Z) (n : Z) : Z :=
  Z.lor (wrap64 (Z.shiftl x n)) (Z.shiftr x (64 - n)).

Definition RC : list Z :=
  [ 0x0000000000000001; 0x0000000000008082; 0x800000000000808A;
    0x8000000080008000; 0x000000000000808B; 0x0000000080000001;
    0x8000000080008081; 0x8000000000008009; 0x000000000000008A;
    0x0000000000000088; 0x0000000080008009; 0x000000008000000A;
    0x000000008000808B; 0x800000000000008B; 0x8000000000008089;
    0x8000000000008003; 0x8000000000008002; 0x8000000000000080;
    0x000000000000800A; 0x800000008000000A; 0x8000000080008081;
    0x8000000000008080; 0x0000000080000001; 0x8000000080008008 ].

Definition rotc : list Z :=
  [1; 3; 6; 10; 15; 21; 28; 36; 45; 55; 2; 14; 27; 41; 56; 8; 25; 43; 62; 18;
   39; 61; 20; 44].

Definition piln : list nat :=
  [10; 7; 11; 17; 18; 3; 5; 16; 8; 21; 24; 4; 15; 23; 19; 13; 12; 2; 20; 14;
   22; 9; 6; 1]%nat.

Definition lane (st : list Z) (i : nat) : Z := nth i st 0.

Definition theta (st : list Z) : list Z :=
  let C := map (fun x => fold_left Z.lxor
                   (map (fun y => lane st (x + 5 * y)) [1; 2; 3; 4]%nat)
                   (lane st x)) [0; 1; 2; 3; 4]%nat in
  let D := map (fun x => Z.lxor (lane C ((x + 4) mod 5))
                                (rotl64 (lane C ((x + 1) mod 5)) 1))
               [0; 1; 2; 3; 4]%nat in
  imap (fun i a => Z.lxor a (lane D (i mod 5))) st.

Definition rho_pi (st : list Z) : list Z :=
  snd (fold_left (fun '(t, s) '(j, r) => (lane s j, <[j := rotl64 t r]> s))
                 (zip piln rotc) (lane st 1, st)).

Definition chi (st : list Z) : list Z :=
  imap (fun i a =>
          let y := (i / 5)%nat in
          let x := (i mod 5)%nat in
          Z.lxor a (Z.land (Z.lxor (lane st (5 * y + (x + 1) mod 5)) (2 ^ 64 - 1))
                           (lane st (5 * y + (x + 2) mod 5)))) st.

Definition iota (rc : Z) (st : list Z) : list Z :=
  <[0%nat := Z.lxor (lane st 0) rc]> st.

Definition round (st : list Z) (rc : Z) : list Z :=
  iota rc (chi (rho_pi (theta st))).

Definition keccakf (st : list Z) : list Z := fold_left round RC st.

Definition rate : nat := 136.

(** Padding of SHA3: the domain bits [01], then [10*1]. *)
Definition pad (len : nat) : list ascii :=
  let q := (rate - len mod rate)%nat in
  if (q =? 1)%nat then [byte_of_Z 0x86]
  else byte_of_Z 0x06 :: replicate (q - 2) (byte_of_Z 0) ++ [byte_of_Z 0x80].

Definition absorb_block (st : list Z) (block : list ascii) : list Z :=
  keccakf (imap (fun i a => Z.lxor a (nth i (group_values 17 8 block) 0)) st).

Fixpoint absorb (fuel : nat) (st : list Z) (bs : list ascii) : list Z :=
  match fuel with
  | O => st
  | S fuel' =>
      match bs with
      | [] => st
      | _ :: _ => absorb fuel' (absorb_block st (take rate bs)) (drop rate bs)
      end
  end.

(** The state of a running hash: the bytes absorbed so far. *)
Definition t : Type := list ascii.

Definition init : t := [].

Definition update (bytes : list ascii) (st : t) : t := st ++ bytes.

(** [update(array<u64, 4>)] absorbs the 32 bytes of the array. *)
Definition update_array (prefix : list Z) (st : t) : t :=
  st ++ flat_map (le_bytes 8) prefix.

(** [finish()] returns the digest as [array<u64, 4>]. *)
Definition finish (st : t) : list Z :=
  let msg := st ++ pad (length st) in
  map wrap64 (take 4 (absorb (length msg) (replicate 25 0) msg)).

(** The digest as its 32 bytes. *)
Definition sha3_256 (msg : list ascii) : list ascii :=
  flat_map (le_bytes 8) (finish msg).

End SHA3.

(** ** The world: files, directories and the log *)

Inductive log_line : Type :=
| LogInvalidPower (power : Z)
| LogInvalidHeader (path : string)
| LogMessage (msg : string)
| LogHashMismatch (i expected h : Z)
| LogRound (i : Z) (A B : Words) (h : Z)
| LogIterations (span : Z)
| LogProved (E : Z) (isPrime : bool)
| LogInvalid (A B : Words)
| LogMiddle (p : Z) (M : Words) (h : Z).

Inductive io_event : Type :=
| IoOpenRead (path : string)
| IoOpenWrite (path : string)
| IoWrite (path : string)
| IoSize (path : string)
| IoMkdir (path : string).

Record World : Type := mkWorld {
  files : gmap string (list ascii);
  dirs : gset string;
  (** every access to the file system, oldest first *)
  accesses : list io_event;
  (** the lines passed to [log], oldest first *)
  console : list log_line
}.

Definition IO (A : Type) : Type := World -> outcome A * World.

Definition io_ret {A : Type} (a : A) : IO A := fun w => (Ok a, w).

Definition io_bind {A B : Type} (m : IO A) (f : A -> IO B) : IO B :=
  fun w =>
    match m w with
    | (Ok a, w') => f a w'
    | (Throw s, w') => (Throw s, w')
    | (Crash s, w') => (Crash s, w')
    end.

Definition lift {A : Type} (m : outcome A) : IO A := fun w => (m, w).

Definition throw {A : Type} (msg : string) : IO A := lift (Throw msg).

(** [try { m } catch (...) { handler }]: a failed assertion is not an
    exception and is not caught. *)
Definition try_catch {A : Type} (m : IO A) (handler : string -> IO A) : IO A :=
  fun w =>
    match m w with
    | (Throw s, w') => handler s w'
    | r => r
    end.

Definition log (l : log_line) : IO unit :=
  fun w => (Ok tt, mkWorld (files w) (dirs w) (accesses w) (console w ++ [l])).

Definition touch (e : io_event) (w : World) : World :=
  mkWorld (files w) (dirs w) (accesses w ++ [e]) (console w).

Definition set_files (fs : gmap string (list ascii)) (w : World) : World :=
  mkWorld fs (dirs w) (accesses w) (console w).

Definition create_directories (p : string) : IO unit :=
  fun w => (Ok tt, touch (IoMkdir p)
                     (mkWorld (files w) ({[p]} ∪ dirs w) (accesses w) (console w))).

Declare Scope io_scope.
Delimit Scope io_scope with io.
Notation "x <- m ;; k" := (io_bind m (fun x => k))
  (at level 100, m at next level, right associativity) : io_scope.
Notation "m ;; k" := (io_bind m (fun _ => k))
  (at level 100, right associativity) : io_scope.

(** [std::to_string] on an unsigned value. *)
Definition to_string (n : Z) : string := pretty n.

(** [a / b] on [fs::path]. *)
Definition path_join (a b : string) : string := a +:+ "/" +:+ b.

(** ** The file layer *)

Module File.

(** Modelled from the spec: class [File] (File.h is not among the sources).
    A proof file is a header followed by raw residues; a cache file is the
    words of a residue followed by their CRC-32; formatted input and output
    follow C's [scanf] and [printf]. *)

(** An open file: its path and, when reading, the bytes not read yet. *)
Record t : Type := mk { path : string; unread : list ascii }.

Definition openReadThrow (p : string) : IO t :=
  fun w =>
    match files w !! p with
    | Some d => (Ok (mk p d), touch (IoOpenRead p) w)
    | None => (Throw "cannot open file", touch (IoOpenRead p) w)
    end.

(** Opening for writing creates the file or truncates it. *)
Definition openWrite (p : string) : IO t :=
  fun w => (Ok (mk p []), touch (IoOpenWrite p) (set_files (<[p := []]> (files w)) w)).

Definition write (f : t) (bytes : list ascii) : IO unit :=
  fun w => (Ok tt, touch (IoWrite (path f))
                     (set_files (alter (fun d => d ++ bytes) (path f) (files w)) w)).

Definition read (n : Z) (f : t) : outcome (list ascii * t) :=
  if n <=? Z.of_nat (length (unread f))
  then Ok (take (Z.to_nat n) (unread f), mk (path f) (drop (Z.to_nat n) (unread f)))
  else Throw "unexpected end of file".

Definition writeChecked (f : t) (words : Words) : IO unit :=
  (write f (Words_data words) ;;
   write f (le_bytes 4 (crc32 (Words_data words))))%io.

Definition readChecked (nWords : Z) (f : t) : outcome (Words * t) :=
  (r <- read (4 * nWords) f ;;
   c <- read 4 (snd r) ;;
   if le_value (fst c) =? crc32 (fst r)
   then Ok (words_of_bytes (fst r), snd c)
   else Throw "checksum mismatch")%outcome.

(** [nBytes] bytes into a zeroed vector of [(nBytes - 1) / 4 + 1] words. *)
Definition readBytesLE (nBytes : Z) (f : t) : outcome (Words * t) :=
  (r <- read nBytes f ;; Ok (words_of_bytes (fst r), snd r))%outcome.

(** The size of the file, or -1 when there is none. *)
Definition size (p : string) : IO Z :=
  fun w => (Ok match files w !! p with
               | Some d => Z.of_nat (length d)
               | None => -1
               end, touch (IoSize p) w).

(** *** Formatted output and input *)

Inductive directive : Type :=
| DLit (c : ascii)
| DUnsigned
| DString
| DChar.

Inductive arg : Type :=
| AUnsigned (v : Z)
| AString (s : string)
| AChar (c : ascii).

Fixpoint parse_format (fmt : list ascii) : list directive :=
  match fmt with
  | [] => []
  | "%"%char :: "u"%char :: r => DUnsigned :: parse_format r
  | "%"%char :: "s"%char :: r => DString :: parse_format r
  | "%"%char :: "c"%char :: r => DChar :: parse_format r
  | c :: r => DLit c :: parse_format r
  end.

Fixpoint format (ds : list directive) (args : list arg) : list ascii :=
  match ds with
  | [] => []
  | DLit c :: ds' => c :: format ds' args
  | DUnsigned :: ds' =>
      match args with
      | AUnsigned v :: args' => list_ascii_of_string (to_string v) ++ format ds' args'
      | _ => []
      end
  | DString :: ds' =>
      match args with
      | AString s :: args' => list_ascii_of_string s ++ format ds' args'
      | _ => []
      end
  | DChar :: ds' =>
      match args with
      | AChar c :: args' => c :: format ds' args'
      | _ => []
      end
  end.

Definition printf (fmt : string) (args : list arg) (f : t) : IO unit :=
  write f (format (parse_format (list_ascii_of_string fmt)) args).

Definition is_space (c : ascii) : bool :=
  let n := Z_of_byte c in (n =? 32) || ((9 <=? n) && (n <=? 13)).

Definition digit_of (c : ascii) : option Z :=
  let n := Z_of_byte c in
  if (48 <=? n) && (n <=? 57) then Some (n - 48) else None.

Fixpoint skip_space (inp : list ascii) : list ascii :=
  match inp with
  | c :: r => if is_space c then skip_space r else inp
  | [] => []
  end.

(** The longest prefix of decimal digits, as a number. *)
Fixpoint scan_digits (acc : Z) (inp : list ascii) : Z * list ascii :=
  match inp with
  | c :: r =>
      match digit_of c with
      | Some d => scan_digits (acc * 10 + d) r
      | None => (acc, inp)
      end
  | [] => (acc, [])
  end.

Definition starts_with_digit (inp : list ascii) : bool :=
  match inp with
  | c :: _ => bool_decide (is_Some (digit_of c))
  | [] => false
  end.

(** [%u]: white space, an optional sign, decimal digits; the value is
    stored in an [unsigned]. *)
Definition scan_unsigned (inp : list ascii) : option (Z * list ascii) :=
  let inp := skip_space inp in
  let '(neg, inp) :=
    match inp with
    | "-"%char :: r => (true, r)
    | "+"%char :: r => (false, r)
    | _ => (false, inp)
    end in
  if starts_with_digit inp then
    let '(v, r) := scan_digits 0 inp in
    Some (wrap32 (if neg : bool then - v else v), r)
  else None.

(** The longest prefix free of white space. *)
Fixpoint scan_token (inp : list ascii) : list ascii * list ascii :=
  match inp with
  | c :: r =>
      if is_space c then ([], inp)
      else let '(tok, rest) := scan_token r in (c :: tok, rest)
  | [] => ([], [])
  end.

(** [%s]: white space, then a non-empty run of other characters. *)
Definition scan_string (inp : list ascii) : option (string * list ascii) :=
  match scan_token (skip_space inp) with
  | ([], _) => None
  | (tok, r) => Some (string_of_list_ascii tok, r)
  end.

(** The conversions made before the first mismatch, and the input left. *)
Fixpoint scan (ds : list directive) (inp : list ascii) : list arg * list ascii :=
  match ds with
  | [] => ([], inp)
  | DLit c :: ds' =>
      if is_space c then scan ds' (skip_space inp)
      else match inp with
           | c' :: r => if Ascii.eqb c c' then scan ds' r else ([], inp)
           | [] => ([], inp)
           end
  | DUnsigned :: ds' =>
      match scan_unsigned inp with
      | Some (v, r) => let '(args, r') := scan ds' r in (AUnsigned v :: args, r')
      | None => ([], inp)
      end
  | DString :: ds' =>
      match scan_string inp with
      | Some (s, r) => let '(args, r') := scan ds' r in (AString s :: args, r')
      | None => ([], inp)
      end
  | DChar :: ds' =>
      match inp with
      | c :: r => let '(args, r') := scan ds' r in (AChar c :: args, r')
      | [] => ([], inp)
      end
  end.

Definition scanf (fmt : string) (f : t) : list arg * t :=
  let '(args, r) := scan (parse_format (list_ascii_of_string fmt)) (unread f) in
  (args, mk (path f) r).

(** [readUpTo(buf, n)]: the next bytes, at most [n] of them; none at the end
    of the file. *)
Definition readUpTo (n : Z) (f : t) : list ascii * t :=
  (take (Z.to_nat n) (unread f), mk (path f) (drop (Z.to_nat n) (unread f))).

End File.

(** ** Text *)

Definition newline : ascii := ascii_of_nat 10.

(** Modelled from the spec: [split] (common.h is not among the sources): the
    pieces of [s] between the occurrences of [delim], empty pieces kept. *)
Fixpoint split_chars (s : list ascii) (delim : ascii) : list (list ascii) :=
  match s with
  | [] => [[]]
  | c :: s' =>
      if Ascii.eqb c delim then [] :: split_chars s' delim
      else match split_chars s' delim with
           | piece :: pieces => (c :: piece) :: pieces
           | [] => [[c]]
           end
  end.

Definition split (s : string) (delim : ascii) : list string :=
  map string_of_list_ascii (split_chars (list_ascii_of_string s) delim).

(** [std::from_chars] for [u32] in base 10: where the parse stopped, the
    error code, and the value when there is one. *)
Inductive errc : Type := errc_none | invalid_argument | result_out_of_range.

Definition from_chars (s : string) : list ascii * errc * Z :=
  let inp := list_ascii_of_string s in
  if File.starts_with_digit inp then
    let '(v, rest) := File.scan_digits 0 inp in
    if v <=? u32_max then (rest, errc_none, v) else (rest, result_out_of_range, 0)
  else (inp, invalid_argument, 0).

(** GMP's [mpz_class(const std::string&)] (gmpxx.h and GMP are not among
    the sources): [mpz_set_str] with base 0 on [c_str()], the text up to the
    first NUL.  Leading white space is skipped, then an optional ['-'], after
    which a decimal digit must come.  A leading [0] selects base 8, [0x]
    base 16 and [0b] base 2.  Then zeros and white space are skipped; when
    nothing is left the number is 0; else what is left, white space
    removed, must be digits of the base.  [None] stands for the
    [std::invalid_argument] that the constructor throws. *)
Definition digit_value (c : ascii) : option Z :=
  let n := Z_of_byte c in
  if (48 <=? n) && (n <=? 57) then Some (n - 48)
  else if (97 <=? n) && (n <=? 122) then Some (n - 87)
  else if (65 <=? n) && (n <=? 90) then Some (n - 55)
  else None.

Fixpoint digits_value (base acc : Z) (cs : list ascii) : option Z :=
  match cs with
  | [] => Some acc
  | c :: r =>
      match digit_value c with
      | Some d => if d <? base then digits_value base (acc * base + d) r else None
      | None => None
      end
  end.

(** [s.c_str()] as C code reads it: the characters before the first NUL. *)
Fixpoint c_str (cs : list ascii) : list ascii :=
  match cs with
  | c :: r => if Z_of_byte c =? 0 then [] else c :: c_str r
  | [] => []
  end.

(** [while (c == '0' || isspace (c)) c = *str++]. *)
Fixpoint skip_zeros_and_space (cs : list ascii) : list ascii :=
  match cs with
  | c :: r =>
      if Ascii.eqb c "0" || File.is_space c then skip_zeros_and_space r else cs
  | [] => []
  end.

Definition mpz_of_string (s : string) : option Z :=
  let cs := File.skip_space (c_str (list_ascii_of_string s)) in
  let '(neg, cs) :=
    match cs with
    | "-"%char :: r => (true, r)
    | _ => (false, cs)
    end in
  match cs with
  | [] => None
  | c :: r =>
      match digit_value c with
      | Some d =>
          if 10 <=? d then None
          else
            let '(base, rest) :=
              if Ascii.eqb c "0" then
                match r with
                | "x"%char :: r' | "X"%char :: r' => (16, r')
                | "b"%char :: r' | "B"%char :: r' => (2, r')
                | _ => (8, r)
                end
              else (10, cs) in
            match skip_zeros_and_space rest with
            | [] => Some 0
            | ds =>
                match digits_value base 0
                        (filter (fun c => File.is_space c = false) ds) with
                | Some v => Some (if neg : bool then - v else v)
                | None => None
                end
            end
      | None => None
      end
  end.

(** ** namespace proof *)

Module proof.

Definition hashWords (E : Z) (words : Words) : outcome (list Z) :=
  (bytes <- read_mem words (nBytes E) ;;
   Ok (SHA3.finish (SHA3.update bytes SHA3.init)))%outcome.

(** The overload [hashWords(E, prefix, words)]. *)
Definition hashWords_prefix (E : Z) (prefix : list Z) (words : Words) : outcome (list Z) :=
  (bytes <- read_mem words (nBytes E) ;;
   Ok (SHA3.finish (SHA3.update bytes (SHA3.update_array prefix SHA3.init))))%outcome.

Definition mersenneToString (E : Z) (knownFactors : list string) : string :=
  fold_left (fun result factor => result +:+ ("/" +:+ factor)) knownFactors
            ("M" +:+ to_string E).

(** The loop over [parts[1..]]. *)
Fixpoint parse_factors (parts : list string) (knownFactors : list string)
  : outcome (list string) :=
  match parts with
  | [] => Ok knownFactors
  | part :: rest =>
      if bool_decide (part = "") then parse_factors rest knownFactors
      else match mpz_of_string part with
           | Some test =>
               if test <=? 0
               then Throw ("Invalid factor: '" +:+ part +:+ "' (not positive)")
               else parse_factors rest (knownFactors ++ [part])
           | None => Throw ("Invalid factor: '" +:+ part +:+ "' (not numeric)")
           end
  end.

(** Returns the exponent and the final value of [knownFactors]. *)
Definition mersenneFromString (number : string) : outcome (Z * list string) :=
  match number with
  | String "M"%char rest =>
      match split rest "/"%char with
      | [] => Throw "Invalid Mersenne number format: no exponent found"
      | part0 :: parts =>
          match from_chars part0 with
          | ([], errc_none, exponent) =>
              (knownFactors <- parse_factors parts [] ;;
               Ok (exponent, knownFactors))%outcome
          | _ => Throw ("Invalid exponent: " +:+ part0)
          end
      end
  | _ => Throw "Invalid Mersenne number format: must start with M"
  end.

End proof.

(** ** The engine *)

(** The part of class [Gpu] that Proof.cpp calls (Gpu.h is not among the
    sources); an engine is a parameter of everything that uses one.  A
    [Buffer] is the content of a device buffer; an operation that writes a
    buffer returns its new content. *)
Class Gpu : Type := {
  Buffer : Type;
  (** [args.verbose] *)
  verbose : bool;
  (** [expMul(A, h, B, doSquareB)] on residues *)
  expMul : Words -> Z -> Words -> bool -> Words;
  expExp2 : Words -> Z -> Words;
  (** one buffer of [makeBufVector(n)] *)
  newBuffer : Buffer;
  (** the buffer after [writeIn(buf, w)] *)
  writeIn : Words -> Buffer;
  (** the first buffer after [expMul(A, h, B)] on buffers *)
  expMulBuf : Buffer -> Z -> Buffer -> Buffer;
  readAndCompress : Buffer -> Words
}.

(** Modelled from the spec: [makeWords] (common.h is not among the sources):
    the residue [value] as a vector of [(E - 1) / 32 + 1] words. *)
Definition makeWords (E value : Z) : Words :=
  value :: replicate (Z.to_nat (wrap32 (E - 1) / 32)) 0.

(** ** class Proof *)

Record Proof : Type := mkProof {
  Proof_E : Z;
  Proof_knownFactors : list string;
  Proof_B : Words;
  Proof_middles : list Words
}.

Definition HEADER_v2 : string :=
  "PRP PROOF" +:+ String newline "VERSION=2" +:+ String newline "HASHSIZE=64"
  +:+ String newline "POWER=%u" +:+ String newline "NUMBER=%s%c".

(** [fo.write(w.data(), (E-1)/8+1)] for each middle. *)
Fixpoint write_words (fo : File.t) (E : Z) (ws : list Words) : IO unit :=
  match ws with
  | [] => io_ret tt
  | w :: rest =>
      (bytes <- lift (read_mem w (nBytes E)) ;;
       File.write fo bytes ;;
       write_words fo E rest)%io
  end.

Definition Proof_save (p : Proof) (proofFile : string) : IO unit :=
  (fo <- File.openWrite proofFile ;;
   let power := wrap32 (Z.of_nat (length (Proof_middles p))) in
   let number := proof.mersenneToString (Proof_E p) (Proof_knownFactors p) in
   File.printf HEADER_v2
     [File.AUnsigned power; File.AString number; File.AChar newline] fo ;;
   write_words fo (Proof_E p) [Proof_B p] ;;
   write_words fo (Proof_E p) (Proof_middles p))%io.

(** [for (u32 i = 0; i < power; ++i) middles.push_back(fi.readBytesLE(nBytes))]. *)
Fixpoint read_middles (n : nat) (nBytes : Z) (fi : File.t) (middles : list Words)
  : outcome (list Words) :=
  match n with
  | O => Ok middles
  | S n' =>
      (r <- File.readBytesLE nBytes fi ;;
       read_middles n' nBytes (snd r) (middles ++ [fst r]))%outcome
  end.

(** [char number[2048]]: a token that, with its terminator, is longer
    overruns the buffer. *)
Definition overruns (args : list File.arg) : bool :=
  existsb (fun a => match a with
                    | File.AString s => 2048 <? Z.of_nat (String.length s) + 1
                    | _ => false
                    end) args.

Definition invalid_header {A : Type} (path : string) (detail : option string) : IO A :=
  (log (LogInvalidHeader path) ;;
   match detail with
   | Some e => log (LogMessage e)
   | None => io_ret tt
   end ;;
   throw "Invalid proof header")%io.

Definition Proof_load (path : string) : IO Proof :=
  (fi <- File.openReadThrow path ;;
   let '(args, fi) := File.scanf HEADER_v2 fi in
   if overruns args then lift (Crash "number[2048] overrun")
   else match args with
        | [File.AUnsigned power; File.AString number; File.AChar c] =>
            if negb (Ascii.eqb c newline) then invalid_header path None
            else
              r <- try_catch (lift (proof.mersenneFromString number))
                             (fun e => invalid_header path (Some e)) ;;
              let E := fst r in
              let nBytes := nBytes E in
              b <- lift (File.readBytesLE nBytes fi) ;;
              middles <- lift (read_middles (Z.to_nat power) nBytes (snd b) []) ;;
              io_ret (mkProof E (snd r) (fst b) middles)
        | _ => invalid_header path None
        end)%io.

(** [a / b] on [fs::path] for a relative [b] and any [a]: no separator is
    added after an empty [a] or after one that ends with a separator. *)
Definition path_append (a b : string) : string :=
  match rev (list_ascii_of_string a) with
  | [] => b
  | c :: _ => if Ascii.eqb c "/" then a +:+ b else a +:+ "/" +:+ b
  end.

(** [Proof::file]: the name of the proof file in [proofDir]. *)
Definition Proof_file (p : Proof) (proofDir : string) : string :=
  let strE := to_string (Proof_E p) in
  let power := wrap32 (Z.of_nat (length (Proof_middles p))) in
  path_append proofDir (strE +:+ "-" +:+ to_string power +:+ ".proof").

(** Class [MD5] (MD5.h is not among the sources): a running hash that is
    fed bytes and finished into a string; a parameter of what uses it. *)
Class MD5 : Type := {
  MD5_state : Type;
  MD5_init : MD5_state;
  MD5_update : list ascii -> MD5_state -> MD5_state;
  MD5_finish : MD5_state -> string
}.

(** [while ((size = fi.readUpTo(buf, sizeof(buf)))) h.update(buf, size)] with
    a buffer of 64 KiB; every turn but the last consumes bytes, so a
    [fuel] above the number of bytes is never used up. *)
Fixpoint fileHash_loop `{MD5} (fuel : nat) (fi : File.t) (h : MD5_state) : MD5_state :=
  match fuel with
  | O => h
  | S fuel' =>
      let '(buf, fi') := File.readUpTo 65536 fi in
      if Z.of_nat (length buf) =? 0 then h
      else fileHash_loop fuel' fi' (MD5_update buf h)
  end.

(** [proof::fileHash]. *)
Definition fileHash `{MD5} (filePath : string) : IO string :=
  (fi <- File.openReadThrow filePath ;;
   io_ret (MD5_finish (fileHash_loop (S (length (File.unread fi))) fi MD5_init)))%io.



(** The loop of [verify]; [None] is the early [return false]. *)
Fixpoint verify_loop `{Gpu} (E : Z) (hashes : list Z) (middles : list Words)
    (i span : Z) (hash : list Z) (A B : Words) : IO (option (Words * Words * Z)) :=
  match middles with
  | [] => io_ret (Some (A, B, span))
  | M :: rest =>
      (hash <- lift (proof.hashWords_prefix E hash M) ;;
       let h := nth 0 hash 0 in
       if (i <? Z.of_nat (length hashes)) && negb (h =? nth (Z.to_nat i) hashes 0)
       then log (LogHashMismatch i (nth (Z.to_nat i) hashes 0) h) ;; io_ret None
       else
         let doSquareB := negb (span mod 2 =? 0) in
         let B := expMul M h B doSquareB in
         let A := expMul A h M false in
         (if verbose then log (LogRound i A B h) else io_ret tt) ;;
         verify_loop E hashes rest (wrap32 (i + 1)) (wrap32 (span + 1) / 2) hash A B)%io
  end.

Definition Proof_verify `{Gpu} (p : Proof) (hashes : list Z) : IO bool :=
  (let E := Proof_E p in
   let power := wrap32 (Z.of_nat (length (Proof_middles p))) in
   lift (assert (0 <? power) "power > 0") ;;
   let isPrime := Words_eqb (Proof_B p) (makeWords E 9) in
   let A := makeWords E 3 in
   let B := Proof_B p in
   hash <- lift (proof.hashWords E B) ;;
   r <- verify_loop E hashes (Proof_middles p) 0 E hash A B ;;
   match r with
   | None => io_ret false
   | Some (A, B, span) =>
       log (LogIterations span) ;;
       let A := expExp2 A span in
       let ok := Words_eqb A B in
       (if ok then log (LogProved E isPrime) else log (LogInvalid A B)) ;;
       io_ret ok
   end)%io.

(** ** ProofSet: the proof points *)

Module ProofSet.

Record t : Type := mk {
  E : Z;
  knownFactors : list string;
  power : Z;
  points : list Z;
  (** [cacheIt] is an iterator into [points], kept as its index. *)
  cacheIt : nat
}.

(** [span = (span + 1) / 2] on [u32]. *)
Definition halve (span : Z) : Z := wrap32 (span + 1) / 2.

(** The unused local [spans] of the constructor. *)
Fixpoint spans_loop (n : nat) (span : Z) : list Z :=
  match n with
  | O => []
  | S n' => span :: spans_loop n' (halve span)
  end.

Definition spans (E power : Z) : list Z :=
  spans_loop (Z.to_nat power) (halve E).

(** The doubling loop of the constructor: at each level every point present
    so far is pushed again, shifted by the level's span. *)
Fixpoint points_loop (n : nat) (span : Z) (points : list Z) : list Z :=
  match n with
  | O => points
  | S n' =>
      points_loop n' (halve span)
        (points ++ map (fun x => wrap32 (x + span)) points)
  end.

Definition raw_points (E power : Z) : list Z :=
  points_loop (Z.to_nat power) (halve E) [0].

(** [std::sort] on [vector<u32>]. *)
Definition sort (l : list Z) : list Z := merge_sort Z.le l.

(** [points.front() = E; std::sort(...)]. *)
Definition sorted_points (E power : Z) : list Z :=
  sort (<[0%nat := E]> (raw_points E power)).

Fixpoint isInPoints_loop (n : nat) (span start k : Z) : outcome bool :=
  match n with
  | O => Ok false
  | S n' =>
      (assert (start <=? k) "k >= start" ;;
       if wrap32 (start + span) <? k then
         isInPoints_loop n' (halve span) (wrap32 (start + span)) k
       else if k =? wrap32 (start + span) then Ok true
       else isInPoints_loop n' (halve span) start k)%outcome
  end.

Definition isInPoints (E power k : Z) : outcome bool :=
  if k =? E then Ok true
  else isInPoints_loop (Z.to_nat power) (halve E) 0 k.

(** [std::upper_bound]: the binary search of the standard library, on the
    half-open range that starts at [first] and has [len] elements. *)
Fixpoint upper_bound_loop (fuel : nat) (l : list Z) (first len : nat) (val : Z) : nat :=
  match fuel with
  | O => first
  | S fuel' =>
      match len with
      | O => first
      | S _ =>
          let half := Nat.div2 len in
          let middle := (first + half)%nat in
          if val <? nth middle l 0 then upper_bound_loop fuel' l first half val
          else upper_bound_loop fuel' l (S middle) (len - half - 1)%nat val
      end
  end.

Definition upper_bound (l : list Z) (val : Z) : nat :=
  upper_bound_loop (length l) l 0%nat (length l) val.

(** Dereferencing an iterator; [end()] cannot be dereferenced. *)
Definition deref (l : list Z) (it : nat) : outcome Z :=
  match l !! it with
  | Some x => Ok x
  | None => Crash "dereference of end()"
  end.

Definition next (ps : t) (k : Z) : outcome (Z * t) :=
  (cur <- deref (points ps) (cacheIt ps) ;;
   stale <- (if cur <=? k then Ok true
             else match cacheIt ps with
                  | O => Ok false
                  | S i => prev <- deref (points ps) i ;; Ok (k <? prev)
                  end) ;;
   let it := if stale : bool then upper_bound (points ps) k else cacheIt ps in
   r <- deref (points ps) it ;;
   Ok (r, mk (E ps) (knownFactors ps) (power ps) (points ps) it))%outcome.

Definition proofPath (E : Z) : string := path_join (to_string E) "proof".

Definition pointPath (E k : Z) : string := path_join (proofPath E) (to_string k).

(** The closing loop of the constructor:
    [assert(p > E || isInPoints(E, power, p))] for every element. *)
Fixpoint check_points (E power : Z) (pts : list Z) : outcome unit :=
  match pts with
  | [] => Ok tt
  | p :: rest =>
      (ok <- (if E <? p then Ok true else isInPoints E power p) ;;
       assert ok "p > E || isInPoints(E, power, p)" ;;
       check_points E power rest)%outcome
  end.

(** The constructor [ProofSet(E, knownFactors, power)]. *)
Definition new (E : Z) (knownFactors : list string) (power : Z) : IO t :=
  (lift (assert (negb (Z.land E 1 =? 0)) "E & 1") ;;
   (if (power <=? 0) || (12 <? power)
    then log (LogInvalidPower power) ;; throw "Invalid proof power"
    else io_ret tt) ;;
   create_directories (proofPath E) ;;
   let pts := raw_points E power in
   lift (assert (Z.of_nat (length pts) =? wrap32 (Z.shiftl 1 power))
                "points.size() == (1u << power)") ;;
   lift (assert (hd 1 pts =? 0) "points.front() == 0") ;;
   let pts := sort (<[0%nat := E]> pts) in
   lift (assert (Z.of_nat (length pts) =? wrap32 (Z.shiftl 1 power))
                "points.size() == (1u << power)") ;;
   lift (assert (List.last pts (E + 1) =? E) "points.back() == E") ;;
   let pts := pts ++ [u32_max] in
   lift (check_points E power pts) ;;
   io_ret (mk E knownFactors power pts 0))%io.

(** The static [load(E, power, k)]. *)
Definition load_static (E power k : Z) : IO Words :=
  (lift (assert (negb (k =? 0) && (k <=? E)) "k && k <= E") ;;
   ok <- lift (isInPoints E power k) ;;
   lift (assert ok "isInPoints(E, power, k)") ;;
   fi <- File.openReadThrow (pointPath E k) ;;
   r <- lift (File.readChecked (wrap32 (E / 32 + 1)) fi) ;;
   io_ret (fst r))%io.

(** The static [save(E, power, k, words)]. *)
Definition save_static (E power k : Z) (words : Words) : IO unit :=
  (lift (assert (negb (k =? 0) && (k <=? E)) "k && k <= E") ;;
   ok <- lift (isInPoints E power k) ;;
   lift (assert ok "isInPoints(E, power, k)") ;;
   fo <- File.openWrite (pointPath E k) ;;
   File.writeChecked fo words ;;
   back <- load_static E power k ;;
   lift (assert (Words_eqb back words) "load(E, power, k) == words"))%io.

Definition save (ps : t) (k : Z) (words : Words) : IO unit :=
  save_static (E ps) (power ps) k words.

Definition load (ps : t) (k : Z) : IO Words :=
  load_static (E ps) (power ps) k.

Definition fileExists (ps : t) (k : Z) : IO bool :=
  (sz <- File.size (pointPath (E ps) k) ;;
   io_ret (sz =? wrap32 (E ps / 32 + 2) * 4))%io.

(** [while (it != points.begin())]: step back one element, and leave with
    [false] when its file is not there. *)
Fixpoint isValidTo_loop (ps : t) (it : nat) : IO bool :=
  match it with
  | O => io_ret true
  | S it' =>
      (k <- lift (deref (points ps) it') ;;
       present <- fileExists ps k ;;
       if present : bool then isValidTo_loop ps it' else io_ret false)%io
  end.

Definition isValidTo (ps : t) (limitK : Z) : IO bool :=
  match upper_bound (points ps) limitK with
  | O => io_ret true
  | S it =>
      (k <- lift (deref (points ps) it) ;;
       loaded <- try_catch (load ps k ;; io_ret true) (fun _ => io_ret false) ;;
       if loaded : bool then isValidTo_loop ps it else io_ret false)%io
  end.

Definition canDo (E : Z) (knownFactors : list string) (power currentK : Z) : IO bool :=
  (lift (assert ((0 <? power) && (power <=? 12)) "power > 0 && power <= 12") ;;
   ps <- new E knownFactors power ;;
   isValidTo ps currentK)%io.

(** [floor(log2(a / b))] for positive integers [a] and [b]. *)
Definition floor_log2_ratio (a b : Z) : Z :=
  if b <=? a then Z.log2 (a / b) else - Z.log2_up ((b + a - 1) / a).

(** [bestPower]; the arithmetic on [double] is taken as exact, so that
    [floor(log2(E / 60e6) / 2)] is the floor of the real number. *)
Definition bestPower (E : Z) : outcome Z :=
  (assert (0 <? E) "E > 0" ;;
   let power := 10 + floor_log2_ratio E 60000000 / 2 in
   assert (2 <=? power) "power >= 2" ;;
   Ok (wrap32 power))%outcome.

(** [for (u32 p = power; p > 0; --p)], with [p] the successor of [n]. *)
Fixpoint effectivePower_loop (n : nat) (E : Z) (knownFactors : list string)
    (currentK : Z) : IO Z :=
  match n with
  | O => io_ret 0
  | S n' =>
      (ok <- canDo E knownFactors (Z.of_nat n) currentK ;;
       if ok : bool then io_ret (Z.of_nat n)
       else effectivePower_loop n' E knownFactors currentK)%io
  end.

Definition effectivePower (E : Z) (knownFactors : list string) (power currentK : Z) : IO Z :=
  effectivePower_loop (Z.to_nat power) E knownFactors currentK.

(** *** computeProof *)

(** [vector::operator[]] and iterator access into the buffers. *)
Definition at_index {A : Type} (l : list A) (i : nat) : outcome A :=
  match l !! i with
  | Some x => Ok x
  | None => Crash "index out of range"
  end.

(** [for (u32 k = 0; i & (1u << k); ++k)]: fold the buffer just written into
    the one below it, once per trailing one bit of [i]. *)
Fixpoint collapse `{Gpu} (fuel : nat) (p i k : Z) (hashes : list Z)
    (bufVect : list Buffer) (bufIt : nat) : outcome (list Buffer * nat) :=
  match fuel with
  | O => Crash "1u << 32"
  | S fuel' =>
      if Z.testbit i k then
        (assert (k <=? wrap32 (p - 1)) "k <= p - 1" ;;
         match bufIt with
         | S (S below) =>
             h <- at_index hashes (Z.to_nat (wrap32 (wrap32 (p - 1) - k))) ;;
             a <- at_index bufVect below ;;
             b <- at_index bufVect (S below) ;;
             collapse fuel' p i (k + 1) hashes
                      (<[below := expMulBuf a h b]> bufVect) (S below)
         | _ => Crash "iterator before begin()"
         end)%outcome
      else Ok (bufVect, bufIt)
  end.

(** [for (u32 i = 0; i < (1u << p); ++i)], with [n] iterations left. *)
Fixpoint level_loop `{Gpu} (n : nat) (ps : t) (p s i : Z) (hashes : list Z)
    (bufVect : list Buffer) (bufIt : nat) : IO (list Buffer * nat) :=
  match n with
  | O => io_ret (bufVect, bufIt)
  | S n' =>
      (k <- lift (at_index (points ps)
                    (Z.to_nat (wrap32 (wrap32 (s * wrap32 (i * 2 + 1)) - 1)))) ;;
       w <- load ps k ;;
       _ <- lift (at_index bufVect bufIt) ;;
       r <- lift (collapse 32 p i 0 hashes (<[bufIt := writeIn w]> bufVect) (S bufIt)) ;;
       level_loop n' ps p s (i + 1) hashes (fst r) (snd r))%io
  end.

(** [for (u32 p = 0; p < power; ++p)], with [n] levels left. *)
Fixpoint computeProof_loop `{Gpu} (n : nat) (ps : t) (p : Z) (bufVect : list Buffer)
    (hash : list Z) (middles : list Words) (hashes : list Z)
  : IO (list Words * list Z) :=
  match n with
  | O => io_ret (middles, hashes)
  | S n' =>
      (lift (assert (p =? Z.of_nat (length hashes)) "p == hashes.size()") ;;
       let s := wrap32 (Z.shiftl 1 (wrap32 (wrap32 (power ps - p) - 1))) in
       r <- level_loop (Z.to_nat (wrap32 (Z.shiftl 1 p))) ps p s 0 hashes bufVect 0 ;;
       lift (assert (bool_decide (snd r = 1%nat)) "bufIt == bufVect.begin() + 1") ;;
       front <- lift (at_index (fst r) 0) ;;
       let w := readAndCompress front in
       (if bool_decide (w = []) then throw "Read ZERO during proof generation"
        else io_ret tt) ;;
       hash <- lift (proof.hashWords_prefix (E ps) hash w) ;;
       let h := nth 0 hash 0 in
       log (LogMiddle p w h) ;;
       computeProof_loop n' ps (p + 1) (fst r) hash (middles ++ [w]) (hashes ++ [h]))%io
  end.

Definition computeProof `{Gpu} (ps : t) : IO (Proof * list Z) :=
  (B <- load ps (E ps) ;;
   hash <- lift (proof.hashWords (E ps) B) ;;
   let bufVect := replicate (Z.to_nat (power ps)) newBuffer in
   r <- computeProof_loop (Z.to_nat (power ps)) ps 0 bufVect hash [] [] ;;
   io_ret (mkProof (E ps) (knownFactors ps) B (fst r), snd r))%io.

End ProofSet.


(** ** Notions used to state the properties *)

(** [l] is ascending, read through [nth]. *)
Definition ascending (l : list Z) : Prop :=
  forall i j : nat, (i <= j < length l)%nat -> nth i l 0 <= nth j l 0.

(** [r] splits [l]: everything before it is at most [val], everything from
    it on is greater. *)
Definition splits (l : list Z) (val : Z) (r : nat) : Prop :=
  (r <= length l)%nat /\
  (forall j : nat, (j < r)%nat -> nth j l 0 <= val) /\
  (forall j : nat, (r <= j < length l)%nat -> val < nth j l 0).

Fixpoint Zsum (l : list Z) : Z :=
  match l with
  | [] => 0
  | x :: l' => x + Zsum l'
  end.

(** The sums of the sub-lists of [ss]. *)
Fixpoint subsums (ss : list Z) : list Z :=
  match ss with
  | [] => [0]
  | s :: r => subsums r ++ map (Z.add s) (subsums r)
  end.

(** The spans of a proof of this power add up to at most [E]. *)
Definition spans_fit (E power : Z) : Prop := Zsum (ProofSet.spans E power) <= E.

(** The world after [fs::create_directories(proofPath(E))]. *)
Definition with_proof_dir (E : Z) (w : World) : World :=
  touch (IoMkdir (ProofSet.proofPath E))
    (mkWorld (files w) ({[ProofSet.proofPath E]} ∪ dirs w) (accesses w) (console w)).

Definition succeeded {A : Type} (r : outcome A) : bool :=
  match r with
  | Ok _ => true
  | _ => false
  end.

(** What the assertions of the constructor check. *)
Definition new_checks (E power : Z) : bool :=
  (Z.of_nat (length (ProofSet.raw_points E power)) =? wrap32 (Z.shiftl 1 power))
  && (hd 1 (ProofSet.raw_points E power) =? 0)
  && (Z.of_nat (length (ProofSet.sorted_points E power)) =? wrap32 (Z.shiftl 1 power))
  && (List.last (ProofSet.sorted_points E power) (E + 1) =? E)
  && succeeded (ProofSet.check_points E power
                  (ProofSet.sorted_points E power ++ [u32_max])).

(** The object after a history of calls of [next]. *)
Fixpoint after_calls (ps : ProofSet.t) (ks : list Z) : outcome ProofSet.t :=
  match ks with
  | [] => Ok ps
  | k :: rest => (r <- ProofSet.next ps k ;; after_calls (snd r) rest)%outcome
  end.

(** [r] is the smallest element of [l] that is greater than [k]. *)
Definition least_above (l : list Z) (k r : Z) : Prop :=
  In r l /\ k < r /\ forall x, In x l -> k < x -> r <= x.

(** The state [next] relies on: sorted points that end in the guard, and a
    cached iterator that can be dereferenced. *)
Definition cache_ok (ps : ProofSet.t) : Prop :=
  StronglySorted Z.le (ProofSet.points ps) /\
  In u32_max (ProofSet.points ps) /\
  (ProofSet.cacheIt ps < length (ProofSet.points ps))%nat.

(** The words a cache file holds, when it reads back as a checked file of
    the length [load] asks for. *)
Definition stored_words (fs : gmap string (list ascii)) (E k : Z) : option Words :=
  match fs !! ProofSet.pointPath E k with
  | Some d =>
      match File.readChecked (wrap32 (E / 32 + 1)) (File.mk (ProofSet.pointPath E k) d) with
      | Ok r => Some (fst r)
      | _ => None
      end
  | None => None
  end.

Definition file_size (fs : gmap string (list ascii)) (p : string) : Z :=
  match fs !! p with
  | Some d => Z.of_nat (length d)
  | None => -1
  end.

(** The cache file of point [k] has the size [fileExists] looks for. *)
Definition present (fs : gmap string (list ascii)) (E k : Z) : bool :=
  file_size fs (ProofSet.pointPath E k) =? wrap32 (E / 32 + 2) * 4.

(** The cache is consistent up to [limitK]: the last point at or below it
    loads, and every point before that one has a file of the right size. *)
Definition valid_to (fs : gmap string (list ascii)) (E : Z) (pts : list Z) (limitK : Z) : bool :=
  match ProofSet.upper_bound pts limitK with
  | O => true
  | S it =>
      bool_decide (is_Some (stored_words fs E (nth it pts 0)))
      && forallb (present fs E) (take it pts)
  end.

(** The same for the points of a given power. *)
Definition cache_consistent (fs : gmap string (list ascii)) (E power currentK : Z) : bool :=
  valid_to fs E (ProofSet.sorted_points E power ++ [u32_max]) currentK.

(** What [save] leaves in the file: the words and their checksum. *)
Definition saved_file (R : Words) : list ascii :=
  Words_data R ++ le_bytes 4 (crc32 (Words_data R)).

(** The world after a [save] to the file at [p]. *)
Definition after_save (p : string) (R : Words) (w : World) : World :=
  mkWorld (<[p := saved_file R]> (files w)) (dirs w)
          (accesses w ++ [IoOpenWrite p; IoWrite p; IoWrite p; IoOpenRead p])
          (console w).

(** An exponent of a Mersenne candidate: an odd prime that fits [u32]. *)
Definition odd_prime (E : Z) : Prop := prime E /\ Z.odd E = true /\ E < 2 ^ 32.

(** A check of primality by computation: every smaller positive number is
    coprime to [p]. *)
Definition coprime_below (p : Z) : bool :=
  (1 <? p) && forallb (fun n => Z.gcd (Z.of_nat n) p =? 1) (seq 1 (Z.to_nat p - 1)).

(** A world with no file and no directory. *)
Definition empty_world : World := mkWorld ∅ ∅ [] [].

(** ** The hash chain and the verifier, in the words of the spec *)

(** [bytes(R)]: the [ceil(E / 8)] bytes of the little-endian encoding. *)
Definition spec_bytes (E : Z) (R : Words) : list ascii :=
  take (Z.to_nat ((E + 7) / 8)) (Words_data R).

(** The low 64 bits of a digest, little-endian. *)
Definition low64 (d : list ascii) : Z := le_value (take 8 d).

(** [d_0 = SHA3-256(bytes(B))]. *)
Definition spec_d0 (E : Z) (B : Words) : list ascii := SHA3.sha3_256 (spec_bytes E B).

(** [d_{i+1} = SHA3-256(d_i || bytes(M[i]))] and [h[i] = low64(d_{i+1})]. *)
Fixpoint spec_chain (E : Z) (d : list ascii) (Ms : list Words) : list Z :=
  match Ms with
  | [] => []
  | M :: rest =>
      let d' := SHA3.sha3_256 (d ++ spec_bytes E M) in
      low64 d' :: spec_chain E d' rest
  end.

Definition spec_challenges (E : Z) (B : Words) (Ms : list Words) : list Z :=
  spec_chain E (spec_d0 E B) Ms.

(** One round per middle: [B <- expMul(M, h, B, span odd)],
    [A <- expMul(A, h, M, false)], [span <- ceil(span / 2)]. *)
Fixpoint spec_rounds `{Gpu} (hs : list Z) (Ms : list Words) (A B : Words) (span : Z)
  : Words * Words * Z :=
  match hs, Ms with
  | h :: hs', M :: Ms' =>
      spec_rounds hs' Ms' (expMul A h M false) (expMul M h B (Z.odd span))
                  ((span + 1) / 2)
  | _, _ => (A, B, span)
  end.

(** [A == B] after the rounds and [A <- expExp2(A, span)]. *)
Definition spec_accepts `{Gpu} (p : Proof) : bool :=
  let E := Proof_E p in
  let '(A, B, span) :=
    spec_rounds (spec_challenges E (Proof_B p) (Proof_middles p)) (Proof_middles p)
                (makeWords E 3) (Proof_B p) E in
  Words_eqb (expExp2 A span) B.

(** The expected challenges handed to [verify] agree with the recomputed
    ones wherever both exist. *)
Fixpoint agree (expected hs : list Z) : bool :=
  match expected, hs with
  | e :: expected', h :: hs' => (h =? e) && agree expected' hs'
  | _, _ => true
  end.

(** The running hash of [verify] and of [computeProof] over the middles:
    the last hash and the challenges [hash[0]] met on the way. *)
Fixpoint chain_state (E : Z) (hash : list Z) (middles : list Words)
  : outcome (list Z * list Z) :=
  match middles with
  | [] => Ok (hash, [])
  | M :: rest =>
      (hash' <- proof.hashWords_prefix E hash M ;;
       r <- chain_state E hash' rest ;;
       Ok (fst r, nth 0 hash' 0 :: snd r))%outcome
  end.

(** The challenges [verify] recomputes from a proof. *)
Definition Proof_challenges (p : Proof) : outcome (list Z) :=
  (hash <- proof.hashWords (Proof_E p) (Proof_B p) ;;
   r <- chain_state (Proof_E p) hash (Proof_middles p) ;;
   Ok (snd r))%outcome.

(** The residue owns the bytes that are hashed and written. *)
Definition has_bytes (E : Z) (w : Words) : Prop := nBytes E <= 4 * Z.of_nat (length w).

(** ** A reference engine

    Residues as integers modulo [2^E - 1]; a buffer holds one. *)

Fixpoint powmod_pos (a : Z) (e : positive) (m : Z) : Z :=
  match e with
  | xH => a mod m
  | xO e' => let r := powmod_pos a e' m in (r * r) mod m
  | xI e' => let r := powmod_pos a e' m in (r * r * a) mod m
  end.

Definition powmod (a e m : Z) : Z :=
  match e with
  | Zpos p => powmod_pos a p m
  | _ => 1 mod m
  end.

Definition words_value (w : Words) : Z := fold_right (fun x acc => x + 2 ^ 32 * acc) 0 w.

Fixpoint value_words_n (n : nat) (v : Z) : Words :=
  match n with
  | O => []
  | S n' => v mod 2 ^ 32 :: value_words_n n' (v / 2 ^ 32)
  end.

Definition value_words (E v : Z) : Words := value_words_n (Z.to_nat ((E - 1) / 32 + 1)) v.

Definition reference_gpu (E : Z) : Gpu :=
  let m := 2 ^ E - 1 in
  {| Buffer := Z;
     verbose := true;
     expMul := fun A h B doSquareB =>
       value_words E
         ((powmod (words_value A) h m
           * (if doSquareB then words_value B * words_value B else words_value B)) mod m);
     expExp2 := fun A n => value_words E (powmod (words_value A) (2 ^ n) m);
     newBuffer := 0;
     writeIn := fun w => words_value w;
     expMulBuf := fun a h b => (powmod a h m * b) mod m;
     readAndCompress := fun b => if b =? 0 then [] else value_words E b |}.

(** The residue [3^(2^k) mod (2^E - 1)] of the PRP test after [k] squarings. *)
Definition prp_residue (E k : Z) : Words := value_words E (powmod 3 (2 ^ k) (2 ^ E - 1)).

(** The world after saving, from [w], the residue [R k] at each point [k]
    of [ks]. *)
Definition save_all (E power : Z) (R : Z -> Words) (ks : list Z) (w : World) : World :=
  fold_left (fun w k => snd (ProofSet.save_static E power k (R k) w)) ks w.

(** The proof of [E = 7] and power 1: [B = 3^(2^7) = 9] and the middle
    [3^(2^4)], modulo [2^7 - 1]. *)
Definition proof_of_7 : Proof := mkProof 7 [] [9] [[71]].

(** ** Proof files *)

Definition is_digit (c : ascii) : bool :=
  match File.digit_of c with
  | Some _ => true
  | None => false
  end.

(** The number written by a run of decimal digits. *)
Definition decimal_value (cs : list ascii) : Z :=
  fold_left (fun acc c => acc * 10 + (Z_of_byte c - 48)) cs 0.

(** A decimal numeral that does not start with a zero. *)
Definition is_decimal (s : string) : bool :=
  match list_ascii_of_string s with
  | [] => false
  | c :: r => negb (Ascii.eqb c "0") && forallb is_digit (c :: r)
  end.

(** A residue of [(E - 1) / 32 + 1] words whose value fits the
    [ceil(E / 8)] bytes that are written. *)
Definition canonical (E : Z) (w : Words) : Prop :=
  Z.of_nat (length w) = (E - 1) / 32 + 1 /\
  Forall is_u32 w /\
  words_value w < 2 ^ (8 * ((E + 7) / 8)).

(** The cofactor of the header example of the spec, with residues 9 and 1. *)
Definition cofactor_proof : Proof :=
  mkProof 18178631 ["36357263"; "145429049"; "8411216206439"]
          (makeWords 18178631 9)
          [makeWords 18178631 1; makeWords 18178631 1; makeWords 18178631 1;
           makeWords 18178631 1; makeWords 18178631 1; makeWords 18178631 1;
           makeWords 18178631 1; makeWords 18178631 1].

(** The cofactor of [13799] in [2^6899 - 1], a number of 2073 digits, and a
    proof that names it as the known factor. *)
Definition long_factor : Z := (2 ^ 6899 - 1) / 13799.

Definition long_factor_proof : Proof :=
  mkProof 6899 [to_string long_factor] (makeWords 6899 9) [makeWords 6899 1].

(** The text of the header before the power, and between the power and the
    number. *)
Definition header_prefix : list ascii :=
  list_ascii_of_string
    ("PRP PROOF" +:+ String newline "VERSION=2" +:+ String newline "HASHSIZE=64"
     +:+ String newline "POWER=").

Definition header_middle : list ascii := newline :: list_ascii_of_string "NUMBER=".

(** The header of a proof file for a power and a NUMBER field: the text
    [PRP PROOF / VERSION=2 / HASHSIZE=64 / POWER=<power> / NUMBER=<number>]
    with a newline after each line. *)
Definition proof_header (power : Z) (number : string) : list ascii :=
  header_prefix ++ list_ascii_of_string (to_string power)
  ++ header_middle ++ list_ascii_of_string number ++ [newline].


Definition header_only_world : World :=
  set_files (<["7-1.proof" := proof_header 1 (proof.mersenneToString 7 [])
                              ++ list_ascii_of_string "x"]> (files empty_world))
            empty_world.

(** A world with one file: the saved proof of [M7] followed by three more
    bytes. *)
Definition trailing_world : World :=
  set_files (<["7-1.proof" := proof_header 1 (proof.mersenneToString 7 [])
                              ++ flat_map (spec_bytes 7) [[9]; [71]]
                              ++ list_ascii_of_string "end"]> (files empty_world))
            empty_world.

(** ** Further notions *)

(** The elements of [l] are at least 0, stay below [2^32] when [R] is added,
    and any two different ones are more than [R] apart. *)
Definition spread (R : Z) (l : list Z) : Prop :=
  NoDup l /\
  (forall a, In a l -> 0 <= a /\ a + R < 2 ^ 32) /\
  (forall a b, In a l -> In b l -> a <> b -> R < Z.abs (a - b)).

(** A known factor that [mersenneFromString] keeps: not empty, free of the
    separator, and read by GMP as a positive number. *)
Definition accepted_factor (f : string) : Prop :=
  f <> "" /\
  Forall (fun c => Ascii.eqb c "/" = false) (list_ascii_of_string f) /\
  exists v : Z, mpz_of_string f = Some v /\ 0 < v.

(** The strings of a list that are not empty. *)
Definition non_empty (fs : list string) : list string :=
  List.filter (fun f => negb (String.eqb f "")) fs.


(** The number of one bits of [i], and the number of its low bits that are
    one up to the first zero bit. *)
Fixpoint pos_popcount (q : positive) : nat :=
  match q with
  | xH => 1
  | xO r => pos_popcount r
  | xI r => S (pos_popcount r)
  end.

Definition popcount (i : Z) : nat :=
  match i with
  | Zpos q => pos_popcount q
  | _ => 0
  end.

Fixpoint pos_trailing_ones (q : positive) : nat :=
  match q with
  | xH => 1
  | xO _ => 0
  | xI r => S (pos_trailing_ones r)
  end.

Definition trailing_ones (i : Z) : nat :=
  match i with
  | Zpos q => pos_trailing_ones q
  | _ => 0
  end.

(** The object that the constructor returns. *)
Definition constructed (E : Z) (knownFactors : list string) (power : Z) : ProofSet.t :=
  ProofSet.mk E knownFactors power (ProofSet.sorted_points E power ++ [u32_max]) 0.

(** Every engine result is empty or a residue with the bytes of [E] bits. *)
Definition compresses_to_residues `{Gpu} (E : Z) : Prop :=
  forall b : Buffer, readAndCompress b = [] \/ has_bytes E (readAndCompress b).

(** From [w] to [w'] nothing happened but logging: the files, the
    directories and the record of file accesses are the same, and the
    console has grown at its end. *)
Definition only_logged (w w' : World) : Prop :=
  files w' = files w /\ dirs w' = dirs w /\ accesses w' = accesses w /\
  exists lines : list log_line, console w' = console w ++ lines.

(** A computation that does nothing to the world but logging. *)
Definition quiet {A : Type} (m : IO A) : Prop :=
  forall w : World, only_logged w (snd (m w)).

(** * Properties *)

(** ** Outcomes *)

Lemma assert_Ok (b : bool) (what : string) : assert b what = Ok tt <-> b = true.
Proof. destruct b; simpl; split; congruence. Qed.

(** ** Binary search *)

Section UpperBound.

Variable l : list Z.
Variable val : Z.


Lemma upper_bound_loop_step (fuel first len : nat) :
  (0 < len)%nat ->
  ProofSet.upper_bound_loop (S fuel) l first len val =
  if val <? nth (first + Nat.div2 len) l 0
  then ProofSet.upper_bound_loop fuel l first (Nat.div2 len) val
  else ProofSet.upper_bound_loop fuel l (S (first + Nat.div2 len))
         (len - Nat.div2 len - 1) val.
Proof. destruct len; [lia | reflexivity]. Qed.

Lemma upper_bound_loop_splits (fuel first len : nat) :
  ascending l ->
  (len <= fuel)%nat ->
  (first + len <= length l)%nat ->
  (forall j : nat, (j < first)%nat -> nth j l 0 <= val) ->
  (forall j : nat, (first + len <= j < length l)%nat -> val < nth j l 0) ->
  splits l val (ProofSet.upper_bound_loop fuel l first len val).
Proof.
  intros Hasc. revert first len.
  induction fuel as [|fuel IH]; intros first len Hfuel Hlen Hlo Hhi.
  - assert (len = 0%nat) by lia. subst len. simpl.
    repeat split; [lia | exact Hlo | intros j Hj; apply Hhi; lia].
  - destruct (Nat.eq_dec len 0%nat) as [->|Hpos].
    + simpl. repeat split; [lia | exact Hlo | intros j Hj; apply Hhi; lia].
    + rewrite upper_bound_loop_step by lia.
      assert (Hhalf : (Nat.div2 len < len)%nat) by (apply Nat.lt_div2; lia).
      generalize dependent (Nat.div2 len). intros half Hhalf.
      destruct (val <? nth (first + half) l 0) eqn:Hcmp.
      * apply Z.ltb_lt in Hcmp. apply IH; [lia | lia | exact Hlo |].
        intros j Hj.
        assert (nth (first + half) l 0 <= nth j l 0) by (apply Hasc; lia).
        lia.
      * apply Z.ltb_ge in Hcmp. apply IH; [lia | lia | |].
        -- intros j Hj.
           assert (nth j l 0 <= nth (first + half) l 0) by (apply Hasc; lia).
           lia.
        -- intros j Hj. apply Hhi. lia.
Qed.

Lemma upper_bound_splits : ascending l -> splits l val (ProofSet.upper_bound l val).
Proof.
  intros Hasc. unfold ProofSet.upper_bound.
  apply upper_bound_loop_splits; auto; try lia.
Qed.

(** When every element exceeds [val] the search ends at [begin()], sorted
    or not. *)
Lemma upper_bound_loop_all_greater (fuel first len : nat) :
  (forall j : nat, (j < length l)%nat -> val < nth j l 0) ->
  (first + len <= length l)%nat ->
  ProofSet.upper_bound_loop fuel l first len val = first.
Proof.
  intros Hall. revert first len.
  induction fuel as [|fuel IH]; intros first len Hlen; [reflexivity|].
  destruct (Nat.eq_dec len 0%nat) as [->|Hpos]; [reflexivity|].
  rewrite upper_bound_loop_step by lia.
  assert (Hhalf : (Nat.div2 len < len)%nat) by (apply Nat.lt_div2; lia).
  generalize dependent (Nat.div2 len). intros half Hhalf.
  assert (Hm : val < nth (first + half) l 0) by (apply Hall; lia).
  apply Z.ltb_lt in Hm. rewrite Hm. apply IH. lia.
Qed.

End UpperBound.

Lemma splits_unique (l : list Z) (val : Z) (r1 r2 : nat) :
  splits l val r1 -> splits l val r2 -> r1 = r2.
Proof.
  intros (Hr1 & Hlo1 & Hhi1) (Hr2 & Hlo2 & Hhi2).
  destruct (Nat.lt_trichotomy r1 r2) as [Hlt | [Heq | Hgt]]; [| exact Heq |].
  - specialize (Hlo2 r1 Hlt). specialize (Hhi1 r1 ltac:(lia)). lia.
  - specialize (Hlo1 r2 Hgt). specialize (Hhi2 r2 ltac:(lia)). lia.
Qed.

(** ** Spans *)


Lemma halve_eq (x : Z) : 0 <= x < 2 ^ 32 - 1 -> ProofSet.halve x = (x + 1) / 2.
Proof.
  intros Hx. unfold ProofSet.halve, wrap32. rewrite Z.mod_small by lia. reflexivity.
Qed.

Lemma halve_bounds (x : Z) :
  0 < x < 2 ^ 32 - 1 -> 0 < ProofSet.halve x <= x /\ x - ProofSet.halve x <= ProofSet.halve x.
Proof.
  intros Hx. rewrite halve_eq by lia.
  pose proof (Z.div_mod (x + 1) 2 ltac:(lia)) as Hdm.
  pose proof (Z.mod_pos_bound (x + 1) 2 ltac:(lia)) as Hm.
  lia.
Qed.

Lemma spans_loop_pos (n : nat) (span : Z) :
  0 < span < 2 ^ 32 - 1 -> Forall (fun s => 0 < s <= span) (ProofSet.spans_loop n span).
Proof.
  revert span. induction n as [|n IH]; intros span Hs; simpl; constructor.
  - lia.
  - pose proof (halve_bounds span Hs) as Hh.
    eapply Forall_impl; [apply IH; lia |].
    simpl. intros s Hs'. lia.
Qed.

Lemma Zsum_nonneg (l : list Z) : Forall (fun s => 0 <= s) l -> 0 <= Zsum l.
Proof. induction 1; simpl; lia. Qed.

Lemma spans_loop_sum_nonneg (n : nat) (span : Z) :
  0 < span < 2 ^ 32 - 1 -> 0 <= Zsum (ProofSet.spans_loop n span).
Proof.
  intros Hs. apply Zsum_nonneg. eapply Forall_impl; [apply spans_loop_pos; exact Hs |].
  simpl. intros; lia.
Qed.

(** If the spans below [x] add up to at most [x], those below its first
    span add up to at most that span. *)
Lemma spans_fit_step (n : nat) (x : Z) :
  0 < x < 2 ^ 32 - 1 ->
  Zsum (ProofSet.spans_loop (S n) (ProofSet.halve x)) <= x ->
  Zsum (ProofSet.spans_loop n (ProofSet.halve (ProofSet.halve x))) <= ProofSet.halve x.
Proof.
  intros Hx. simpl. pose proof (halve_bounds x Hx). lia.
Qed.

Lemma subsums_bounds (ss : list Z) (y : Z) :
  Forall (fun s => 0 <= s) ss -> In y (subsums ss) -> 0 <= y <= Zsum ss.
Proof.
  intros Hss. revert y. induction Hss as [|s r Hs Hr IH]; intros y Hy; simpl in *.
  - destruct Hy as [<-|[]]. lia.
  - apply in_app_or in Hy. destruct Hy as [Hy | Hy].
    + specialize (IH y Hy). lia.
    + apply in_map_iff in Hy. destruct Hy as (y' & <- & Hy').
      specialize (IH y' Hy'). lia.
Qed.

(** ** isInPoints *)

(** The walk of [isInPoints] finds every non-empty sum of spans. *)
Lemma isInPoints_loop_subsum (n : nat) :
  forall x start y : Z,
    0 < x < 2 ^ 32 - 1 ->
    Zsum (ProofSet.spans_loop n (ProofSet.halve x)) <= x ->
    0 <= start ->
    start + Zsum (ProofSet.spans_loop n (ProofSet.halve x)) < 2 ^ 32 ->
    In y (subsums (ProofSet.spans_loop n (ProofSet.halve x))) ->
    0 < y ->
    ProofSet.isInPoints_loop n (ProofSet.halve x) start (start + y) = Ok true.
Proof.
  induction n as [|n IH]; intros x start y Hx Hfit Hstart Hroom Hy Hpos.
  - simpl in Hy. destruct Hy as [<-|[]]. lia.
  - pose proof (halve_bounds x Hx) as Hh.
    pose proof (spans_fit_step n x Hx Hfit) as Hfit'.
    assert (Hhx : 0 < ProofSet.halve x < 2 ^ 32 - 1) by lia.
    pose proof (spans_loop_sum_nonneg n (ProofSet.halve (ProofSet.halve x))
                  ltac:(pose proof (halve_bounds _ Hhx); lia)) as Hnn.
    assert (Hrest : Forall (fun s => 0 <= s)
                      (ProofSet.spans_loop n (ProofSet.halve (ProofSet.halve x)))).
    { eapply Forall_impl; [apply spans_loop_pos; pose proof (halve_bounds _ Hhx); lia |].
      simpl; intros; lia. }
    simpl in Hfit, Hroom, Hy. cbn [ProofSet.isInPoints_loop].
    set (s := ProofSet.halve x) in *.
    assert (Hw : wrap32 (start + s) = start + s)
      by (unfold wrap32; apply Z.mod_small; lia).
    rewrite Hw.
    replace (start <=? start + y) with true by (symmetry; apply Z.leb_le; lia).
    cbn [assert outcome_bind].
    apply in_app_or in Hy. destruct Hy as [Hy | Hy].
    + pose proof (subsums_bounds _ _ Hrest Hy) as Hby.
      destruct (Z.eq_dec y s) as [->|Hne].
      * rewrite Z.ltb_irrefl, Z.eqb_refl. reflexivity.
      * replace (start + s <? start + y) with false by (symmetry; apply Z.ltb_ge; lia).
        replace (start + y =? start + s) with false by (symmetry; apply Z.eqb_neq; lia).
        apply IH; auto; lia.
    + apply in_map_iff in Hy. destruct Hy as (y' & <- & Hy').
      pose proof (subsums_bounds _ _ Hrest Hy') as Hby.
      destruct (Z.eq_dec y' 0) as [->|Hne].
      * rewrite Z.add_0_r, Z.ltb_irrefl, Z.eqb_refl. reflexivity.
      * replace (start + s <? start + (s + y')) with true
          by (symmetry; apply Z.ltb_lt; lia).
        replace (start + (s + y')) with ((start + s) + y') by lia.
        apply IH; auto; lia.
Qed.

(** ** The points of the constructor *)

Lemma subsums_zero (ss : list Z) : In 0 (subsums ss).
Proof.
  induction ss as [|s r IH]; simpl; [left; reflexivity|].
  apply in_or_app. left. exact IH.
Qed.

Lemma points_loop_length (n : nat) :
  forall (span : Z) (pts : list Z),
    length (ProofSet.points_loop n span pts) = (2 ^ n * length pts)%nat.
Proof.
  induction n as [|n IH]; intros span pts; simpl.
  - lia.
  - rewrite IH, length_app, length_map. lia.
Qed.

Lemma points_loop_u32 (n : nat) :
  forall (span : Z) (pts : list Z),
    Forall is_u32 pts -> Forall is_u32 (ProofSet.points_loop n span pts).
Proof.
  induction n as [|n IH]; intros span pts Hpts; simpl; [exact Hpts|].
  apply IH. apply Forall_app. split; [exact Hpts|].
  apply Forall_forall. intros x Hx. apply list_elem_of_In, in_map_iff in Hx.
  destruct Hx as (b & <- & _). unfold is_u32, wrap32.
  apply Z.mod_pos_bound. lia.
Qed.

(** The loop keeps the points it starts from and appends sums of one of
    them with a non-empty sum of spans. *)
Lemma points_loop_spec (n : nat) :
  forall (span : Z) (pts : list Z),
    0 < span < 2 ^ 32 - 1 ->
    (forall b, In b pts -> 0 <= b /\ b + Zsum (ProofSet.spans_loop n span) < 2 ^ 32) ->
    exists extra,
      ProofSet.points_loop n span pts = pts ++ extra /\
      forall x, In x extra ->
        exists b y, In b pts /\ In y (subsums (ProofSet.spans_loop n span)) /\
                    0 < y /\ x = b + y.
Proof.
  induction n as [|n IH]; intros span pts Hspan Hpts.
  - exists []. simpl. split; [symmetry; apply app_nil_r | intros x []].
  - pose proof (halve_bounds span Hspan) as Hh.
    assert (Hhs : 0 < ProofSet.halve span < 2 ^ 32 - 1) by lia.
    pose proof (spans_loop_sum_nonneg n _ Hhs) as Hnn.
    simpl in Hpts. cbn [ProofSet.points_loop ProofSet.spans_loop].
    assert (Hmap : map (fun x => wrap32 (x + span)) pts = map (fun x => x + span) pts).
    { apply map_ext_in. intros b Hb. specialize (Hpts b Hb).
      unfold wrap32. apply Z.mod_small. lia. }
    rewrite Hmap.
    destruct (IH (ProofSet.halve span) (pts ++ map (fun x => x + span) pts) Hhs)
      as (extra & Heq & Hextra).
    { intros b Hb. apply in_app_or in Hb. destruct Hb as [Hb | Hb].
      - specialize (Hpts b Hb). lia.
      - apply in_map_iff in Hb. destruct Hb as (b' & <- & Hb').
        specialize (Hpts b' Hb'). lia. }
    exists (map (fun x => x + span) pts ++ extra). split.
    + rewrite Heq. symmetry. apply app_assoc.
    + intros x Hx. apply in_app_or in Hx. destruct Hx as [Hx | Hx].
      * apply in_map_iff in Hx. destruct Hx as (b & <- & Hb).
        exists b, span. repeat split; [exact Hb | | lia].
        simpl. apply in_or_app. right. apply in_map_iff.
        exists 0. split; [lia | apply subsums_zero].
      * destruct (Hextra x Hx) as (b & y & Hb & Hy & Hpos & ->).
        apply in_app_or in Hb. destruct Hb as [Hb | Hb].
        -- exists b, y. repeat split; [exact Hb | | exact Hpos].
           simpl. apply in_or_app. left. exact Hy.
        -- apply in_map_iff in Hb. destruct Hb as (b' & <- & Hb').
           exists b', (span + y). repeat split; [exact Hb' | | lia | lia].
           simpl. apply in_or_app. right. apply in_map_iff.
           exists y. split; [reflexivity | exact Hy].
Qed.

(** Before the sort the points are 0 followed by non-empty sums of spans. *)
Lemma raw_points_spec (E power : Z) :
  0 < E < 2 ^ 32 - 1 ->
  spans_fit E power ->
  exists extra,
    ProofSet.raw_points E power = 0 :: extra /\
    forall x, In x extra -> In x (subsums (ProofSet.spans E power)) /\ 0 < x.
Proof.
  intros HE Hfit. unfold spans_fit, ProofSet.spans in *. unfold ProofSet.raw_points.
  pose proof (halve_bounds E HE) as Hh.
  destruct (points_loop_spec (Z.to_nat power) (ProofSet.halve E) [0] ltac:(lia))
    as (extra & Heq & Hextra).
  { intros b [<-|[]]. lia. }
  exists extra. split; [exact Heq|].
  intros x Hx. destruct (Hextra x Hx) as (b & y & [<-|[]] & Hy & Hpos & ->).
  split; [exact Hy | lia].
Qed.

Lemma isInPoints_zero_loop (n : nat) :
  forall x : Z, 0 < x < 2 ^ 32 - 1 ->
    ProofSet.isInPoints_loop n (ProofSet.halve x) 0 0 = Ok false.
Proof.
  induction n as [|n IH]; intros x Hx; [reflexivity|].
  pose proof (halve_bounds x Hx) as Hh. cbn [ProofSet.isInPoints_loop].
  assert (Hw : wrap32 (0 + ProofSet.halve x) = ProofSet.halve x)
    by (unfold wrap32; rewrite Z.add_0_l; apply Z.mod_small; lia).
  rewrite Hw. change (0 <=? 0) with true. cbn [assert outcome_bind].
  replace (ProofSet.halve x <? 0) with false by (symmetry; apply Z.ltb_ge; lia).
  replace (0 =? ProofSet.halve x) with false by (symmetry; apply Z.eqb_neq; lia).
  apply IH. lia.
Qed.

Lemma isInPoints_zero (E power : Z) :
  0 < E < 2 ^ 32 - 1 -> ProofSet.isInPoints E power 0 = Ok false.
Proof.
  intros HE. unfold ProofSet.isInPoints.
  replace (0 =? E) with false by (symmetry; apply Z.eqb_neq; lia).
  apply isInPoints_zero_loop. exact HE.
Qed.

Lemma isInPoints_subsum (E power k : Z) :
  0 < E < 2 ^ 32 - 1 ->
  spans_fit E power ->
  In k (subsums (ProofSet.spans E power)) ->
  0 < k ->
  ProofSet.isInPoints E power k = Ok true.
Proof.
  intros HE Hfit Hk Hpos. unfold ProofSet.isInPoints.
  destruct (k =? E); [reflexivity|].
  unfold spans_fit, ProofSet.spans in *.
  apply (isInPoints_loop_subsum (Z.to_nat power) E 0 k); auto; lia.
Qed.

(** ** The constructor *)

Lemma io_bind_assert {A : Type} (b : bool) (what : string) (k : unit -> IO A) (w : World) :
  io_bind (lift (assert b what)) k w = if b then k tt w else (Crash what, w).
Proof. destruct b; reflexivity. Qed.


Lemma new_Ok_iff (E : Z) (kf : list string) (power : Z) (w w' : World) (ps : ProofSet.t) :
  ProofSet.new E kf power w = (Ok ps, w') <->
  negb (Z.land E 1 =? 0) = true /\
  0 < power <= 12 /\
  new_checks E power = true /\
  ps = ProofSet.mk E kf power (ProofSet.sorted_points E power ++ [u32_max]) 0 /\
  w' = with_proof_dir E w.
Proof.
  unfold ProofSet.new, new_checks. fold (ProofSet.sorted_points E power).
  rewrite io_bind_assert.
  destruct (negb (Z.land E 1 =? 0)); [| split; [discriminate | intros (? & _); discriminate]].
  destruct (Z.leb_spec power 0) as [Hp0 | Hp0]; cbn [orb].
  { split; [discriminate | intros (_ & ? & _); lia]. }
  destruct (Z.ltb_spec 12 power) as [Hp12 | Hp12].
  { split; [discriminate | intros (_ & ? & _); lia]. }
  unfold io_bind at 1. cbn [io_ret].
  unfold io_bind at 1. unfold create_directories at 1. fold (with_proof_dir E w).
  rewrite io_bind_assert.
  destruct (Z.of_nat (length (ProofSet.raw_points E power)) =? wrap32 (Z.shiftl 1 power));
    cbn [andb]; [| split; [discriminate | intros (_ & _ & ? & _); discriminate]].
  rewrite io_bind_assert.
  destruct (hd 1 (ProofSet.raw_points E power) =? 0);
    cbn [andb]; [| split; [discriminate | intros (_ & _ & ? & _); discriminate]].
  rewrite io_bind_assert.
  destruct (Z.of_nat (length (ProofSet.sorted_points E power)) =? wrap32 (Z.shiftl 1 power));
    cbn [andb]; [| split; [discriminate | intros (_ & _ & ? & _); discriminate]].
  rewrite io_bind_assert.
  destruct (List.last (ProofSet.sorted_points E power) (E + 1) =? E);
    cbn [andb]; [| split; [discriminate | intros (_ & _ & ? & _); discriminate]].
  unfold io_bind, lift, io_ret.
  destruct (ProofSet.check_points E power (ProofSet.sorted_points E power ++ [u32_max]))
    as [[]|msg|msg] eqn:Hchk.
  - split.
    + intros [= <- <-]. repeat split; auto; lia.
    + intros (_ & _ & _ & -> & ->). reflexivity.
  - split; [discriminate|]. intros (_ & _ & Hd & _). discriminate.
  - split; [discriminate|]. intros (_ & _ & Hd & _). discriminate.
Qed.

Lemma StronglySorted_ascending (l : list Z) : StronglySorted Z.le l -> ascending l.
Proof.
  induction 1 as [|x l Hl IH Hx]; intros i j Hij; simpl in Hij; [lia|].
  destruct j as [|j]; [replace i with 0%nat by lia; lia|].
  destruct i as [|i]; simpl.
  - rewrite Forall_forall in Hx. apply Hx. apply list_elem_of_In, nth_In. lia.
  - apply IH. lia.
Qed.

Lemma StronglySorted_last (l : list Z) (d x : Z) :
  StronglySorted Z.le l -> In x l -> x <= List.last l d.
Proof.
  intros Hs. revert x. induction Hs as [|y l Hl IH Hy]; intros x Hx; [destruct Hx|].
  destruct l as [|z l'].
  - destruct Hx as [<-|[]]. simpl. lia.
  - change (List.last (y :: z :: l') d) with (List.last (z :: l') d).
    destruct Hx as [<-|Hx]; [|apply IH; exact Hx].
    rewrite Forall_forall in Hy.
    assert (y <= z) by (apply Hy; left).
    assert (z <= List.last (z :: l') d) by (apply IH; left; reflexivity).
    lia.
Qed.

Lemma last_In (l : list Z) (d : Z) : l <> [] -> In (List.last l d) l.
Proof.
  induction l as [|x l IH]; intros Hne; [congruence|].
  destruct l as [|y l']; [left; reflexivity|].
  right. apply IH. discriminate.
Qed.

Lemma sort_sorted (l : list Z) : StronglySorted Z.le (ProofSet.sort l).
Proof. unfold ProofSet.sort. apply StronglySorted_merge_sort; apply _. Qed.

Lemma sort_In (l : list Z) (x : Z) : In x (ProofSet.sort l) <-> In x l.
Proof.
  unfold ProofSet.sort. rewrite <- !list_elem_of_In.
  split; intros Hx.
  - rewrite <- (merge_sort_Permutation Z.le l). exact Hx.
  - rewrite (merge_sort_Permutation Z.le l). exact Hx.
Qed.

Lemma sort_length (l : list Z) : length (ProofSet.sort l) = length l.
Proof. unfold ProofSet.sort. apply Permutation_length, merge_sort_Permutation. Qed.

Lemma check_points_Ok (E power : Z) (l : list Z) :
  ProofSet.check_points E power l = Ok tt <->
  forall p, In p l -> E < p \/ ProofSet.isInPoints E power p = Ok true.
Proof.
  induction l as [|p l IH]; simpl.
  - split; [intros _ q [] | reflexivity].
  - destruct (Z.ltb_spec E p) as [Hlt | Hge]; cbn [outcome_bind assert].
    + rewrite IH. split.
      * intros H q [<-|Hq]; [left; exact Hlt | apply H; exact Hq].
      * intros H q Hq. apply H. right. exact Hq.
    + destruct (ProofSet.isInPoints E power p) as [[|]|msg|msg] eqn:Hin;
        cbn [outcome_bind assert].
      * rewrite IH. split.
        -- intros H q [<-|Hq]; [right; exact Hin | apply H; exact Hq].
        -- intros H q Hq. apply H. right. exact Hq.
      * split; [discriminate|]. intros H.
        destruct (H p (or_introl eq_refl)) as [?|Hc]; [lia | congruence].
      * split; [discriminate|]. intros H.
        destruct (H p (or_introl eq_refl)) as [?|Hc]; [lia | congruence].
      * split; [discriminate|]. intros H.
        destruct (H p (or_introl eq_refl)) as [?|Hc]; [lia | congruence].
Qed.

Lemma shiftl_1_small (power : Z) : 0 <= power <= 12 -> wrap32 (Z.shiftl 1 power) = 2 ^ power.
Proof.
  intros Hp. rewrite Z.shiftl_1_l. unfold wrap32. apply Z.mod_small.
  split; [apply Z.pow_nonneg; lia|].
  apply Z.pow_lt_mono_r; lia.
Qed.

Lemma raw_points_length (E power : Z) :
  0 <= power -> Z.of_nat (length (ProofSet.raw_points E power)) = 2 ^ power.
Proof.
  intros Hp. unfold ProofSet.raw_points. rewrite points_loop_length. simpl length.
  rewrite Nat.mul_1_r, Nat2Z.inj_pow, Z2Nat.id by lia. reflexivity.
Qed.

Lemma sorted_points_length (E power : Z) :
  0 <= power -> Z.of_nat (length (ProofSet.sorted_points E power)) = 2 ^ power.
Proof.
  intros Hp. unfold ProofSet.sorted_points.
  rewrite sort_length, length_insert. apply raw_points_length. exact Hp.
Qed.

Lemma sorted_points_u32 (E power : Z) :
  is_u32 E -> Forall is_u32 (ProofSet.sorted_points E power).
Proof.
  intros HE. apply Forall_forall. intros x Hx. unfold ProofSet.sorted_points in Hx.
  apply (proj1 (list_elem_of_In _ _)) in Hx. apply (proj1 (sort_In _ _)) in Hx.
  apply (proj2 (list_elem_of_In _ _)) in Hx.
  assert (Hraw : Forall is_u32 (ProofSet.raw_points E power)).
  { apply points_loop_u32. repeat constructor; unfold is_u32; lia. }
  pose proof (Forall_insert _ _ 0%nat E Hraw HE) as Hins.
  rewrite Forall_forall in Hins. apply Hins. exact Hx.
Qed.

(** The constructor's assertions hold as soon as the spans fit below [E]. *)
Lemma new_checks_fit (E power : Z) :
  0 < E < 2 ^ 32 - 1 -> 0 < power <= 12 -> spans_fit E power ->
  new_checks E power = true.
Proof.
  intros HE Hp Hfit. unfold new_checks.
  destruct (raw_points_spec E power HE Hfit) as (extra & Hraw & Hextra).
  assert (Hsorted : ProofSet.sorted_points E power = ProofSet.sort (E :: extra)).
  { unfold ProofSet.sorted_points. rewrite Hraw. reflexivity. }
  assert (Hspans : Forall (fun s => 0 <= s) (ProofSet.spans E power)).
  { unfold ProofSet.spans.
    eapply Forall_impl; [apply spans_loop_pos; pose proof (halve_bounds E HE); lia |].
    simpl. intros; lia. }
  rewrite raw_points_length, sorted_points_length, shiftl_1_small by lia.
  rewrite Z.eqb_refl. rewrite Hraw at 1. cbn [hd]. rewrite Z.eqb_refl. cbn [andb].
  assert (Hlast : List.last (ProofSet.sorted_points E power) (E + 1) = E).
  { apply Z.le_antisymm.
    - assert (Hin : In (List.last (ProofSet.sorted_points E power) (E + 1))
                       (ProofSet.sorted_points E power)).
      { apply last_In. rewrite Hsorted. intros Hnil.
        apply (f_equal (@length Z)) in Hnil. rewrite sort_length in Hnil. discriminate. }
      rewrite Hsorted in Hin at 2. apply (proj1 (sort_In _ _)) in Hin. destruct Hin as [<-|Hin]; [lia|].
      destruct (Hextra _ Hin) as (Hsub & _).
      pose proof (subsums_bounds _ _ Hspans Hsub). unfold spans_fit in Hfit. lia.
    - apply StronglySorted_last; [rewrite Hsorted; apply sort_sorted|].
      rewrite Hsorted. apply sort_In. left. reflexivity. }
  rewrite Hlast, Z.eqb_refl. cbn [andb].
  replace (ProofSet.check_points E power (ProofSet.sorted_points E power ++ [u32_max]))
    with (Ok tt : outcome unit); [reflexivity|].
  symmetry. apply check_points_Ok. intros p Hp'.
  apply in_app_or in Hp'. destruct Hp' as [Hp' | [<-|[]]].
  - right. rewrite Hsorted in Hp'. apply (proj1 (sort_In _ _)) in Hp'.
    destruct Hp' as [<-|Hp'].
    + unfold ProofSet.isInPoints. rewrite Z.eqb_refl. reflexivity.
    + destruct (Hextra _ Hp') as (Hsub & Hpos).
      apply isInPoints_subsum; auto.
  - left. unfold u32_max. lia.
Qed.

(** What holds of the points once the constructor has run through its
    assertions. *)
Lemma new_checks_sorted (E power : Z) :
  0 <= E < 2 ^ 32 -> 0 < power <= 12 -> new_checks E power = true ->
  StronglySorted Z.le (ProofSet.sorted_points E power ++ [u32_max]) /\
  (forall p, In p (ProofSet.sorted_points E power) ->
     0 <= p <= E /\ ProofSet.isInPoints E power p = Ok true) /\
  In E (ProofSet.sorted_points E power) /\
  List.last (ProofSet.sorted_points E power) (E + 1) = E /\
  Z.of_nat (length (ProofSet.sorted_points E power)) = 2 ^ power.
Proof.
  intros HE Hp Hchk. unfold new_checks in Hchk.
  repeat (apply andb_true_iff in Hchk; destruct Hchk as [Hchk ?]).
  match goal with
  | H : (List.last _ _ =? _) = true |- _ => apply Z.eqb_eq in H; rename H into Hlast
  end.
  match goal with H : succeeded _ = true |- _ => rename H into Hpts end.
  assert (Hne : ProofSet.sorted_points E power <> []).
  { intros Hnil. pose proof (sorted_points_length E power ltac:(lia)) as Hlen.
    rewrite Hnil in Hlen. simpl in Hlen.
    pose proof (Z.pow_pos_nonneg 2 power ltac:(lia) ltac:(lia)). lia. }
  assert (Hle : forall p, In p (ProofSet.sorted_points E power) -> p <= E).
  { intros p Hin. rewrite <- Hlast. apply StronglySorted_last; [|exact Hin].
    unfold ProofSet.sorted_points. apply sort_sorted. }
  assert (Hcheck : ProofSet.check_points E power
                     (ProofSet.sorted_points E power ++ [u32_max]) = Ok tt).
  { destruct (ProofSet.check_points _ _ _) as [[]|?|?]; [reflexivity | discriminate..]. }
  rewrite check_points_Ok in Hcheck.
  split; [|split; [|split; [|split]]].
  - apply StronglySorted_app_2.
    + intros x1 x2 Hx1 Hx2.
      apply (proj1 (list_elem_of_In _ _)) in Hx1.
      apply (proj1 (list_elem_of_In _ _)) in Hx2.
      destruct Hx2 as [<-|[]]. specialize (Hle _ Hx1). unfold u32_max. lia.
    + unfold ProofSet.sorted_points. apply sort_sorted.
    + repeat constructor.
  - intros p Hin. specialize (Hle _ Hin).
    pose proof (sorted_points_u32 E power ltac:(unfold is_u32; lia)) as Hu.
    rewrite Forall_forall in Hu. specialize (Hu p (proj2 (list_elem_of_In _ _) Hin)).
    destruct (Hcheck p ltac:(apply in_or_app; left; exact Hin)) as [Hgt|Hc]; [lia|].
    split; [unfold is_u32 in Hu; lia | exact Hc].
  - rewrite <- Hlast at 1. apply last_In. exact Hne.
  - exact Hlast.
  - apply sorted_points_length. lia.
Qed.

(** Every proof point is positive, unless [E + 1] wraps to 0. *)
Lemma new_checks_positive (E power : Z) :
  0 < E < 2 ^ 32 - 1 -> 0 < power <= 12 -> new_checks E power = true ->
  forall p, In p (ProofSet.sorted_points E power) -> 0 < p <= E.
Proof.
  intros HE Hp Hchk p Hin.
  destruct (new_checks_sorted E power ltac:(lia) Hp Hchk) as (_ & Hpts & _).
  destruct (Hpts p Hin) as (Hrange & Hc).
  destruct (Z.eq_dec p 0) as [->|Hnz]; [|lia].
  rewrite isInPoints_zero in Hc by exact HE. discriminate.
Qed.

(** ** next *)


Lemma deref_nth (l : list Z) (i : nat) :
  (i < length l)%nat -> ProofSet.deref l i = Ok (nth i l 0).
Proof.
  intros Hi. unfold ProofSet.deref.
  destruct (lookup_lt_is_Some_2 l i Hi) as (x & Hx). rewrite Hx.
  f_equal. symmetry. apply nth_lookup_Some with (d := 0) in Hx. exact Hx.
Qed.

Lemma deref_Ok (l : list Z) (i : nat) (x : Z) :
  ProofSet.deref l i = Ok x -> (i < length l)%nat /\ x = nth i l 0.
Proof.
  unfold ProofSet.deref. destruct (l !! i) as [y|] eqn:Hy; [|discriminate].
  intros [= <-]. split; [eapply lookup_lt_Some; exact Hy|].
  symmetry. apply nth_lookup_Some with (d := 0) in Hy. exact Hy.
Qed.

Lemma upper_bound_in_range (l : list Z) (k : Z) :
  StronglySorted Z.le l -> In u32_max l -> k < u32_max ->
  (ProofSet.upper_bound l k < length l)%nat.
Proof.
  intros Hs Hmax Hk.
  destruct (upper_bound_splits l k (StronglySorted_ascending l Hs)) as (Hle & Hlo & _).
  destruct (In_nth l u32_max 0 Hmax) as (j & Hj & Hnth).
  destruct (Nat.lt_ge_cases (ProofSet.upper_bound l k) (length l)) as [?|Hge]; [assumption|].
  specialize (Hlo j ltac:(lia)). lia.
Qed.

(** Fast path or not, [next] leaves the iterator where the binary search
    would put it and returns the element there. *)
Lemma next_upper_bound (ps : ProofSet.t) (k : Z) :
  cache_ok ps -> k < u32_max ->
  let it := ProofSet.upper_bound (ProofSet.points ps) k in
  ProofSet.next ps k =
  Ok (nth it (ProofSet.points ps) 0,
      ProofSet.mk (ProofSet.E ps) (ProofSet.knownFactors ps) (ProofSet.power ps)
                  (ProofSet.points ps) it).
Proof.
  intros (Hs & Hmax & Hc) Hk it. unfold ProofSet.next.
  set (pts := ProofSet.points ps) in *.
  pose proof (StronglySorted_ascending pts Hs) as Hasc.
  pose proof (upper_bound_splits pts k Hasc) as Hsplit. fold it in Hsplit.
  pose proof (upper_bound_in_range pts k Hs Hmax Hk) as Hit. fold it in Hit.
  rewrite (deref_nth pts _ Hc). cbn [outcome_bind].
  assert (Hdone : forall stale : bool,
             (stale = false -> ProofSet.cacheIt ps = it) ->
             ((r <- ProofSet.deref pts (if stale then it else ProofSet.cacheIt ps) ;;
               Ok (r, ProofSet.mk (ProofSet.E ps) (ProofSet.knownFactors ps)
                        (ProofSet.power ps) pts
                        (if stale then it else ProofSet.cacheIt ps)))%outcome)
             = Ok (nth it pts 0,
                   ProofSet.mk (ProofSet.E ps) (ProofSet.knownFactors ps)
                     (ProofSet.power ps) pts it)).
  { intros [|] Hst; [| rewrite (Hst eq_refl)];
      rewrite (deref_nth pts it Hit); reflexivity. }
  destruct (Z.leb_spec (nth (ProofSet.cacheIt ps) pts 0) k) as [Hcur | Hcur].
  - cbn [outcome_bind]. apply (Hdone true). discriminate.
  - destruct (ProofSet.cacheIt ps) as [|i] eqn:Hci.
    + cbn [outcome_bind]. apply (Hdone false). intros _.
      apply (splits_unique pts k); [|exact Hsplit].
      repeat split; [lia | intros j Hj; lia |].
      intros j Hj. assert (nth 0 pts 0 <= nth j pts 0) by (apply Hasc; lia). lia.
    + rewrite (deref_nth pts i ltac:(lia)). cbn [outcome_bind].
      destruct (Z.ltb_spec k (nth i pts 0)) as [Hprev | Hprev].
      * apply (Hdone true). discriminate.
      * apply (Hdone false). intros _.
        apply (splits_unique pts k); [|exact Hsplit].
        repeat split; [lia | |].
        -- intros j Hj. assert (nth j pts 0 <= nth i pts 0) by (apply Hasc; lia). lia.
        -- intros j Hj. assert (nth (S i) pts 0 <= nth j pts 0) by (apply Hasc; lia). lia.
Qed.

Lemma nth_upper_bound_least (l : list Z) (k : Z) :
  StronglySorted Z.le l -> In u32_max l -> k < u32_max ->
  least_above l k (nth (ProofSet.upper_bound l k) l 0).
Proof.
  intros Hs Hmax Hk.
  pose proof (StronglySorted_ascending l Hs) as Hasc.
  pose proof (upper_bound_in_range l k Hs Hmax Hk) as Hit.
  destruct (upper_bound_splits l k Hasc) as (_ & Hlo & Hhi).
  repeat split.
  - apply nth_In. exact Hit.
  - apply Hhi. lia.
  - intros x Hx Hgt. destruct (In_nth l x 0 Hx) as (j & Hj & <-).
    destruct (Nat.lt_ge_cases j (ProofSet.upper_bound l k)) as [Hlt | Hge].
    + specialize (Hlo j Hlt). lia.
    + apply Hasc. lia.
Qed.

Lemma next_keeps_cache_ok (ps ps' : ProofSet.t) (k r : Z) :
  cache_ok ps -> ProofSet.next ps k = Ok (r, ps') ->
  cache_ok ps' /\ ProofSet.points ps' = ProofSet.points ps.
Proof.
  intros (Hs & Hmax & Hc) Hnext. unfold ProofSet.next in Hnext.
  destruct (ProofSet.deref (ProofSet.points ps) (ProofSet.cacheIt ps)) as [cur|?|?];
    [|discriminate..].
  cbn [outcome_bind] in Hnext.
  destruct (if cur <=? k then Ok true
            else match ProofSet.cacheIt ps with
                 | 0%nat => Ok false
                 | S i => (prev <- ProofSet.deref (ProofSet.points ps) i ;;
                           Ok (k <? prev))%outcome
                 end) as [stale|?|?]; [|discriminate..].
  cbn [outcome_bind] in Hnext.
  destruct (ProofSet.deref (ProofSet.points ps) _) as [x|?|?] eqn:Hd; [|discriminate..].
  cbn [outcome_bind] in Hnext. injection Hnext as <- <-.
  apply deref_Ok in Hd. destruct Hd as (Hlt & _).
  repeat split; assumption.
Qed.

Lemma after_calls_cache_ok (ks : list Z) :
  forall ps ps' : ProofSet.t,
    cache_ok ps -> after_calls ps ks = Ok ps' ->
    cache_ok ps' /\ ProofSet.points ps' = ProofSet.points ps.
Proof.
  induction ks as [|k ks IH]; intros ps ps' Hok Hrun; simpl in Hrun.
  - injection Hrun as <-. split; [exact Hok | reflexivity].
  - destruct (ProofSet.next ps k) as [[r ps1]|?|?] eqn:Hnext; [|discriminate..].
    cbn [outcome_bind snd] in Hrun.
    destruct (next_keeps_cache_ok ps ps1 k r Hok Hnext) as (Hok1 & Hpts1).
    destruct (IH ps1 ps' Hok1 Hrun) as (Hok' & Hpts').
    split; [exact Hok' | congruence].
Qed.

Lemma new_cache_ok (E : Z) (kf : list string) (power : Z) (w w' : World) (ps : ProofSet.t) :
  0 <= E < 2 ^ 32 ->
  ProofSet.new E kf power w = (Ok ps, w') ->
  cache_ok ps /\
  ProofSet.points ps = ProofSet.sorted_points E power ++ [u32_max] /\
  ProofSet.E ps = E /\ ProofSet.power ps = power /\ ProofSet.knownFactors ps = kf /\
  0 < power <= 12 /\ new_checks E power = true.
Proof.
  intros HE Hnew. apply new_Ok_iff in Hnew.
  destruct Hnew as (_ & Hp & Hchk & -> & _).
  destruct (new_checks_sorted E power HE Hp Hchk) as (Hs & _ & _ & _ & Hlen).
  unfold cache_ok.
  cbn [ProofSet.points ProofSet.E ProofSet.power ProofSet.knownFactors ProofSet.cacheIt].
  repeat split; try assumption; try reflexivity; try lia.
  - apply in_or_app. right. left. reflexivity.
  - rewrite length_app. simpl. lia.
Qed.

(** A history of queries below the guard never fails. *)
Lemma after_calls_total (ks : list Z) :
  forall ps : ProofSet.t,
    cache_ok ps -> Forall (fun k => k < u32_max) ks ->
    exists ps', after_calls ps ks = Ok ps'.
Proof.
  induction ks as [|k ks IH]; intros ps Hok Hks; simpl.
  - exists ps. reflexivity.
  - apply Forall_cons in Hks. destruct Hks as (Hk & Hks).
    pose proof (next_upper_bound ps k Hok Hk) as Hnext. cbv zeta in Hnext.
    rewrite Hnext. cbn [outcome_bind snd].
    apply IH; [|exact Hks].
    eapply next_keeps_cache_ok; [exact Hok | exact Hnext].
Qed.

(** C8.  Whatever calls of [next] came before, [next(k)] for [0 <= k < E]
    returns the smallest element of [points] greater than [k], which is the
    element the plain binary search [upper_bound] selects. *)
Theorem next_returns_smallest_greater_point
    (E : Z) (kf : list string) (power : Z) (w w' : World) (ps ps' : ProofSet.t)
    (history : list Z) (k : Z) :
  0 <= E < 2 ^ 32 ->
  ProofSet.new E kf power w = (Ok ps, w') ->
  after_calls ps history = Ok ps' ->
  0 <= k < E ->
  exists (r : Z) (ps'' : ProofSet.t),
    ProofSet.next ps' k = Ok (r, ps'') /\
    least_above (ProofSet.points ps) k r /\
    r <= E /\
    r = nth (ProofSet.upper_bound (ProofSet.points ps) k) (ProofSet.points ps) 0.
Proof.
  intros HE Hnew Hhist Hk.
  destruct (new_cache_ok E kf power w w' ps HE Hnew)
    as (Hok & Hpts & _ & _ & _ & Hp & Hchk).
  destruct (after_calls_cache_ok history ps ps' Hok Hhist) as (Hok' & Hsame).
  assert (Hku : k < u32_max) by (unfold u32_max; lia).
  pose proof (next_upper_bound ps' k Hok' Hku) as Hnext. cbv zeta in Hnext.
  rewrite Hsame in Hnext.
  destruct Hok as (Hs & Hmax & _).
  pose proof (nth_upper_bound_least (ProofSet.points ps) k Hs Hmax Hku) as Hleast.
  eexists _, _. split; [exact Hnext|]. split; [exact Hleast|]. split; [|reflexivity].
  destruct Hleast as (_ & _ & Hmin). apply Hmin; [|lia].
  rewrite Hpts. apply in_or_app. left.
  destruct (new_checks_sorted E power HE Hp Hchk) as (_ & _ & HinE & _). exact HinE.
Qed.

Lemma next_witness :
  exists (r : Z) (ps'' : ProofSet.t),
    ProofSet.next
      (ProofSet.mk 521 [] 4 (ProofSet.sorted_points 521 4 ++ [u32_max]) 15) 294
    = Ok (r, ps'') /\
    least_above (ProofSet.sorted_points 521 4 ++ [u32_max]) 294 r /\
    r <= 521 /\
    r = nth (ProofSet.upper_bound (ProofSet.sorted_points 521 4 ++ [u32_max]) 294)
            (ProofSet.sorted_points 521 4 ++ [u32_max]) 0.
Proof.
  apply (next_returns_smallest_greater_point 521 [] 4 empty_world
           (with_proof_dir 521 empty_world)
           (ProofSet.mk 521 [] 4 (ProofSet.sorted_points 521 4 ++ [u32_max]) 0)
           (ProofSet.mk 521 [] 4 (ProofSet.sorted_points 521 4 ++ [u32_max]) 15)
           [0; 100; 50; 520]).
  - lia.
  - vm_compute. reflexivity.
  - vm_compute. reflexivity.
  - lia.
Defined.

(** ** Bytes and words *)

Lemma Z_of_byte_range (c : ascii) : 0 <= Z_of_byte c < 256.
Proof.
  unfold Z_of_byte. pose proof (N_ascii_bounded c). lia.
Qed.

Lemma Z_of_byte_of_Z (v : Z) : Z_of_byte (byte_of_Z v) = v mod 256.
Proof.
  unfold Z_of_byte, byte_of_Z.
  pose proof (Z.mod_pos_bound v 256 ltac:(lia)).
  rewrite N_ascii_embedding by lia. lia.
Qed.

Lemma byte_of_Z_of_byte (c : ascii) : byte_of_Z (Z_of_byte c) = c.
Proof.
  unfold byte_of_Z. rewrite Z.mod_small by apply Z_of_byte_range.
  unfold Z_of_byte. rewrite N2Z.id. apply ascii_N_embedding.
Qed.

Lemma le_bytes_length (n : nat) (v : Z) : length (le_bytes n v) = n.
Proof. revert v. induction n as [|n IH]; intros v; simpl; [|rewrite IH]; reflexivity. Qed.

Lemma le_value_le_bytes (n : nat) (v : Z) :
  le_value (le_bytes n v) = v mod 256 ^ Z.of_nat n.
Proof.
  revert v. induction n as [|n IH]; intros v.
  - simpl. rewrite Z.mod_1_r. reflexivity.
  - cbn [le_bytes le_value]. rewrite IH, Z_of_byte_of_Z.
    rewrite Nat2Z.inj_succ, Z.pow_succ_r by lia.
    rewrite Z.rem_mul_r by (try apply Z.pow_nonzero; lia). reflexivity.
Qed.

Lemma le_value_range (bs : list ascii) : 0 <= le_value bs < 256 ^ Z.of_nat (length bs).
Proof.
  induction bs as [|b bs IH].
  - simpl. lia.
  - cbn [le_value length]. rewrite Nat2Z.inj_succ, Z.pow_succ_r by lia.
    pose proof (Z_of_byte_range b). lia.
Qed.

Lemma le_bytes_le_value (bs : list ascii) : le_bytes (length bs) (le_value bs) = bs.
Proof.
  induction bs as [|b bs IH]; [reflexivity|].
  cbn [length le_bytes le_value].
  pose proof (Z_of_byte_range b) as Hb.
  f_equal.
  - unfold byte_of_Z. replace ((Z_of_byte b + 256 * le_value bs) mod 256) with (Z_of_byte b).
    + unfold Z_of_byte. rewrite N2Z.id. apply ascii_N_embedding.
    + replace (Z_of_byte b + 256 * le_value bs)
        with (Z_of_byte b + le_value bs * 256) by lia.
      rewrite Z.mod_add by lia. symmetry. apply Z.mod_small. exact Hb.
  - replace ((Z_of_byte b + 256 * le_value bs) / 256) with (le_value bs); [exact IH|].
    replace (Z_of_byte b + 256 * le_value bs)
      with (Z_of_byte b + le_value bs * 256) by lia.
    rewrite Z.div_add by lia.
    rewrite (Z.div_small (Z_of_byte b)) by exact Hb. lia.
Qed.

Lemma Words_data_cons (x : Z) (w : Words) :
  Words_data (x :: w) = le_bytes 4 x ++ Words_data w.
Proof. reflexivity. Qed.

Lemma Words_data_length (w : Words) : length (Words_data w) = (4 * length w)%nat.
Proof.
  induction w as [|x w IH]; [reflexivity|].
  rewrite Words_data_cons, length_app, IH, le_bytes_length. simpl. lia.
Qed.

Lemma group_values_Words_data (w : Words) :
  forall fuel : nat, (length w <= fuel)%nat -> Forall is_u32 w ->
    group_values fuel 4 (Words_data w) = w.
Proof.
  induction w as [|x w IH]; intros fuel Hfuel Hw.
  - destruct fuel; reflexivity.
  - destruct fuel as [|fuel]; [simpl in Hfuel; lia|].
    apply Forall_cons in Hw. destruct Hw as (Hx & Hw).
    rewrite Words_data_cons. cbn [group_values].
    change (le_bytes 4 x ++ Words_data w)
      with (byte_of_Z x :: (le_bytes 3 (x / 256) ++ Words_data w)).
    cbv iota.
    change (byte_of_Z x :: (le_bytes 3 (x / 256) ++ Words_data w))
      with (le_bytes 4 x ++ Words_data w).
    rewrite take_app_length' by (symmetry; apply le_bytes_length).
    rewrite drop_app_length' by (symmetry; apply le_bytes_length).
    rewrite le_value_le_bytes. change (256 ^ Z.of_nat 4) with (2 ^ 32).
    rewrite Z.mod_small by exact Hx.
    f_equal. apply IH; [simpl in Hfuel; lia | exact Hw].
Qed.

Lemma words_of_bytes_Words_data (w : Words) :
  Forall is_u32 w -> words_of_bytes (Words_data w) = w.
Proof.
  intros Hw. unfold words_of_bytes. apply group_values_Words_data; [|exact Hw].
  rewrite Words_data_length. lia.
Qed.

(** ** CRC-32 stays within 32 bits *)

Lemma lxor_u32 (a b : Z) : is_u32 a -> is_u32 b -> is_u32 (Z.lxor a b).
Proof.
  unfold is_u32. intros Ha Hb.
  assert (Hnn : 0 <= Z.lxor a b) by (apply Z.lxor_nonneg; lia).
  split; [exact Hnn|].
  destruct (Z.eq_dec (Z.lxor a b) 0) as [->|Hne]; [lia|].
  apply Z.log2_lt_pow2; [lia|].
  pose proof (Z.log2_lxor a b ltac:(lia) ltac:(lia)) as Hlog.
  assert (Hla : Z.log2 a < 32).
  { destruct (Z.eq_dec a 0) as [->|]; [simpl; lia|]. apply Z.log2_lt_pow2; lia. }
  assert (Hlb : Z.log2 b < 32).
  { destruct (Z.eq_dec b 0) as [->|]; [simpl; lia|]. apply Z.log2_lt_pow2; lia. }
  lia.
Qed.

Lemma crc32_step_u32 (crc : Z) : is_u32 crc -> is_u32 (crc32_step crc).
Proof.
  intros Hc. unfold crc32_step. apply lxor_u32.
  - unfold is_u32 in *. rewrite Z.shiftr_div_pow2 by lia. change (2 ^ 1) with 2.
    pose proof (Z.div_pos crc 2 ltac:(lia) ltac:(lia)).
    assert (crc / 2 <= crc) by (apply Z.div_le_upper_bound; lia). lia.
  - destruct (Z.testbit crc 0); unfold is_u32; lia.
Qed.

Lemma crc32_byte_u32 (crc : Z) (b : ascii) : is_u32 crc -> is_u32 (crc32_byte crc b).
Proof.
  intros Hc. unfold crc32_byte.
  assert (H0 : is_u32 (Z.lxor crc (Z_of_byte b))).
  { apply lxor_u32; [exact Hc|]. pose proof (Z_of_byte_range b). unfold is_u32. lia. }
  generalize dependent (Z.lxor crc (Z_of_byte b)). intros c Hcu.
  simpl. repeat apply crc32_step_u32. exact Hcu.
Qed.

Lemma crc32_u32 (bs : list ascii) : is_u32 (crc32 bs).
Proof.
  unfold crc32. apply lxor_u32; [|unfold is_u32, u32_max; lia].
  assert (H0 : is_u32 u32_max) by (unfold is_u32, u32_max; lia).
  generalize dependent u32_max. induction bs as [|b bs IH]; intros c Hc; simpl.
  - exact Hc.
  - apply IH. apply crc32_byte_u32. exact Hc.
Qed.

(** ** The file layer *)

Lemma files_touch (e : io_event) (w : World) : files (touch e w) = files w.
Proof. reflexivity. Qed.

Lemma read_app (p : string) (a b : list ascii) (n : Z) :
  n = Z.of_nat (length a) ->
  File.read n (File.mk p (a ++ b)) = Ok (a, File.mk p b).
Proof.
  intros ->. unfold File.read. cbn [File.unread File.path].
  rewrite length_app, Nat2Z.id.
  replace (Z.of_nat (length a) <=? Z.of_nat (length a + length b)) with true
    by (symmetry; apply Z.leb_le; lia).
  rewrite take_app_length, drop_app_length. reflexivity.
Qed.

Lemma read_Ok (n : Z) (f : File.t) (bs : list ascii) (f' : File.t) :
  0 <= n ->
  File.read n f = Ok (bs, f') ->
  File.unread f = bs ++ File.unread f' /\ Z.of_nat (length bs) = n /\
  File.path f' = File.path f.
Proof.
  intros Hn. unfold File.read.
  destruct (Z.leb_spec n (Z.of_nat (length (File.unread f)))) as [Hle|]; [|discriminate].
  intros [= <- <-]. cbn [File.unread File.path].
  rewrite take_drop, length_take. repeat split. lia.
Qed.

(** Reading back what [writeChecked] wrote. *)
Lemma readChecked_written (p : string) (R : Words) (rest : list ascii) (n : Z) :
  Forall is_u32 R -> n = Z.of_nat (length R) ->
  File.readChecked n
    (File.mk p (Words_data R ++ le_bytes 4 (crc32 (Words_data R)) ++ rest))
  = Ok (R, File.mk p rest).
Proof.
  intros HR ->. unfold File.readChecked.
  rewrite read_app by (rewrite Words_data_length; lia).
  cbn [outcome_bind fst snd].
  rewrite read_app by (rewrite le_bytes_length; reflexivity).
  cbn [outcome_bind fst snd].
  rewrite le_value_le_bytes. change (256 ^ Z.of_nat 4) with (2 ^ 32).
  rewrite Z.mod_small by apply crc32_u32.
  rewrite Z.eqb_refl, words_of_bytes_Words_data by exact HR. reflexivity.
Qed.

Lemma group_values_length (k : nat) (bs : list ascii) :
  forall fuel : nat, (length (group_values fuel k bs) <= fuel)%nat.
Proof.
  intros fuel. revert bs. induction fuel as [|fuel IH]; intros bs; simpl; [lia|].
  destruct bs; simpl; [lia|]. specialize (IH (drop k (a :: bs))). lia.
Qed.

(** The number of words in a run of whole words. *)
Lemma words_of_bytes_length (bs : list ascii) (n : nat) :
  length bs = (4 * n)%nat -> length (words_of_bytes bs) = n.
Proof.
  unfold words_of_bytes. intros Hlen.
  assert (Hgen : forall fuel m (l : list ascii),
             length l = (4 * m)%nat -> (m <= fuel)%nat ->
             length (group_values fuel 4 l) = m).
  { induction fuel as [|fuel IH]; intros m l Hl Hm.
    - assert (m = 0%nat) by lia. subst. reflexivity.
    - destruct l as [|a l]; [simpl in Hl; simpl; lia|].
      cbn [group_values length].
      destruct m as [|m]; [simpl in Hl; lia|].
      f_equal. apply IH; [|lia].
      rewrite length_drop. cbn [length] in *. lia. }
  apply Hgen; [exact Hlen | lia].
Qed.

(** ** load, save and fileExists *)

Lemma fileExists_spec (ps : ProofSet.t) (k : Z) (w : World) :
  ProofSet.fileExists ps k w =
  (Ok (present (files w) (ProofSet.E ps) k),
   touch (IoSize (ProofSet.pointPath (ProofSet.E ps) k)) w).
Proof. reflexivity. Qed.

(** [load] reads through its assertions for a proof point; it then returns
    the stored words or throws, and only reads. *)
Lemma load_static_spec (E power k : Z) (w : World) :
  0 < k <= E -> ProofSet.isInPoints E power k = Ok true ->
  exists r : outcome Words,
    ProofSet.load_static E power k w = (r, touch (IoOpenRead (ProofSet.pointPath E k)) w) /\
    match stored_words (files w) E k with
    | Some ws => r = Ok ws
    | None => exists msg, r = Throw msg
    end.
Proof.
  intros Hk Hin. unfold ProofSet.load_static.
  rewrite io_bind_assert.
  replace (negb (k =? 0) && (k <=? E)) with true.
  2:{ symmetry. apply andb_true_iff. split.
      - apply negb_true_iff, Z.eqb_neq. lia.
      - apply Z.leb_le. lia. }
  unfold io_bind at 1. unfold lift at 1. rewrite Hin.
  rewrite io_bind_assert.
  unfold io_bind, File.openReadThrow, lift, io_ret, stored_words.
  destruct (files w !! ProofSet.pointPath E k) as [d|] eqn:Hd.
  - destruct (File.readChecked (wrap32 (E / 32 + 1)) (File.mk (ProofSet.pointPath E k) d))
      as [r|msg|msg] eqn:Hr.
    + eexists. split; reflexivity.
    + eexists. split; [reflexivity|]. eexists. reflexivity.
    + exfalso. unfold File.readChecked in Hr.
      destruct (File.read _ _) as [r1|?|?] eqn:H1; cbn [outcome_bind] in Hr;
        [|discriminate | unfold File.read in H1; destruct (_ <=? _) in H1; discriminate].
      destruct (File.read 4 _) as [r2|?|?] eqn:H2; cbn [outcome_bind] in Hr;
        [|discriminate | unfold File.read in H2; destruct (_ <=? _) in H2; discriminate].
      destruct (_ =? _) in Hr; discriminate.
  - eexists. split; [reflexivity|]. eexists. reflexivity.
Qed.

Lemma writeChecked_files (p : string) (R : Words) (w : World) :
  exists w1,
    io_bind (File.openWrite p) (fun fo => File.writeChecked fo R) w = (Ok tt, w1) /\
    files w1 = <[p := saved_file R]> (files w).
Proof.
  unfold io_bind, File.openWrite, File.writeChecked, io_bind, File.write.
  cbn [File.path]. eexists. split; [reflexivity|].
  cbn [files touch set_files].
  rewrite alter_insert_eq, alter_insert_eq. reflexivity.
Qed.

Lemma stored_words_saved (fs : gmap string (list ascii)) (E k : Z) (R : Words) :
  fs !! ProofSet.pointPath E k = Some (saved_file R) ->
  Forall is_u32 R -> Z.of_nat (length R) = wrap32 (E / 32 + 1) ->
  stored_words fs E k = Some R.
Proof.
  intros Hfs HR Hlen. unfold stored_words. rewrite Hfs. unfold saved_file.
  rewrite <- (app_nil_r (le_bytes 4 _)).
  rewrite readChecked_written by (try exact HR; lia). reflexivity.
Qed.

Lemma stored_words_length (fs : gmap string (list ascii)) (E k : Z) (ws : Words) :
  stored_words fs E k = Some ws -> Z.of_nat (length ws) = wrap32 (E / 32 + 1).
Proof.
  unfold stored_words. destruct (fs !! _) as [d|]; [|discriminate].
  assert (Hn : 0 <= wrap32 (E / 32 + 1)) by (unfold wrap32; apply Z.mod_pos_bound; lia).
  generalize dependent (wrap32 (E / 32 + 1)). intros n Hn.
  unfold File.readChecked.
  destruct (File.read (4 * n) _) as [[bs f1]|?|?] eqn:H1; [|discriminate..].
  cbn [outcome_bind fst snd].
  destruct (File.read 4 f1) as [[cs f2]|?|?]; [|discriminate..].
  cbn [outcome_bind fst snd].
  destruct (_ =? _); [|discriminate]. intros [= <-].
  apply read_Ok in H1; [|lia]. destruct H1 as (_ & Hlen & _).
  rewrite (words_of_bytes_length bs (Z.to_nat n)) by lia. lia.
Qed.

(** [save] returns exactly when its assertions hold and the words have the
    length [load] reads back; it leaves the words and their checksum in the
    file of the point. *)
Lemma save_static_Ok (E power k : Z) (R : Words) (w w1 : World) :
  ProofSet.save_static E power k R w = (Ok tt, w1) ->
  (k <> 0 /\ k <= E) /\ ProofSet.isInPoints E power k = Ok true /\
  Z.of_nat (length R) = wrap32 (E / 32 + 1) /\
  w1 = after_save (ProofSet.pointPath E k) R w.
Proof.
  unfold ProofSet.save_static. rewrite io_bind_assert.
  destruct (negb (k =? 0) && (k <=? E)) eqn:Hk; [|discriminate].
  apply andb_true_iff in Hk. destruct Hk as (Hk0 & HkE).
  apply negb_true_iff, Z.eqb_neq in Hk0. apply Z.leb_le in HkE.
  unfold io_bind at 1. unfold lift at 1.
  destruct (ProofSet.isInPoints E power k) as [[|]|?|?] eqn:Hin; try discriminate.
  rewrite io_bind_assert.
  unfold io_bind at 1. unfold File.openWrite at 1.
  unfold io_bind at 1. unfold File.writeChecked, io_bind at 1, File.write.
  unfold io_bind, ProofSet.load_static, io_bind, lift, File.openReadThrow.
  cbv [File.path files touch set_files accesses dirs console].
  rewrite alter_insert_eq, alter_insert_eq.
  change (([] ++ Words_data R) ++ le_bytes 4 (crc32 (Words_data R))) with (saved_file R).
  replace (negb (k =? 0) && (k <=? E)) with true.
  2:{ symmetry. apply andb_true_iff. split;
        [apply negb_true_iff, Z.eqb_neq | apply Z.leb_le]; assumption. }
  cbn [assert]. rewrite Hin. cbn [assert].
  rewrite lookup_insert_eq.
  destruct (File.readChecked _ _) as [r|?|?] eqn:Hr; try discriminate.
  unfold io_ret.
  destruct (Words_eqb (fst r) R) eqn:Heq; cbn [assert]; [|discriminate].
  intros [= <-].
  apply bool_decide_eq_true_1 in Heq.
  assert (Hsw : stored_words (<[ProofSet.pointPath E k := saved_file R]> (files w)) E k
                = Some R).
  { unfold stored_words. rewrite lookup_insert_eq, Hr, Heq. reflexivity. }
  apply stored_words_length in Hsw.
  repeat split; try assumption.
  unfold after_save. rewrite <- !app_assoc. reflexivity.
Qed.

Lemma save_static_returns (E power k : Z) (R : Words) (w : World) :
  k <> 0 /\ k <= E -> ProofSet.isInPoints E power k = Ok true ->
  Forall is_u32 R -> Z.of_nat (length R) = wrap32 (E / 32 + 1) ->
  ProofSet.save_static E power k R w = (Ok tt, after_save (ProofSet.pointPath E k) R w).
Proof.
  intros (Hk0 & HkE) Hin HR Hlen.
  unfold ProofSet.save_static. rewrite io_bind_assert.
  replace (negb (k =? 0) && (k <=? E)) with true.
  2:{ symmetry. apply andb_true_iff. split;
        [apply negb_true_iff, Z.eqb_neq | apply Z.leb_le]; assumption. }
  unfold io_bind at 1. unfold lift at 1. rewrite Hin.
  rewrite io_bind_assert.
  unfold io_bind at 1. unfold File.openWrite at 1.
  unfold io_bind at 1. unfold File.writeChecked, io_bind at 1, File.write.
  unfold io_bind, ProofSet.load_static, io_bind, lift, File.openReadThrow.
  cbv [File.path files touch set_files accesses dirs console].
  rewrite alter_insert_eq, alter_insert_eq.
  change (([] ++ Words_data R) ++ le_bytes 4 (crc32 (Words_data R))) with (saved_file R).
  replace (negb (k =? 0) && (k <=? E)) with true.
  2:{ symmetry. apply andb_true_iff. split;
        [apply negb_true_iff, Z.eqb_neq | apply Z.leb_le]; assumption. }
  cbn [assert]. rewrite Hin. cbn [assert].
  rewrite lookup_insert_eq. unfold saved_file at 1.
  rewrite <- (app_nil_r (le_bytes 4 _)).
  rewrite readChecked_written by (try exact HR; lia).
  unfold io_ret. cbn [fst]. unfold Words_eqb.
  rewrite bool_decide_eq_true_2 by reflexivity. cbn [assert].
  unfold after_save. rewrite <- !app_assoc. reflexivity.
Qed.

(** ** isValidTo, canDo and effectivePower *)

Lemma is_u32_wrap32 (x : Z) : 0 <= x < 2 ^ 32 -> wrap32 x = x.
Proof. intros Hx. unfold wrap32. apply Z.mod_small. exact Hx. Qed.

(** The backward loop of [isValidTo] asks for the file of every point before
    [it], and only looks at file sizes. *)
Lemma isValidTo_loop_spec (ps : ProofSet.t) (it : nat) :
  forall w : World,
    (it <= length (ProofSet.points ps))%nat ->
    exists w',
      ProofSet.isValidTo_loop ps it w =
      (Ok (forallb (present (files w) (ProofSet.E ps)) (take it (ProofSet.points ps))), w') /\
      files w' = files w.
Proof.
  induction it as [|it IH]; intros w Hit.
  - exists w. split; reflexivity.
  - cbn [ProofSet.isValidTo_loop].
    destruct (lookup_lt_is_Some_2 (ProofSet.points ps) it ltac:(lia)) as (k & Hk).
    rewrite (take_S_r _ _ _ Hk), forallb_app. cbn [forallb]. rewrite andb_true_r.
    unfold io_bind at 1. unfold lift at 1, ProofSet.deref. rewrite Hk.
    unfold io_bind at 1. rewrite fileExists_spec.
    destruct (present (files w) (ProofSet.E ps) k) eqn:Hpres.
    + destruct (IH (touch (IoSize (ProofSet.pointPath (ProofSet.E ps) k)) w) ltac:(lia))
        as (w' & Hrun & Hfiles).
      exists w'. rewrite Hrun, files_touch. rewrite andb_true_r.
      split; [reflexivity | exact Hfiles].
    + eexists. rewrite andb_false_r. split; reflexivity.
Qed.

(** [isValidTo] computes [valid_to] from the files, and only reads; the
    point it loads must be one that passes the assertions of [load]. *)
Lemma isValidTo_spec (ps : ProofSet.t) (limitK : Z) (w : World) :
  (forall p, In p (ProofSet.points ps) -> p <= limitK ->
             0 < p <= ProofSet.E ps /\
             ProofSet.isInPoints (ProofSet.E ps) (ProofSet.power ps) p = Ok true) ->
  StronglySorted Z.le (ProofSet.points ps) ->
  exists w',
    ProofSet.isValidTo ps limitK w =
    (Ok (valid_to (files w) (ProofSet.E ps) (ProofSet.points ps) limitK), w') /\
    files w' = files w.
Proof.
  intros Hreal Hs. unfold ProofSet.isValidTo, valid_to.
  pose proof (upper_bound_splits (ProofSet.points ps) limitK
                (StronglySorted_ascending _ Hs)) as (Hle & Hlo & _).
  destruct (ProofSet.upper_bound (ProofSet.points ps) limitK) as [|it].
  - exists w. split; reflexivity.
  - assert (Hit : (it < length (ProofSet.points ps))%nat) by lia.
    unfold io_bind at 1. unfold lift at 1. rewrite (deref_nth _ _ Hit).
    set (k := nth it (ProofSet.points ps) 0).
    assert (Hk : 0 < k <= ProofSet.E ps /\
                 ProofSet.isInPoints (ProofSet.E ps) (ProofSet.power ps) k = Ok true).
    { apply Hreal; [apply nth_In; exact Hit | apply Hlo; lia]. }
    destruct Hk as (Hk & Hin).
    destruct (load_static_spec (ProofSet.E ps) (ProofSet.power ps) k w Hk Hin)
      as (r & Hload & Hr).
    unfold io_bind at 1. unfold try_catch, ProofSet.load. unfold io_bind at 1.
    rewrite Hload.
    destruct (stored_words (files w) (ProofSet.E ps) k) as [ws|] eqn:Hsw.
    + subst r. cbn [io_ret].
      destruct (isValidTo_loop_spec ps it
                  (touch (IoOpenRead (ProofSet.pointPath (ProofSet.E ps) k)) w) ltac:(lia))
        as (w' & Hrun & Hfiles).
      exists w'. rewrite Hrun, files_touch.
      rewrite bool_decide_eq_true_2 by (eexists; reflexivity).
      split; [reflexivity | exact Hfiles].
    + destruct Hr as (msg & ->). cbn [io_ret].
      eexists. rewrite bool_decide_eq_false_2 by (intros (? & ?); discriminate).
      split; reflexivity.
Qed.

(** When every point exceeds [limitK], [isValidTo] returns [true] at once:
    the world it returns is the world it got. *)
Lemma isValidTo_nothing_below (ps : ProofSet.t) (limitK : Z) (w : World) :
  (forall p, In p (ProofSet.points ps) -> limitK < p) ->
  ProofSet.isValidTo ps limitK w = (Ok true, w).
Proof.
  intros Hall. unfold ProofSet.isValidTo, ProofSet.upper_bound.
  rewrite upper_bound_loop_all_greater; [reflexivity | | lia].
  intros j Hj. apply Hall, nth_In. exact Hj.
Qed.

Lemma canDo_new (E : Z) (kf : list string) (power currentK : Z) (w : World) :
  negb (Z.land E 1 =? 0) = true -> 0 < power <= 12 -> new_checks E power = true ->
  ProofSet.canDo E kf power currentK w =
  ProofSet.isValidTo
    (ProofSet.mk E kf power (ProofSet.sorted_points E power ++ [u32_max]) 0)
    currentK (with_proof_dir E w).
Proof.
  intros Hodd Hp Hchk. unfold ProofSet.canDo. rewrite io_bind_assert.
  replace ((0 <? power) && (power <=? 12)) with true.
  2:{ symmetry. apply andb_true_iff. split; [apply Z.ltb_lt | apply Z.leb_le]; lia. }
  unfold io_bind.
  rewrite (proj2 (new_Ok_iff E kf power w (with_proof_dir E w)
                    (ProofSet.mk E kf power (ProofSet.sorted_points E power ++ [u32_max]) 0)));
    [reflexivity|].
  repeat split; auto; lia.
Qed.

(** [canDo] computes the consistency of the cache from the files alone. *)
Lemma canDo_spec (E : Z) (kf : list string) (power currentK : Z) (w : World) :
  negb (Z.land E 1 =? 0) = true -> 0 < E < 2 ^ 32 - 1 ->
  0 < power <= 12 -> new_checks E power = true ->
  currentK < u32_max ->
  exists w',
    ProofSet.canDo E kf power currentK w =
    (Ok (cache_consistent (files w) E power currentK), w') /\
    files w' = files w.
Proof.
  intros Hodd HE Hp Hchk Hk. rewrite canDo_new by assumption.
  destruct (new_checks_sorted E power ltac:(lia) Hp Hchk) as (Hs & _).
  pose proof (new_checks_positive E power HE Hp Hchk) as Hpos.
  destruct (new_checks_sorted E power ltac:(lia) Hp Hchk) as (_ & Hpts & _).
  destruct (isValidTo_spec
              (ProofSet.mk E kf power (ProofSet.sorted_points E power ++ [u32_max]) 0)
              currentK (with_proof_dir E w)) as (w' & Hrun & Hfiles).
  - cbn [ProofSet.points ProofSet.E ProofSet.power].
    intros p Hin Hle. apply in_app_or in Hin. destruct Hin as [Hin | [<-|[]]]; [|lia].
    split; [apply Hpos; exact Hin | apply Hpts; exact Hin].
  - exact Hs.
  - exists w'. split; [exact Hrun | exact Hfiles].
Qed.

Lemma spans_loop_sum_mono (n m : nat) (span : Z) :
  0 < span < 2 ^ 32 - 1 -> (n <= m)%nat ->
  Zsum (ProofSet.spans_loop n span) <= Zsum (ProofSet.spans_loop m span).
Proof.
  revert m span. induction n as [|n IH]; intros m span Hs Hnm.
  - simpl. apply spans_loop_sum_nonneg. exact Hs.
  - destruct m as [|m]; [lia|]. simpl.
    pose proof (halve_bounds span Hs).
    specialize (IH m (ProofSet.halve span) ltac:(lia) ltac:(lia)). lia.
Qed.

Lemma spans_fit_mono (E p power : Z) :
  0 < E < 2 ^ 32 - 1 -> p <= power -> spans_fit E power -> spans_fit E p.
Proof.
  intros HE Hp Hfit. unfold spans_fit, ProofSet.spans in *.
  pose proof (halve_bounds E HE).
  etransitivity; [|exact Hfit].
  apply spans_loop_sum_mono; [lia|]. lia.
Qed.

(** [effectivePower] returns the first power, counting down from [n], whose
    cache is consistent, and 0 when there is none. *)
Lemma effectivePower_loop_spec (E : Z) (kf : list string) (currentK : Z) (n : nat) :
  negb (Z.land E 1 =? 0) = true -> 0 < E < 2 ^ 32 - 1 -> (n <= 12)%nat ->
  spans_fit E (Z.of_nat n) -> currentK < u32_max ->
  forall w : World,
  exists (r : Z) (w' : World),
    ProofSet.effectivePower_loop n E kf currentK w = (Ok r, w') /\
    files w' = files w /\
    0 <= r <= Z.of_nat n /\
    (r <> 0 -> cache_consistent (files w) E r currentK = true) /\
    (forall p, r < p <= Z.of_nat n -> cache_consistent (files w) E p currentK = false).
Proof.
  intros Hodd HE. induction n as [|n IH]; intros Hn Hfit Hk w.
  - exists 0, w. simpl. repeat split; try lia.
  - cbn [ProofSet.effectivePower_loop].
    assert (Hchk : new_checks E (Z.of_nat (S n)) = true)
      by (apply new_checks_fit; [exact HE | lia | exact Hfit]).
    destruct (canDo_spec E kf (Z.of_nat (S n)) currentK w Hodd HE ltac:(lia) Hchk Hk)
      as (w1 & Hcan & Hfiles1).
    unfold io_bind at 1. rewrite Hcan.
    destruct (cache_consistent (files w) E (Z.of_nat (S n)) currentK) eqn:Hcons.
    + exists (Z.of_nat (S n)), w1. cbn [io_ret].
      repeat split; try lia; try assumption; auto.
    + destruct (IH ltac:(lia)
                   (spans_fit_mono E (Z.of_nat n) (Z.of_nat (S n)) HE ltac:(lia) Hfit)
                   Hk w1)
        as (r & w' & Hrun & Hfiles & Hr & Htrue & Hfalse).
      exists r, w'. rewrite Hfiles1 in *.
      repeat split; try lia; try assumption.
      intros p Hp. destruct (Z.eq_dec p (Z.of_nat (S n))) as [->|Hne]; [exact Hcons|].
      apply Hfalse. lia.
Qed.

(** ** Exponents *)

#[local] Set Warnings "-deprecated-reference".

Lemma coprime_below_prime (p : Z) : coprime_below p = true -> prime p.
Proof.
  unfold coprime_below. intros H. apply andb_true_iff in H. destruct H as (H1 & Hall).
  apply Z.ltb_lt in H1. rewrite forallb_forall in Hall.
  apply prime_intro; [exact H1|].
  intros n Hn. apply Zgcd_1_rel_prime.
  specialize (Hall (Z.to_nat n)). rewrite Z2Nat.id in Hall by lia.
  apply Z.eqb_eq, Hall, in_seq. lia.
Qed.

Lemma odd_prime_range (E : Z) :
  odd_prime E -> 0 < E < 2 ^ 32 - 1 /\ negb (Z.land E 1 =? 0) = true.
Proof.
  intros (Hp & Hodd & Hlt).
  assert (H1 : 1 < E) by (destruct Hp; assumption).
  split.
  - split; [lia|].
    destruct (Z.eq_dec E (2 ^ 32 - 1)) as [->|Hne]; [|lia].
    exfalso.
    destruct (prime_divisors _ Hp 3) as [H|[H|[H|H]]]; try discriminate.
    exists 1431655765. reflexivity.
  - change 1 with (Z.ones 1) at 1. rewrite Z.land_ones by lia.
    change (2 ^ 1) with 2. rewrite Zmod_odd, Hodd. reflexivity.
Qed.

#[local] Set Warnings "deprecated-reference".

(** ** Properties of the residue cache *)

(** C7.  For an odd prime [E], a [ProofSet] constructed for [E] and [power],
    one of its proof points [k] and a residue [R] of [E / 32 + 1] words:
    [save(E, power, k, R)] returns, after it [load(E, power, k)] returns
    exactly [R], and [fileExists(k)] returns true. *)
Theorem save_then_load_returns_saved
    (E : Z) (kf : list string) (power : Z) (w0 w0' : World) (ps : ProofSet.t)
    (k : Z) (R : Words) (w : World) :
  odd_prime E ->
  ProofSet.new E kf power w0 = (Ok ps, w0') ->
  In k (ProofSet.sorted_points E power) ->
  Forall is_u32 R ->
  Z.of_nat (length R) = E / 32 + 1 ->
  exists w1 w2 w3 : World,
    ProofSet.save_static E power k R w = (Ok tt, w1) /\
    ProofSet.load_static E power k w1 = (Ok R, w2) /\
    ProofSet.fileExists ps k w1 = (Ok true, w3).
Proof.
  intros Hprime Hnew Hk HR Hlen.
  destruct (odd_prime_range E Hprime) as (HE & _).
  destruct (new_cache_ok E kf power w0 w0' ps ltac:(lia) Hnew)
    as (_ & _ & HEps & _ & _ & Hp & Hchk).
  pose proof (new_checks_positive E power HE Hp Hchk k Hk) as Hkpos.
  destruct (new_checks_sorted E power ltac:(lia) Hp Hchk) as (_ & Hpts & _).
  destruct (Hpts k Hk) as (_ & Hin).
  assert (Hn : wrap32 (E / 32 + 1) = E / 32 + 1).
  { apply is_u32_wrap32.
    pose proof (Z.div_pos E 32 ltac:(lia) ltac:(lia)).
    assert (E / 32 <= E) by (apply Z.div_le_upper_bound; lia). lia. }
  assert (Hn2 : wrap32 (E / 32 + 2) = E / 32 + 2).
  { apply is_u32_wrap32.
    pose proof (Z.div_pos E 32 ltac:(lia) ltac:(lia)).
    assert (E / 32 <= E / 1).
    { apply Z.div_le_compat_l; lia. }
    rewrite Z.div_1_r in *.
    assert (E / 32 * 32 <= E) by (pose proof (Z.mul_div_le E 32 ltac:(lia)); lia).
    lia. }
  set (p := ProofSet.pointPath E k).
  exists (after_save p R w). 
  assert (Hfile : files (after_save p R w) !! p = Some (saved_file R))
    by (unfold after_save; cbn [files]; apply lookup_insert_eq).
  destruct (load_static_spec E power k (after_save p R w) Hkpos Hin) as (r & Hload & Hr).
  fold p in Hload.
  rewrite (stored_words_saved _ E k R Hfile HR ltac:(lia)) in Hr. subst r.
  eexists _, _. split; [|split].
  - apply save_static_returns; auto; lia.
  - exact Hload.
  - rewrite fileExists_spec, HEps. f_equal. f_equal.
    unfold present, file_size. fold p. rewrite Hfile, Hn2.
    unfold saved_file. rewrite length_app, Words_data_length, le_bytes_length.
    apply Z.eqb_eq. lia.
Qed.

Lemma save_then_load_witness :
  exists w1 w2 w3 : World,
    ProofSet.save_static 7 1 4 [71] empty_world = (Ok tt, w1) /\
    ProofSet.load_static 7 1 4 w1 = (Ok [71], w2) /\
    ProofSet.fileExists
      (ProofSet.mk 7 [] 1 (ProofSet.sorted_points 7 1 ++ [u32_max]) 0) 4 w1
    = (Ok true, w3).
Proof.
  apply (save_then_load_returns_saved 7 [] 1 empty_world (with_proof_dir 7 empty_world)).
  - split; [apply coprime_below_prime; vm_compute; reflexivity|].
    split; [reflexivity | lia].
  - vm_compute. reflexivity.
  - vm_compute. left. reflexivity.
  - repeat constructor; unfold is_u32; lia.
  - reflexivity.
Defined.

(** C5, as amended.  A cache file that [save] has written holds
    [Nw = E / 32 + 1] little-endian words, which for odd [E] is
    [ceil(E / 32)] and not one more, followed by the four bytes of their
    CRC-32: [(Nw + 1) * 4] bytes in all; and [fileExists(k)] is true exactly
    when the file of [k] has that size. *)
Theorem cache_file_layout (E power k : Z) (R : Words) (w w1 : World) :
  Z.odd E = true -> 0 <= E < 2 ^ 32 ->
  ProofSet.save_static E power k R w = (Ok tt, w1) ->
  E / 32 + 1 = (E + 31) / 32 /\
  Z.of_nat (length R) = E / 32 + 1 /\
  files w1 !! ProofSet.pointPath E k
    = Some (Words_data R ++ le_bytes 4 (crc32 (Words_data R))) /\
  file_size (files w1) (ProofSet.pointPath E k) = (E / 32 + 1 + 1) * 4 /\
  forall (ps : ProofSet.t) (k' : Z) (w' : World),
    ProofSet.E ps = E ->
    fst (ProofSet.fileExists ps k' w')
    = Ok (file_size (files w') (ProofSet.pointPath E k') =? (E / 32 + 1 + 1) * 4).
Proof.
  intros Hodd HE Hsave.
  apply save_static_Ok in Hsave. destruct Hsave as (_ & _ & Hlen & ->).
  assert (Hdiv : 0 <= E / 32 <= E).
  { split; [apply Z.div_pos; lia | apply Z.div_le_upper_bound; lia]. }
  pose proof (Z.mul_div_le E 32 ltac:(lia)) as Hmul.
  rewrite is_u32_wrap32 in Hlen by lia.
  assert (Hceil : E / 32 + 1 = (E + 31) / 32).
  { pose proof (Zmod_odd E) as Hm. rewrite Hodd in Hm.
    pose proof (Z.div_mod E 2 ltac:(lia)).
    pose proof (Z.div_mod E 32 ltac:(lia)).
    pose proof (Z.mod_pos_bound E 32 ltac:(lia)).
    pose proof (Z.div_mod (E + 31) 32 ltac:(lia)).
    pose proof (Z.mod_pos_bound (E + 31) 32 ltac:(lia)).
    lia. }
  assert (Hfile : files (after_save (ProofSet.pointPath E k) R w) !! ProofSet.pointPath E k
                  = Some (saved_file R))
    by (unfold after_save; cbn [files]; apply lookup_insert_eq).
  split; [exact Hceil|]. split; [exact Hlen|]. split; [exact Hfile|]. split.
  - unfold file_size. rewrite Hfile. unfold saved_file.
    rewrite length_app, Words_data_length, le_bytes_length. lia.
  - intros ps k' w' <-. rewrite fileExists_spec. cbn [fst]. unfold present.
    rewrite is_u32_wrap32 by lia. do 2 f_equal. lia.
Qed.

Lemma cache_file_layout_witness :
  7 / 32 + 1 = (7 + 31) / 32 /\
  files (after_save (ProofSet.pointPath 7 4) [71] empty_world) !! ProofSet.pointPath 7 4
    = Some (Words_data [71] ++ le_bytes 4 (crc32 (Words_data [71]))) /\
  file_size (files (after_save (ProofSet.pointPath 7 4) [71] empty_world))
            (ProofSet.pointPath 7 4) = (7 / 32 + 1 + 1) * 4.
Proof.
  destruct (cache_file_layout 7 1 4 [71] empty_world
              (after_save (ProofSet.pointPath 7 4) [71] empty_world))
    as (H1 & _ & H3 & H4 & _).
  - reflexivity.
  - lia.
  - vm_compute. reflexivity.
  - split; [exact H1 | split; [exact H3 | exact H4]].
Defined.

(** C5 as stated fails: for [E = 7] the file that [save] writes has 8 bytes,
    one word and the checksum, not the [(ceil(7/32) + 1 + 1) * 4 = 12] of
    the claim, and [fileExists] is true of it. *)
Lemma cache_file_has_no_guard_word :
  fst (ProofSet.save_static 7 1 4 [71] empty_world) = Ok tt /\
  file_size (files (snd (ProofSet.save_static 7 1 4 [71] empty_world)))
            (ProofSet.pointPath 7 4) = 8 /\
  8 <> ((7 + 31) / 32 + 1 + 1) * 4 /\
  fst (ProofSet.fileExists
         (ProofSet.mk 7 [] 1 (ProofSet.sorted_points 7 1 ++ [u32_max]) 0) 4
         (snd (ProofSet.save_static 7 1 4 [71] empty_world))) = Ok true.
Proof.
  split; [vm_compute; reflexivity|].
  split; [vm_compute; reflexivity|].
  split; [vm_compute; discriminate|].
  vm_compute. reflexivity.
Qed.

(** On an object that the constructor returned, nothing is at or below
    [limitK = 0]. *)
Lemma isValidTo_nothing_below_new
    (E : Z) (kf : list string) (power : Z) (w w1 : World) (ps : ProofSet.t) :
  0 < E < 2 ^ 32 - 1 ->
  ProofSet.new E kf power w = (Ok ps, w1) ->
  (forall (limitK : Z) (w2 : World),
     (forall p, In p (ProofSet.points ps) -> limitK < p) ->
     ProofSet.isValidTo ps limitK w2 = (Ok true, w2)) /\
  (forall p, In p (ProofSet.points ps) -> 0 < p) /\
  (forall w2 : World, ProofSet.isValidTo ps 0 w2 = (Ok true, w2)) /\
  ProofSet.canDo E kf power 0 w = (Ok true, w1) /\
  ProofSet.effectivePower E kf power 0 w = (Ok power, w1) /\
  files w1 = files w /\
  accesses w1 = accesses w ++ [IoMkdir (ProofSet.proofPath E)].
Proof.
  intros HE Hnew.
  destruct (new_cache_ok E kf power w w1 ps ltac:(lia) Hnew)
    as (_ & Hpts & _ & _ & _ & Hp & Hchk).
  pose proof (new_checks_positive E power HE Hp Hchk) as Hpos.
  assert (Hall : forall p, In p (ProofSet.points ps) -> 0 < p).
  { intros p Hin. rewrite Hpts in Hin. apply in_app_or in Hin.
    destruct Hin as [Hin | [<-|[]]]; [apply Hpos; exact Hin | unfold u32_max; lia]. }
  pose proof Hnew as Hiff. apply new_Ok_iff in Hiff.
  destruct Hiff as (Hodd & _ & _ & Hps & Hw1).
  assert (Hcan : ProofSet.canDo E kf power 0 w = (Ok true, w1)).
  { rewrite canDo_new by assumption. rewrite <- Hps, Hw1.
    apply isValidTo_nothing_below. exact Hall. }
  split; [intros limitK w2 Hlim; apply isValidTo_nothing_below; exact Hlim|].
  split; [exact Hall|].
  split; [intros w2; apply isValidTo_nothing_below; exact Hall|].
  split; [exact Hcan|].
  split; [|split; [rewrite Hw1; reflexivity | rewrite Hw1; reflexivity]].
  unfold ProofSet.effectivePower.
  destruct (Z.to_nat power) as [|n] eqn:Hn; [lia|].
  cbn [ProofSet.effectivePower_loop]. rewrite <- Hn, Z2Nat.id by lia.
  unfold io_bind. rewrite Hcan. reflexivity.
Qed.

(** C10 fails on the code for small exponents, through the assertion of the
    constructor (C3): for the odd primes [E = 1009] with [power = 9] and
    [E = 521] with [power = 12], [canDo(E, {}, power, 0)] and
    [effectivePower(E, {}, power, 0)] die on [assert(points.back() == E)]
    and return neither true nor the power.  On every object that the
    constructor returns: when no proof point is at or below [limitK],
    [isValidTo(limitK)] returns true and the world it hands back is the one it
    was given, so no file is opened or measured; every proof point is
    positive, so this is so for [limitK = 0]; [canDo(E, knownFactors, power, 0)]
    is true and [effectivePower(E, knownFactors, power, 0)] is [power],
    whatever files there are, and the constructor's directory is all that
    they touch.  The constructor returns for every odd prime [E] and power from
    1 to 12 whose spans add up to at most [E]. *)
Theorem isValidTo_true_below_first_point :
  (forall (E : Z) (kf : list string) (power : Z) (w w1 : World) (ps : ProofSet.t),
     0 < E < 2 ^ 32 - 1 ->
     ProofSet.new E kf power w = (Ok ps, w1) ->
     (forall (limitK : Z) (w2 : World),
        (forall p, In p (ProofSet.points ps) -> limitK < p) ->
        ProofSet.isValidTo ps limitK w2 = (Ok true, w2)) /\
     (forall p, In p (ProofSet.points ps) -> 0 < p) /\
     (forall w2 : World, ProofSet.isValidTo ps 0 w2 = (Ok true, w2)) /\
     ProofSet.canDo E kf power 0 w = (Ok true, w1) /\
     ProofSet.effectivePower E kf power 0 w = (Ok power, w1) /\
     files w1 = files w /\
     accesses w1 = accesses w ++ [IoMkdir (ProofSet.proofPath E)]) /\
  (forall (E : Z) (kf : list string) (power : Z) (w : World),
     odd_prime E -> 1 <= power <= 12 -> spans_fit E power ->
     ProofSet.canDo E kf power 0 w = (Ok true, with_proof_dir E w) /\
     ProofSet.effectivePower E kf power 0 w = (Ok power, with_proof_dir E w) /\
     files (with_proof_dir E w) = files w) /\
  (odd_prime 1009 /\
   fst (ProofSet.canDo 1009 [] 9 0 empty_world) = Crash "points.back() == E" /\
   fst (ProofSet.effectivePower 1009 [] 9 0 empty_world) = Crash "points.back() == E") /\
  (odd_prime 521 /\
   fst (ProofSet.canDo 521 [] 12 0 empty_world) = Crash "points.back() == E" /\
   fst (ProofSet.effectivePower 521 [] 12 0 empty_world) = Crash "points.back() == E").
Proof.
  assert (Hprime : forall p, coprime_below p = true -> Z.odd p = true -> p < 2 ^ 32 ->
                             odd_prime p).
  { intros p H1 H2 H3. split; [apply coprime_below_prime; exact H1 | split; assumption]. }
  split; [intros E kf power w w1 ps; apply isValidTo_nothing_below_new|].
  split.
  - intros E kf power w Hodd Hp Hfit.
    destruct (odd_prime_range E Hodd) as (HE & Hland).
    assert (Hnew : ProofSet.new E kf power w
                   = (Ok (ProofSet.mk E kf power
                            (ProofSet.sorted_points E power ++ [u32_max]) 0),
                      with_proof_dir E w)).
    { apply new_Ok_iff. split; [exact Hland|]. split; [lia|].
      split; [apply new_checks_fit; [exact HE | lia | exact Hfit]|].
      split; reflexivity. }
    destruct (isValidTo_nothing_below_new E kf power w _ _ HE Hnew)
      as (_ & _ & _ & Hcan & Heff & _).
    split; [exact Hcan|]. split; [exact Heff | reflexivity].
  - split.
    + split; [apply Hprime; [vm_compute; reflexivity | reflexivity | lia]|].
      split; vm_compute; reflexivity.
    + split; [apply Hprime; [vm_compute; reflexivity | reflexivity | lia]|].
      split; vm_compute; reflexivity.
Qed.

Lemma isValidTo_true_below_first_point_witness :
  files empty_world = ∅ /\
  ProofSet.canDo 7 [] 2 0 empty_world = (Ok true, with_proof_dir 7 empty_world) /\
  ProofSet.effectivePower 7 [] 2 0 empty_world = (Ok 2, with_proof_dir 7 empty_world).
Proof.
  destruct (proj1 isValidTo_true_below_first_point 7 [] 2 empty_world
              (with_proof_dir 7 empty_world)
              (ProofSet.mk 7 [] 2 (ProofSet.sorted_points 7 2 ++ [u32_max]) 0))
    as (_ & _ & _ & Hcan & Heff & _).
  - lia.
  - vm_compute. reflexivity.
  - split; [reflexivity | split; [exact Hcan | exact Heff]].
Defined.

Lemma effectivePower_spec (E : Z) (kf : list string) (power currentK : Z) (w : World) :
  odd_prime E -> 0 <= power <= 12 -> spans_fit E power -> currentK < u32_max ->
  exists (r : Z) (w' : World),
    ProofSet.effectivePower E kf power currentK w = (Ok r, w') /\
    files w' = files w /\
    0 <= r <= power /\
    (r <> 0 -> cache_consistent (files w) E r currentK = true) /\
    (forall p, r < p <= power -> cache_consistent (files w) E p currentK = false).
Proof.
  intros Hprime Hp Hfit Hk.
  destruct (odd_prime_range E Hprime) as (HE & Hodd).
  unfold ProofSet.effectivePower.
  destruct (effectivePower_loop_spec E kf currentK (Z.to_nat power) Hodd HE
              ltac:(lia) ltac:(rewrite Z2Nat.id by lia; exact Hfit) Hk w)
    as (r & w' & Hrun & Hfiles & Hr & Htrue & Hfalse).
  rewrite Z2Nat.id in * by lia.
  exists r, w'. repeat split; try assumption; lia.
Qed.

Lemma canDo_value (E : Z) (kf : list string) (power p currentK : Z) (w : World) :
  odd_prime E -> 0 < p <= power -> power <= 12 -> spans_fit E power ->
  currentK < u32_max ->
  fst (ProofSet.canDo E kf p currentK w) = Ok (cache_consistent (files w) E p currentK).
Proof.
  intros Hprime Hp Hpower Hfit Hk.
  destruct (odd_prime_range E Hprime) as (HE & Hodd).
  assert (Hchk : new_checks E p = true).
  { apply new_checks_fit; [exact HE | lia |].
    apply (spans_fit_mono E p power HE); [lia | exact Hfit]. }
  destruct (canDo_spec E kf p currentK w Hodd HE ltac:(lia) Hchk Hk) as (w' & Hcan & _).
  rewrite Hcan. reflexivity.
Qed.

(** C9 fails on the code for small exponents, through the assertion of the
    constructor (C3): for the odd prime [E = 3] and [power = 3],
    [effectivePower] dies on [assert(points.back() == E)] in [canDo].  For
    every odd prime [E] and requested [power] whose proof set can be built,
    [effectivePower] returns the largest [r] from 1 to [power] for which
    [canDo(E, knownFactors, r, currentK)] is true, and 0 when there is none.
    In the scenario [E = 521], [power = 4]: when the file of [points[8]] is
    missing, the files of all other points have the right size and the
    residue at [E] loads, [effectivePower] at [currentK = E] returns 3. *)
Theorem effectivePower_largest_consistent :
  (forall (E : Z) (kf : list string) (power currentK : Z) (w : World),
     odd_prime E -> 1 <= power <= 12 -> spans_fit E power ->
     0 <= currentK < u32_max ->
     exists (r : Z) (w' : World),
       ProofSet.effectivePower E kf power currentK w = (Ok r, w') /\
       0 <= r <= power /\
       (r <> 0 -> fst (ProofSet.canDo E kf r currentK w) = Ok true) /\
       (forall p, r < p <= power ->
                  fst (ProofSet.canDo E kf p currentK w) = Ok false)) /\
  (forall (kf : list string) (w : World),
     (forall k, In k (ProofSet.sorted_points 521 4) ->
                k <> nth 8 (ProofSet.sorted_points 521 4) 0 ->
                present (files w) 521 k = true) ->
     present (files w) 521 (nth 8 (ProofSet.sorted_points 521 4) 0) = false ->
     is_Some (stored_words (files w) 521 521) ->
     fst (ProofSet.effectivePower 521 kf 4 521 w) = Ok 3) /\
  (odd_prime 3 /\
   fst (ProofSet.effectivePower 3 [] 3 3 empty_world) = Crash "points.back() == E").
Proof.
  split; [|split].
  - intros E kf power currentK w Hprime Hp Hfit Hk.
    destruct (effectivePower_spec E kf power currentK w Hprime ltac:(lia) Hfit ltac:(lia))
      as (r & w' & Hrun & _ & Hr & Htrue & Hfalse).
    exists r, w'. split; [exact Hrun|]. split; [exact Hr|]. split.
    + intros Hnz. rewrite (canDo_value E kf power r currentK w) by (auto; lia).
      rewrite Htrue by exact Hnz. reflexivity.
    + intros p Hp'. rewrite (canDo_value E kf power p currentK w) by (auto; lia).
      rewrite Hfalse by exact Hp'. reflexivity.
  - intros kf w Hothers Hmissing Hloads.
    assert (Hprime : odd_prime 521).
    { split; [apply coprime_below_prime; vm_compute; reflexivity|].
      split; [reflexivity | lia]. }
    assert (Hfit : spans_fit 521 4) by (unfold spans_fit; vm_compute; discriminate).
    destruct (effectivePower_spec 521 kf 4 521 w Hprime ltac:(lia) Hfit
                ltac:(unfold u32_max; lia))
      as (r & w' & Hrun & _ & Hr & Htrue & Hfalse).
    rewrite Hrun. cbn [fst]. f_equal.
    assert (Hpts : ProofSet.sorted_points 521 4 =
                   [33; 66; 99; 131; 164; 197; 230; 261; 294; 327; 360; 392; 425;
                    458; 491; 521]) by (vm_compute; reflexivity).
    rewrite Hpts in Hothers, Hmissing. cbn [nth] in Hothers, Hmissing.
    assert (H4 : cache_consistent (files w) 521 4 521 = false).
    { unfold cache_consistent, valid_to. rewrite Hpts.
      replace (ProofSet.upper_bound _ 521) with 16%nat by (vm_compute; reflexivity).
      cbn [app take forallb nth]. rewrite Hmissing.
      rewrite !andb_false_r, ?andb_false_l. reflexivity. }
    assert (H3 : cache_consistent (files w) 521 3 521 = true).
    { unfold cache_consistent, valid_to.
      replace (ProofSet.sorted_points 521 3) with [66; 131; 197; 261; 327; 392; 458; 521]
        by (vm_compute; reflexivity).
      replace (ProofSet.upper_bound _ 521) with 8%nat by (vm_compute; reflexivity).
      cbn [app take forallb nth].
      rewrite bool_decide_eq_true_2 by exact Hloads.
      rewrite !Hothers by (try lia; simpl; tauto). reflexivity. }
    destruct (Z.eq_dec r 4) as [->|Hne4].
    { rewrite Htrue in H4 by lia. discriminate. }
    destruct (Z.eq_dec r 3) as [->|Hne3]; [reflexivity|].
    rewrite (Hfalse 3) in H3 by lia. discriminate.
  - split; [|vm_compute; reflexivity].
    split; [apply coprime_below_prime; vm_compute; reflexivity|].
    split; [reflexivity | lia].
Qed.

(** The scenario of C9 on a concrete cache: a residue has been saved at
    every point of power 4 but [points[8] = 294]. *)
Lemma effectivePower_scenario_witness :
  fst (ProofSet.effectivePower 521 [] 4 521
         (save_all 521 4 (makeWords 521)
            [33; 66; 99; 131; 164; 197; 230; 261; 327; 360; 392; 425; 458; 491; 521]
            empty_world)) = Ok 3.
Proof.
  apply (proj1 (proj2 effectivePower_largest_consistent)).
  - intros k Hin Hne.
    replace (ProofSet.sorted_points 521 4)
      with [33; 66; 99; 131; 164; 197; 230; 261; 294; 327; 360; 392; 425; 458; 491; 521]
      in Hin, Hne by (vm_compute; reflexivity).
    cbn [nth] in Hne.
    repeat (destruct Hin as [<-|Hin]; [first [vm_compute; reflexivity | congruence]|]).
    destruct Hin.
  - vm_compute. reflexivity.
  - vm_compute. eexists. reflexivity.
Defined.

(** ** The constructor on small exponents *)

(** X3.  For an odd prime [E] whose spans of power [power] fit below [E], the
    constructor returns, and its points are sorted, [2^power] in number,
    positive, end in [E], and all satisfy [isInPoints]. *)
Theorem points_invariant_when_spans_fit
    (E : Z) (kf : list string) (power : Z) (w : World) :
  odd_prime E -> 1 <= power <= 12 -> spans_fit E power ->
  exists ps : ProofSet.t,
    ProofSet.new E kf power w = (Ok ps, with_proof_dir E w) /\
    ProofSet.points ps = ProofSet.sorted_points E power ++ [u32_max] /\
    StronglySorted Z.le (ProofSet.sorted_points E power) /\
    Z.of_nat (length (ProofSet.sorted_points E power)) = 2 ^ power /\
    0 < hd 0 (ProofSet.sorted_points E power) /\
    List.last (ProofSet.sorted_points E power) 0 = E /\
    forall k, In k (ProofSet.sorted_points E power) ->
              ProofSet.isInPoints E power k = Ok true.
Proof.
  intros Hprime Hp Hfit.
  destruct (odd_prime_range E Hprime) as (HE & Hodd).
  pose proof (new_checks_fit E power HE ltac:(lia) Hfit) as Hchk.
  destruct (new_checks_sorted E power ltac:(lia) ltac:(lia) Hchk)
    as (Hs & Hpts & HinE & Hlast & Hlen).
  pose proof (new_checks_positive E power HE ltac:(lia) Hchk) as Hpos.
  eexists. split.
  - apply new_Ok_iff. repeat split; try eassumption; lia.
  - cbn [ProofSet.points]. split; [reflexivity|].
    split; [eapply StronglySorted_app_1_l; exact Hs|].
    split; [exact Hlen|].
    destruct (ProofSet.sorted_points E power) as [|x l] eqn:Hl; [destruct HinE|].
    split; [cbn [hd]; apply Hpos; left; reflexivity|].
    split.
    + rewrite <- Hlast. clear. generalize (E + 1).
      revert x. induction l as [|y l IH]; intros x d; [reflexivity|].
      change (List.last (x :: y :: l) 0) with (List.last (y :: l) 0).
      change (List.last (x :: y :: l) d) with (List.last (y :: l) d).
      apply IH.
    + intros k Hk. apply Hpts. exact Hk.
Qed.

Lemma points_invariant_witness :
  exists ps : ProofSet.t,
    ProofSet.new 521 [] 4 empty_world = (Ok ps, with_proof_dir 521 empty_world) /\
    ProofSet.points ps = ProofSet.sorted_points 521 4 ++ [u32_max] /\
    StronglySorted Z.le (ProofSet.sorted_points 521 4) /\
    Z.of_nat (length (ProofSet.sorted_points 521 4)) = 2 ^ 4 /\
    0 < hd 0 (ProofSet.sorted_points 521 4) /\
    List.last (ProofSet.sorted_points 521 4) 0 = 521 /\
    forall k, In k (ProofSet.sorted_points 521 4) ->
              ProofSet.isInPoints 521 4 k = Ok true.
Proof.
  apply points_invariant_when_spans_fit.
  - split; [apply coprime_below_prime; vm_compute; reflexivity|].
    split; [reflexivity | lia].
  - lia.
  - unfold spans_fit. vm_compute. discriminate.
Defined.

(** C3 fails on the code.  For the odd primes [E = 3] with [power = 3], and
    [E = 1009] with [power = 9], the spans add up to more than [E]: the
    largest point is 4, respectively 1011, and the constructor dies on its
    own [assert(points.back() == E)]. *)
Theorem constructor_assertion_fails_for_small_exponent :
  odd_prime 3 /\
  List.last (ProofSet.sorted_points 3 3) 0 = 4 /\
  fst (ProofSet.new 3 [] 3 empty_world) = Crash "points.back() == E" /\
  odd_prime 1009 /\
  List.last (ProofSet.sorted_points 1009 9) 0 = 1011 /\
  fst (ProofSet.new 1009 [] 9 empty_world) = Crash "points.back() == E".
Proof.
  assert (Hprime : forall p, coprime_below p = true -> Z.odd p = true -> p < 2 ^ 32 ->
                             odd_prime p).
  { intros p H1 H2 H3. split; [apply coprime_below_prime; exact H1 | split; assumption]. }
  split; [apply Hprime; [vm_compute; reflexivity | reflexivity | lia]|].
  split; [vm_compute; reflexivity|].
  split; [vm_compute; reflexivity|].
  split; [apply Hprime; [vm_compute; reflexivity | reflexivity | lia]|].
  split; [vm_compute; reflexivity|].
  vm_compute. reflexivity.
Qed.

(** ** bestPower *)

Lemma floor_log2_ratio_below (a b n : Z) :
  0 < a < b -> 0 <= n ->
  (- n <= ProofSet.floor_log2_ratio a b <-> b <= a * 2 ^ n).
Proof.
  intros Hab Hn. unfold ProofSet.floor_log2_ratio.
  destruct (Z.leb_spec b a) as [?|_]; [lia|].
  set (c := (b + a - 1) / a).
  assert (Hc : b <= a * c /\ a * (c - 1) < b).
  { unfold c. pose proof (Z.div_mod (b + a - 1) a ltac:(lia)).
    pose proof (Z.mod_pos_bound (b + a - 1) a ltac:(lia)). nia. }
  assert (Hc1 : 1 < c) by nia.
  assert (Hup : Z.log2_up c <= n <-> c <= 2 ^ n).
  { split; intros H.
    - apply Z.log2_up_le_pow2; lia.
    - apply Z.log2_up_le_pow2; lia. }
  pose proof (Z.pow_pos_nonneg 2 n ltac:(lia) Hn) as Hpow.
  split; intros H.
  - assert (c <= 2 ^ n) by (apply Hup; lia). nia.
  - assert (c <= 2 ^ n) by nia. apply Hup in H0. lia.
Qed.

(** The assertion of [bestPower] holds from [E = 916] on, and fails for
    every smaller exponent. *)
Lemma bestPower_asserts (E : Z) :
  0 < E < 60000000 ->
  (ProofSet.bestPower E = Crash "power >= 2" <-> E < 916).
Proof.
  intros HE. unfold ProofSet.bestPower.
  replace (0 <? E) with true by (symmetry; apply Z.ltb_lt; lia).
  cbn [assert outcome_bind].
  pose proof (floor_log2_ratio_below E 60000000 16 ltac:(lia) ltac:(lia)) as H16.
  change (2 ^ 16) with 65536 in H16.
  set (f := ProofSet.floor_log2_ratio E 60000000) in *.
  pose proof (Z.div_mod f 2 ltac:(lia)) as Hdm.
  pose proof (Z.mod_pos_bound f 2 ltac:(lia)) as Hmb.
  destruct (Z.leb_spec 2 (10 + f / 2)) as [Hge | Hlt]; cbn [assert outcome_bind].
  - split; [discriminate|]. intros Hsmall. exfalso.
    assert (-16 <= f) by lia. apply H16 in H. lia.
  - split; [|reflexivity]. intros _.
    destruct (Z.lt_ge_cases E 916) as [?|Hbig]; [assumption|].
    exfalso. assert (-16 <= f) by (apply H16; lia). lia.
Qed.

(** C6 fails on the code.  [bestPower] does not clamp: for [E = 127] the
    power it computes is [10 + floor(log4(127 / 60000000)) = 0], and the
    function dies on its own [assert(power >= 2)]. *)
Theorem bestPower_is_not_clamped :
  10 + ProofSet.floor_log2_ratio 127 60000000 / 2 = 0 /\
  ProofSet.bestPower 127 = Crash "power >= 2".
Proof. split; vm_compute; reflexivity. Qed.

(** ** The hash chain *)

Lemma nBytes_eq (E : Z) : 0 < E < 2 ^ 32 -> nBytes E = (E + 7) / 8.
Proof.
  intros HE. unfold nBytes.
  rewrite (is_u32_wrap32 (E - 1)) by lia.
  assert (H : 0 <= (E - 1) / 8 <= E - 1).
  { split; [apply Z.div_pos; lia | apply Z.div_le_upper_bound; lia]. }
  rewrite is_u32_wrap32 by lia.
  replace (E + 7) with (E - 1 + 1 * 8) by lia. rewrite Z.div_add by lia. reflexivity.
Qed.

Lemma read_mem_spec (E : Z) (w : Words) :
  0 < E < 2 ^ 32 -> has_bytes E w -> read_mem w (nBytes E) = Ok (spec_bytes E w).
Proof.
  intros HE Hw. unfold read_mem, has_bytes in *.
  replace (nBytes E <=? 4 * Z.of_nat (length w)) with true
    by (symmetry; apply Z.leb_le; exact Hw).
  unfold spec_bytes. rewrite nBytes_eq by exact HE. reflexivity.
Qed.

Lemma read_mem_Ok (w : Words) (n : Z) (bs : list ascii) :
  read_mem w n = Ok bs -> n <= 4 * Z.of_nat (length w).
Proof.
  unfold read_mem. destruct (Z.leb_spec n (4 * Z.of_nat (length w))); [auto | discriminate].
Qed.

(** The challenge [hash[0]] is the low 64 bits of the digest. *)
Lemma low64_sha3 (msg : list ascii) :
  low64 (SHA3.sha3_256 msg) = nth 0 (SHA3.finish msg) 0.
Proof.
  unfold low64, SHA3.sha3_256, SHA3.finish.
  destruct (take 4 _) as [|x l]; [reflexivity|].
  cbn [map flat_map nth].
  rewrite take_app_length' by (rewrite le_bytes_length; reflexivity).
  rewrite le_value_le_bytes. change (256 ^ Z.of_nat 8) with (2 ^ 64).
  unfold wrap64. apply Z.mod_mod. lia.
Qed.

Lemma hashWords_spec (E : Z) (B : Words) :
  0 < E < 2 ^ 32 -> has_bytes E B ->
  proof.hashWords E B = Ok (SHA3.finish (spec_bytes E B)).
Proof.
  intros HE HB. unfold proof.hashWords. rewrite read_mem_spec by assumption.
  reflexivity.
Qed.

Lemma hashWords_prefix_spec (E : Z) (hash : list Z) (M : Words) :
  0 < E < 2 ^ 32 -> has_bytes E M ->
  proof.hashWords_prefix E hash M
  = Ok (SHA3.finish (flat_map (le_bytes 8) hash ++ spec_bytes E M)).
Proof.
  intros HE HM. unfold proof.hashWords_prefix. rewrite read_mem_spec by assumption.
  reflexivity.
Qed.

Lemma hashWords_prefix_Ok (E : Z) (hash hash' : list Z) (M : Words) :
  proof.hashWords_prefix E hash M = Ok hash' -> has_bytes E M.
Proof.
  unfold proof.hashWords_prefix, has_bytes.
  destruct (read_mem M (nBytes E)) as [bs|?|?] eqn:Hr; [|discriminate..].
  intros _. eapply read_mem_Ok. exact Hr.
Qed.

Lemma hashWords_Ok (E : Z) (hash : list Z) (B : Words) :
  proof.hashWords E B = Ok hash -> has_bytes E B.
Proof.
  unfold proof.hashWords, has_bytes.
  destruct (read_mem B (nBytes E)) as [bs|?|?] eqn:Hr; [|discriminate..].
  intros _. eapply read_mem_Ok. exact Hr.
Qed.

(** The running hash of the code follows the chain of the spec. *)
Lemma chain_state_spec (E : Z) (Ms : list Words) :
  0 < E < 2 ^ 32 ->
  forall hash : list Z,
    Forall (has_bytes E) Ms ->
    exists hash',
      chain_state E hash Ms
      = Ok (hash', spec_chain E (flat_map (le_bytes 8) hash) Ms).
Proof.
  intros HE. induction Ms as [|M Ms IH]; intros hash HMs.
  - exists hash. reflexivity.
  - apply Forall_cons in HMs. destruct HMs as (HM & HMs).
    cbn [chain_state spec_chain].
    rewrite hashWords_prefix_spec by assumption. cbn [outcome_bind].
    destruct (IH (SHA3.finish (flat_map (le_bytes 8) hash ++ spec_bytes E M)) HMs)
      as (hash' & Hrest).
    rewrite Hrest. cbn [outcome_bind fst snd].
    exists hash'. rewrite low64_sha3. reflexivity.
Qed.

Lemma chain_state_has_bytes (E : Z) (Ms : list Words) :
  forall (hash : list Z) (r : list Z * list Z),
    chain_state E hash Ms = Ok r -> Forall (has_bytes E) Ms.
Proof.
  induction Ms as [|M Ms IH]; intros hash r Hr; [constructor|].
  cbn [chain_state] in Hr.
  destruct (proof.hashWords_prefix E hash M) as [hash1|?|?] eqn:H1; [|discriminate..].
  cbn [outcome_bind] in Hr.
  destruct (chain_state E hash1 Ms) as [r1|?|?] eqn:H2; [|discriminate..].
  constructor; [eapply hashWords_prefix_Ok; exact H1 | eapply IH; exact H2].
Qed.

Lemma chain_state_snoc (E : Z) (Ms : list Words) (M : Words) :
  forall (hash hash1 hash2 : list Z) (hs : list Z),
    chain_state E hash Ms = Ok (hash1, hs) ->
    proof.hashWords_prefix E hash1 M = Ok hash2 ->
    chain_state E hash (Ms ++ [M]) = Ok (hash2, hs ++ [nth 0 hash2 0]).
Proof.
  induction Ms as [|M0 Ms IH]; intros hash hash1 hash2 hs Hst Hnext.
  - cbn [chain_state] in Hst. injection Hst as <- <-.
    cbn [app chain_state]. rewrite Hnext. reflexivity.
  - cbn [app chain_state] in *.
    destruct (proof.hashWords_prefix E hash M0) as [h0|?|?]; [|discriminate..].
    cbn [outcome_bind] in *.
    destruct (chain_state E h0 Ms) as [[h1 hs1]|?|?] eqn:Hrest; [|discriminate..].
    cbn [outcome_bind fst snd] in Hst. injection Hst as <- <-.
    rewrite (IH h0 h1 hash2 hs1 Hrest Hnext). reflexivity.
Qed.

(** ** verify *)

Lemma drop_nth_cases (l : list Z) (i : nat) :
  ((length l <= i)%nat /\ drop i l = []) \/
  ((i < length l)%nat /\ drop i l = nth i l 0 :: drop (S i) l).
Proof.
  destruct (Nat.le_gt_cases (length l) i) as [Hle | Hlt].
  - left. split; [exact Hle | apply drop_ge; exact Hle].
  - right. split; [exact Hlt|].
    destruct (lookup_lt_is_Some_2 l i Hlt) as (x & Hx).
    rewrite (nth_lookup_Some _ _ 0 _ Hx). apply drop_S. exact Hx.
Qed.

Lemma odd_mod2 (x : Z) : negb (x mod 2 =? 0) = Z.odd x.
Proof. rewrite Zmod_odd. destruct (Z.odd x); reflexivity. Qed.

(** The loop of [verify] runs the rounds of the spec on the recomputed
    challenges, unless an expected challenge differs on the way. *)
Lemma verify_loop_spec `{Gpu} (E : Z) (hashes : list Z) (middles : list Words) :
  0 < E < 2 ^ 32 ->
  forall (i span : Z) (hash : list Z) (A B : Words) (w : World),
    Forall (has_bytes E) middles ->
    0 <= i -> i + Z.of_nat (length middles) < 2 ^ 32 ->
    0 <= span < 2 ^ 32 - 1 ->
    exists w',
      verify_loop E hashes middles i span hash A B w =
      (Ok (if agree (drop (Z.to_nat i) hashes)
                    (spec_chain E (flat_map (le_bytes 8) hash) middles)
           then Some (spec_rounds (spec_chain E (flat_map (le_bytes 8) hash) middles)
                                  middles A B span)
           else None), w').
Proof.
  intros HE. induction middles as [|M Ms IH]; intros i span hash A B w HMs Hi Hlen Hspan.
  - exists w. cbn [verify_loop spec_chain spec_rounds].
    destruct (drop (Z.to_nat i) hashes); reflexivity.
  - apply Forall_cons in HMs. destruct HMs as (HM & HMs).
    cbn [length] in Hlen.
    cbn [verify_loop spec_chain].
    unfold io_bind at 1. unfold lift at 1.
    rewrite hashWords_prefix_spec by assumption.
    set (hash1 := SHA3.finish (flat_map (le_bytes 8) hash ++ spec_bytes E M)).
    rewrite low64_sha3. fold hash1.
    change (SHA3.sha3_256 (flat_map (le_bytes 8) hash ++ spec_bytes E M))
      with (flat_map (le_bytes 8) hash1).
    set (h := nth 0 hash1 0).
    assert (Hnext : Z.to_nat (wrap32 (i + 1)) = S (Z.to_nat i)).
    { rewrite is_u32_wrap32 by lia. lia. }
    assert (Hspan' : wrap32 (span + 1) / 2 = (span + 1) / 2)
      by (rewrite is_u32_wrap32 by lia; reflexivity).
    assert (Hspan2 : 0 <= (span + 1) / 2 < 2 ^ 32 - 1).
    { split; [apply Z.div_pos; lia | apply Z.div_lt_upper_bound; lia]. }
    destruct (drop_nth_cases hashes (Z.to_nat i)) as [(Hshort & Hdrop) | (Hin & Hdrop)].
    + rewrite Hdrop.
      replace (i <? Z.of_nat (length hashes)) with false
        by (symmetry; apply Z.ltb_ge; lia).
      cbn [andb agree spec_rounds]. rewrite odd_mod2.
      destruct (IH (wrap32 (i + 1)) (wrap32 (span + 1) / 2) hash1
                   (expMul A h M false) (expMul M h B (Z.odd span))
                   (snd ((if verbose then log (LogRound i (expMul A h M false)
                                                  (expMul M h B (Z.odd span)) h)
                          else io_ret tt) w)) HMs)
        as (w' & Hrun); [rewrite is_u32_wrap32; lia | rewrite is_u32_wrap32; lia
                        | rewrite Hspan'; exact Hspan2 |].
      rewrite Hnext, drop_ge in Hrun by lia. cbn [agree] in Hrun.
      rewrite Hspan' in Hrun.
      exists w'. unfold io_bind at 1.
      destruct verbose; cbn [log io_ret snd] in *; rewrite Hspan'; exact Hrun.
    + rewrite Hdrop.
      replace (i <? Z.of_nat (length hashes)) with true
        by (symmetry; apply Z.ltb_lt; lia).
      cbn [andb agree spec_rounds].
      destruct (h =? nth (Z.to_nat i) hashes 0) eqn:Hh; cbn [negb andb].
      * rewrite odd_mod2.
        destruct (IH (wrap32 (i + 1)) (wrap32 (span + 1) / 2) hash1
                     (expMul A h M false) (expMul M h B (Z.odd span))
                     (snd ((if verbose then log (LogRound i (expMul A h M false)
                                                    (expMul M h B (Z.odd span)) h)
                            else io_ret tt) w)) HMs)
          as (w' & Hrun); [rewrite is_u32_wrap32; lia | rewrite is_u32_wrap32; lia
                          | rewrite Hspan'; exact Hspan2 |].
        rewrite Hnext, Hspan' in Hrun.
        exists w'. unfold io_bind at 1.
        destruct verbose; cbn [log io_ret snd] in *; rewrite Hspan'; exact Hrun.
      * eexists. reflexivity.
Qed.

Lemma agree_refl (hs : list Z) : agree hs hs = true.
Proof. induction hs as [|h hs IH]; [reflexivity|]. simpl. rewrite Z.eqb_refl. exact IH. Qed.

(** What [verify] returns and what it logs last. *)
Lemma Proof_verify_spec `{Gpu} (p : Proof) (hashes : list Z) (w : World) :
  0 < Proof_E p < 2 ^ 32 - 1 ->
  0 < Z.of_nat (length (Proof_middles p)) < 2 ^ 32 ->
  Forall (has_bytes (Proof_E p)) (Proof_B p :: Proof_middles p) ->
  exists w',
    Proof_verify p hashes w =
    (Ok (agree hashes (spec_challenges (Proof_E p) (Proof_B p) (Proof_middles p))
         && spec_accepts p), w') /\
    (agree hashes (spec_challenges (Proof_E p) (Proof_B p) (Proof_middles p))
     && spec_accepts p = true ->
     List.last (console w') (LogMessage "")
     = LogProved (Proof_E p) (Words_eqb (Proof_B p) (makeWords (Proof_E p) 9))).
Proof.
  intros HE Hpower Hbytes. apply Forall_cons in Hbytes. destruct Hbytes as (HB & HMs).
  unfold Proof_verify. cbv zeta. rewrite io_bind_assert.
  rewrite is_u32_wrap32 by lia.
  replace (0 <? Z.of_nat (length (Proof_middles p))) with true
    by (symmetry; apply Z.ltb_lt; lia).
  unfold io_bind at 1. unfold lift at 1.
  rewrite hashWords_spec by (try assumption; lia).
  destruct (verify_loop_spec (Proof_E p) hashes (Proof_middles p) ltac:(lia)
              0 (Proof_E p) (SHA3.finish (spec_bytes (Proof_E p) (Proof_B p)))
              (makeWords (Proof_E p) 3) (Proof_B p) w HMs ltac:(lia) ltac:(lia) ltac:(lia))
    as (w1 & Hloop).
  change (Z.to_nat 0) with 0%nat in Hloop. rewrite drop_0 in Hloop.
  change (flat_map (le_bytes 8) (SHA3.finish (spec_bytes (Proof_E p) (Proof_B p))))
    with (spec_d0 (Proof_E p) (Proof_B p)) in Hloop.
  fold (spec_challenges (Proof_E p) (Proof_B p) (Proof_middles p)) in Hloop.
  unfold io_bind at 1. rewrite Hloop.
  unfold spec_accepts.
  destruct (agree hashes (spec_challenges (Proof_E p) (Proof_B p) (Proof_middles p))).
  - destruct (spec_rounds _ _ _ _ _) as [[A B] span].
    unfold io_bind, log, io_ret. cbn [andb console].
    destruct (Words_eqb (expExp2 A span) B); cbn [console].
    + eexists. split; [reflexivity|]. intros _.
      cbn [console]. apply last_last.
    + eexists. split; [reflexivity|]. discriminate.
  - eexists. split; [reflexivity|]. discriminate.
Qed.

(** C1, as amended.  [verify(gpu, hashes)] returns true if and only if every
    expected challenge given in [hashes] equals the recomputed one and
    [A == B] at the end of the rounds of the spec; with the default empty
    [hashes] that is: if and only if [A == B].  When it returns true the
    last line logged is the verdict, probable prime exactly when the loaded
    [B] is the encoding of 9. *)
Theorem verify_accepts_iff_hashes_agree_and_A_equals_B
    `{Gpu} (p : Proof) (hashes : list Z) (w : World) :
  0 < Proof_E p < 2 ^ 32 - 1 ->
  0 < Z.of_nat (length (Proof_middles p)) < 2 ^ 32 ->
  Forall (has_bytes (Proof_E p)) (Proof_B p :: Proof_middles p) ->
  exists (ok : bool) (w' : World),
    Proof_verify p hashes w = (Ok ok, w') /\
    (ok = true <->
     agree hashes (spec_challenges (Proof_E p) (Proof_B p) (Proof_middles p)) = true /\
     spec_accepts p = true) /\
    (hashes = [] -> (ok = true <-> spec_accepts p = true)) /\
    (ok = true ->
     List.last (console w') (LogMessage "")
     = LogProved (Proof_E p) (Words_eqb (Proof_B p) (makeWords (Proof_E p) 9))).
Proof.
  intros HE Hpower Hbytes.
  destruct (Proof_verify_spec p hashes w HE Hpower Hbytes) as (w' & Hrun & Hlog).
  eexists _, w'. split; [exact Hrun|]. split; [apply andb_true_iff|]. split.
  - intros ->. cbn [agree andb]. reflexivity.
  - exact Hlog.
Qed.

Lemma verify_witness :
  exists (ok : bool) (w' : World),
    @Proof_verify (reference_gpu 7) proof_of_7 [] empty_world = (Ok ok, w') /\
    (ok = true <->
     agree [] (spec_challenges 7 [9] [[71]]) = true /\
     @spec_accepts (reference_gpu 7) proof_of_7 = true) /\
    (@nil Z = [] -> (ok = true <-> @spec_accepts (reference_gpu 7) proof_of_7 = true)) /\
    (ok = true ->
     List.last (console w') (LogMessage "")
     = LogProved 7 (Words_eqb [9] (makeWords 7 9))).
Proof.
  apply (@verify_accepts_iff_hashes_agree_and_A_equals_B (reference_gpu 7) proof_of_7).
  - simpl. lia.
  - simpl. lia.
  - repeat constructor; unfold has_bytes; vm_compute; discriminate.
Defined.

(** C1 as stated fails: the honest proof of [E = 7] satisfies [A == B] at
    the end of the rounds, yet [verify] returns false when it is handed an
    expected challenge that differs from the recomputed one. *)
Lemma verify_rejects_when_expected_hash_differs :
  @spec_accepts (reference_gpu 7) proof_of_7 = true /\
  fst (@Proof_verify (reference_gpu 7) proof_of_7 [0] empty_world) = Ok false.
Proof. split; vm_compute; reflexivity. Qed.

Lemma io_bind_Ok {A B : Type} (m : IO A) (k : A -> IO B) (w w' : World) (b : B) :
  io_bind m k w = (Ok b, w') ->
  exists (a : A) (w1 : World), m w = (Ok a, w1) /\ k a w1 = (Ok b, w').
Proof.
  unfold io_bind. destruct (m w) as [[a | s | s] w1]; intros Hrun;
    [exists a, w1; split; [reflexivity | exact Hrun] | discriminate | discriminate].
Qed.

Lemma lift_Ok {A : Type} (m : outcome A) (w w' : World) (a : A) :
  lift m w = (Ok a, w') -> m = Ok a /\ w' = w.
Proof. unfold lift. intros [= -> ->]. split; reflexivity. Qed.

(** The levels of [computeProof] extend the hash chain by one middle each. *)
Lemma computeProof_loop_chain `{Gpu} (ps : ProofSet.t) (hash0 : list Z) (n : nat) :
  forall (p : Z) (bufVect : list Buffer) (hash : list Z) (middles : list Words)
         (hashes : list Z) (w w' : World) (ms : list Words) (hs : list Z),
    ProofSet.computeProof_loop n ps p bufVect hash middles hashes w = (Ok (ms, hs), w') ->
    chain_state (ProofSet.E ps) hash0 middles = Ok (hash, hashes) ->
    exists hash', chain_state (ProofSet.E ps) hash0 ms = Ok (hash', hs) /\
                  length ms = (n + length middles)%nat.
Proof.
  induction n as [|n IH]; intros p bufVect hash middles hashes w w' ms hs Hrun Hchain.
  - cbn [ProofSet.computeProof_loop] in Hrun. unfold io_ret in Hrun.
    injection Hrun as -> -> ->. exists hash. split; [exact Hchain | reflexivity].
  - cbn [ProofSet.computeProof_loop] in Hrun.
    apply io_bind_Ok in Hrun. destruct Hrun as (_ & w1 & _ & Hrun).
    apply io_bind_Ok in Hrun. destruct Hrun as (r & w2 & _ & Hrun).
    apply io_bind_Ok in Hrun. destruct Hrun as (_ & w3 & _ & Hrun).
    apply io_bind_Ok in Hrun. destruct Hrun as (front & w4 & _ & Hrun).
    apply io_bind_Ok in Hrun. destruct Hrun as (_ & w5 & _ & Hrun).
    apply io_bind_Ok in Hrun. destruct Hrun as (hash2 & w6 & Hhash & Hrun).
    apply io_bind_Ok in Hrun. destruct Hrun as (_ & w7 & _ & Hrun).
    apply lift_Ok in Hhash. destruct Hhash as (Hhash & _).
    destruct (IH _ _ _ _ _ _ _ _ _ Hrun
                (chain_state_snoc _ _ _ _ _ _ _ Hchain Hhash)) as (hash' & Hfinal & Hlen).
    exists hash'. split; [exact Hfinal|].
    rewrite Hlen, length_app. cbn [length]. lia.
Qed.

(** What a successful [computeProof] returns. *)
Lemma computeProof_spec `{Gpu} (ps : ProofSet.t) (w w' : World) (prf : Proof)
    (hashes : list Z) :
  0 < ProofSet.E ps < 2 ^ 32 ->
  ProofSet.computeProof ps w = (Ok (prf, hashes), w') ->
  Proof_E prf = ProofSet.E ps /\
  length (Proof_middles prf) = Z.to_nat (ProofSet.power ps) /\
  Forall (has_bytes (Proof_E prf)) (Proof_B prf :: Proof_middles prf) /\
  Proof_challenges prf = Ok hashes /\
  hashes = spec_challenges (Proof_E prf) (Proof_B prf) (Proof_middles prf).
Proof.
  intros HE Hrun. unfold ProofSet.computeProof in Hrun.
  apply io_bind_Ok in Hrun. destruct Hrun as (B & w1 & _ & Hrun).
  apply io_bind_Ok in Hrun. destruct Hrun as (hash0 & w2 & Hhash0 & Hrun).
  apply io_bind_Ok in Hrun. destruct Hrun as ([ms hs] & w3 & Hloop & Hrun).
  apply lift_Ok in Hhash0. destruct Hhash0 as (Hhash0 & _).
  unfold io_ret in Hrun. cbn [fst snd] in Hrun. injection Hrun as <- <- _.
  cbn [Proof_E Proof_B Proof_middles].
  destruct (computeProof_loop_chain ps hash0 _ _ _ _ _ _ _ _ _ _ Hloop eq_refl)
    as (hash' & Hchain & Hlen).
  pose proof (hashWords_Ok _ _ _ Hhash0) as HB.
  pose proof (chain_state_has_bytes _ _ _ _ Hchain) as HMs.
  assert (Hall : Proof_challenges (mkProof (ProofSet.E ps) (ProofSet.knownFactors ps) B ms)
                 = Ok hs).
  { unfold Proof_challenges. cbn [Proof_E Proof_B Proof_middles].
    rewrite Hhash0. cbn [outcome_bind]. rewrite Hchain. reflexivity. }
  split; [reflexivity|]. split; [cbn [length] in Hlen; lia|].
  split; [constructor; assumption|]. split; [exact Hall|].
  destruct (chain_state_spec (ProofSet.E ps) ms HE hash0 HMs) as (hash'' & Hspec).
  rewrite Hspec in Hchain. injection Hchain as _ <-.
  rewrite (hashWords_spec _ _ HE HB) in Hhash0. injection Hhash0 as <-.
  reflexivity.
Qed.

(** C2.  The challenges returned by [computeProof] are the ones [verify]
    recomputes from the proof it returns, and both are [low64 (d_{i+1})] of
    the chain [d_0 = SHA3-256 (bytes B)],
    [d_{i+1} = SHA3-256 (d_i || bytes M[i])]; the first one is the low 64
    bits of [SHA3-256 (SHA3-256 (bytes B) || bytes M[0])]; and [verify],
    handed these challenges as the expected ones, finds no mismatch: it
    returns what it returns without them. *)
Theorem computeProof_and_verify_derive_the_same_challenges
    `{Gpu} (ps : ProofSet.t) (w w' : World) (prf : Proof) (hashes : list Z) :
  0 < ProofSet.E ps < 2 ^ 32 - 1 ->
  0 < ProofSet.power ps < 2 ^ 32 ->
  ProofSet.computeProof ps w = (Ok (prf, hashes), w') ->
  hashes = spec_challenges (Proof_E prf) (Proof_B prf) (Proof_middles prf) /\
  Proof_challenges prf = Ok hashes /\
  Z.of_nat (length hashes) = ProofSet.power ps /\
  nth 0 hashes 0
  = low64 (SHA3.sha3_256
             (SHA3.sha3_256 (spec_bytes (Proof_E prf) (Proof_B prf))
              ++ spec_bytes (Proof_E prf) (nth 0 (Proof_middles prf) []))) /\
  forall w2 : World,
    fst (Proof_verify prf hashes w2) = fst (Proof_verify prf [] w2) /\
    fst (Proof_verify prf hashes w2) = Ok (spec_accepts prf).
Proof.
  intros HE Hpower Hrun.
  destruct (computeProof_spec ps w w' prf hashes ltac:(lia) Hrun)
    as (HEq & Hlen & Hbytes & Hchal & Hspec).
  assert (Hchain_len : forall Ms d, length (spec_chain (Proof_E prf) d Ms) = length Ms).
  { induction Ms as [|M Ms IH]; intros d; [reflexivity|]. cbn [spec_chain length].
    rewrite IH. reflexivity. }
  split; [exact Hspec|]. split; [exact Hchal|]. split.
  { rewrite Hspec. unfold spec_challenges. rewrite Hchain_len, Hlen. lia. }
  split.
  { rewrite Hspec. unfold spec_challenges, spec_d0.
    destruct (Proof_middles prf) as [|M0 Ms] eqn:HMs.
    - cbn [length] in Hlen. lia.
    - reflexivity. }
  intros w2.
  assert (HE' : 0 < Proof_E prf < 2 ^ 32 - 1) by (rewrite HEq; exact HE).
  assert (Hlen' : 0 < Z.of_nat (length (Proof_middles prf)) < 2 ^ 32)
    by (rewrite Hlen; lia).
  destruct (Proof_verify_spec prf hashes w2 HE' Hlen' Hbytes) as (wa & Ha & _).
  destruct (Proof_verify_spec prf [] w2 HE' Hlen' Hbytes) as (wb & Hb & _).
  rewrite Ha, Hb. cbn [fst agree andb].
  rewrite <- Hspec, agree_refl. split; reflexivity.
Qed.

Lemma computeProof_witness :
  [14293653080267347685] = spec_challenges 7 [9] [[71]] /\
  Proof_challenges proof_of_7 = Ok [14293653080267347685] /\
  Z.of_nat (length [14293653080267347685]) = 1 /\
  nth 0 [14293653080267347685] 0
  = low64 (SHA3.sha3_256 (SHA3.sha3_256 (spec_bytes 7 [9]) ++ spec_bytes 7 [71])) /\
  forall w2 : World,
    fst (@Proof_verify (reference_gpu 7) proof_of_7 [14293653080267347685] w2)
    = fst (@Proof_verify (reference_gpu 7) proof_of_7 [] w2) /\
    fst (@Proof_verify (reference_gpu 7) proof_of_7 [14293653080267347685] w2)
    = Ok (@spec_accepts (reference_gpu 7) proof_of_7).
Proof.
  apply (@computeProof_and_verify_derive_the_same_challenges (reference_gpu 7)
           (ProofSet.mk 7 [] 1 [4; 7; u32_max] 0)
           (save_all 7 1 (prp_residue 7) [4; 7] empty_world)
           (snd (@ProofSet.computeProof (reference_gpu 7)
                   (ProofSet.mk 7 [] 1 [4; 7; u32_max] 0)
                   (save_all 7 1 (prp_residue 7) [4; 7] empty_world)))
           proof_of_7 [14293653080267347685]).
  - simpl. lia.
  - simpl. lia.
  - vm_compute. reflexivity.
Defined.

(** ** Decimal numerals *)

Lemma is_digit_range (c : ascii) : is_digit c = true <-> 48 <= Z_of_byte c <= 57.
Proof.
  unfold is_digit, File.digit_of.
  destruct ((48 <=? Z_of_byte c) && (Z_of_byte c <=? 57)) eqn:Hc.
  - apply andb_true_iff in Hc. split; [lia | reflexivity].
  - apply andb_false_iff in Hc. split; [discriminate | lia].
Qed.

Lemma digit_of_digit (c : ascii) :
  is_digit c = true -> File.digit_of c = Some (Z_of_byte c - 48).
Proof.
  intros Hc. apply is_digit_range in Hc. unfold File.digit_of.
  replace ((48 <=? Z_of_byte c) && (Z_of_byte c <=? 57)) with true; [reflexivity|].
  symmetry. apply andb_true_iff. lia.
Qed.

Lemma digit_not_space (c : ascii) : is_digit c = true -> File.is_space c = false.
Proof.
  intros Hc. apply is_digit_range in Hc. unfold File.is_space.
  apply orb_false_iff. split; [lia|]. apply andb_false_iff. lia.
Qed.

Lemma digit_cases (c : ascii) :
  is_digit c = true ->
  In c ["0"; "1"; "2"; "3"; "4"; "5"; "6"; "7"; "8"; "9"]%char.
Proof.
  destruct c as [[] [] [] [] [] [] [] []]; vm_compute; intros Hc;
    try discriminate Hc; tauto.
Qed.

Lemma starts_with_digit_cons (c : ascii) (r : list ascii) :
  File.starts_with_digit (c :: r) = is_digit c.
Proof.
  unfold File.starts_with_digit, is_digit.
  destruct (File.digit_of c); [apply bool_decide_eq_true; eauto|].
  apply bool_decide_eq_false. intros [x Hx]. discriminate.
Qed.

Lemma scan_digits_app (ds rest : list ascii) :
  Forall (fun c => is_digit c = true) ds ->
  File.starts_with_digit rest = false ->
  forall acc : Z,
    File.scan_digits acc (ds ++ rest)
    = (fold_left (fun acc c => acc * 10 + (Z_of_byte c - 48)) ds acc, rest).
Proof.
  intros Hds Hrest. induction Hds as [|c ds Hc Hds IH]; intros acc.
  - cbn [app fold_left]. destruct rest as [|c r]; [reflexivity|].
    rewrite starts_with_digit_cons in Hrest. unfold is_digit in Hrest.
    cbn [File.scan_digits]. destruct (File.digit_of c); [discriminate | reflexivity].
  - cbn [app fold_left File.scan_digits]. rewrite (digit_of_digit c Hc). apply IH.
Qed.

Lemma pretty_N_char_digit (n : N) :
  is_digit (pretty_N_char n) = true /\
  ((n < 10)%N -> Z_of_byte (pretty_N_char n) - 48 = Z.of_N n).
Proof.
  split.
  - unfold pretty_N_char. repeat case_match; reflexivity.
  - intros Hn. rewrite <- (N2Nat.id n).
    assert (Hm : (N.to_nat n < 10)%nat) by lia. clear Hn.
    generalize dependent (N.to_nat n). intros m Hm.
    do 10 (destruct m as [|m]; [reflexivity|]). lia.
Qed.

Lemma pretty_N_go_digits (x : N) :
  forall s : string,
  exists ds : list ascii,
    list_ascii_of_string (pretty_N_go x s) = ds ++ list_ascii_of_string s /\
    Forall (fun c => is_digit c = true) ds /\
    decimal_value ds = Z.of_N x.
Proof.
  induction (N.lt_wf_0 x) as [x _ IH]. intros s.
  destruct (N.eq_dec x 0%N) as [-> | Hx].
  - exists []. rewrite pretty_N_go_0. repeat split. constructor.
  - rewrite pretty_N_go_step by lia.
    destruct (IH (x `div` 10)%N ltac:(apply N.div_lt; lia)
                 (String (pretty_N_char (x `mod` 10)) s)) as (ds & Hds & Hdig & Hval).
    destruct (pretty_N_char_digit (x `mod` 10)%N) as (Hc & Hcv).
    exists (ds ++ [pretty_N_char (x `mod` 10)]). split; [|split].
    + rewrite Hds. cbn [list_ascii_of_string]. rewrite <- app_assoc. reflexivity.
    + apply Forall_app. split; [exact Hdig|]. constructor; [exact Hc | constructor].
    + unfold decimal_value in *. rewrite fold_left_app. cbn [fold_left].
      rewrite Hval, Hcv by (apply N.mod_lt; lia).
      rewrite (N.div_mod x 10) at 3 by lia. lia.
Qed.

Lemma to_string_digits (n : Z) :
  0 <= n ->
  exists ds : list ascii,
    list_ascii_of_string (to_string n) = ds /\ ds <> [] /\
    Forall (fun c => is_digit c = true) ds /\ decimal_value ds = n.
Proof.
  intros Hn. destruct n as [|p|p]; [| |lia].
  - exists ["0"%char]. repeat split; [discriminate|].
    constructor; [reflexivity | constructor].
  - unfold to_string, pretty, pretty_Z, pretty, pretty_positive, pretty, pretty_N.
    destruct (decide (N.pos p = 0%N)) as [Hp|_]; [discriminate|].
    destruct (pretty_N_go_digits (N.pos p) "") as (ds & Hds & Hdig & Hval).
    cbn [list_ascii_of_string] in Hds. rewrite app_nil_r in Hds.
    exists ds. repeat split; try assumption.
    intros ->. discriminate Hval.
Qed.

Lemma decimal_value_from (ds : list ascii) (acc : Z) :
  fold_left (fun acc c => acc * 10 + (Z_of_byte c - 48)) ds acc
  = acc * 10 ^ Z.of_nat (length ds) + decimal_value ds.
Proof.
  unfold decimal_value. revert acc.
  induction ds as [|c ds IH]; intros acc.
  - cbn. lia.
  - cbn [fold_left length]. rewrite IH, (IH (0 * 10 + _)).
    rewrite Nat2Z.inj_succ, Z.pow_succ_r by lia. lia.
Qed.

Lemma decimal_value_nonneg (ds : list ascii) :
  Forall (fun c => is_digit c = true) ds -> 0 <= decimal_value ds.
Proof.
  intros Hds. unfold decimal_value.
  assert (Hgen : forall acc, 0 <= acc ->
            0 <= fold_left (fun acc c => acc * 10 + (Z_of_byte c - 48)) ds acc).
  { induction Hds as [|c ds Hc Hds IH]; intros acc Hacc; [exact Hacc|].
    cbn [fold_left]. apply IH. apply is_digit_range in Hc. lia. }
  apply Hgen. lia.
Qed.

(** [from_chars] reads back what [to_string] wrote. *)
Lemma from_chars_to_string (E : Z) :
  0 <= E < 2 ^ 32 -> from_chars (to_string E) = ([], errc_none, E).
Proof.
  intros HE. destruct (to_string_digits E ltac:(lia)) as (ds & Hds & Hne & Hdig & Hval).
  unfold from_chars. rewrite Hds.
  destruct ds as [|c ds]; [congruence|].
  rewrite starts_with_digit_cons. rewrite (Forall_inv Hdig).
  rewrite <- (app_nil_r (c :: ds)).
  rewrite scan_digits_app by (try exact Hdig; reflexivity).
  fold (decimal_value (c :: ds)). rewrite Hval.
  replace (E <=? u32_max) with true; [reflexivity|].
  symmetry. apply Z.leb_le. unfold u32_max. lia.
Qed.

(** ** The NUMBER field *)

Lemma list_ascii_of_string_append (a b : string) :
  list_ascii_of_string (a +:+ b) = list_ascii_of_string a ++ list_ascii_of_string b.
Proof.
  induction a as [|c a IH]; [reflexivity|].
  change (String c a +:+ b) with (String c (a +:+ b)).
  cbn [list_ascii_of_string app]. rewrite IH. reflexivity.
Qed.

Lemma mersenneToString_chars (E : Z) (fs : list string) :
  list_ascii_of_string (proof.mersenneToString E fs)
  = "M"%char :: list_ascii_of_string (to_string E)
    ++ flat_map (fun f => "/"%char :: list_ascii_of_string f) fs.
Proof.
  unfold proof.mersenneToString.
  assert (Hgen : forall init : string,
            list_ascii_of_string
              (fold_left (fun result factor => result +:+ ("/" +:+ factor)) fs init)
            = list_ascii_of_string init
              ++ flat_map (fun f => "/"%char :: list_ascii_of_string f) fs).
  { induction fs as [|f fs IH]; intros init.
    - cbn [fold_left flat_map]. rewrite app_nil_r. reflexivity.
    - cbn [fold_left flat_map]. rewrite IH, list_ascii_of_string_append.
      rewrite <- app_assoc. reflexivity. }
  rewrite Hgen. reflexivity.
Qed.

Lemma is_decimal_chars (f : string) :
  is_decimal f = true ->
  exists (c : ascii) (r : list ascii),
    list_ascii_of_string f = c :: r /\ c <> "0"%char /\
    Forall (fun c => is_digit c = true) (c :: r).
Proof.
  unfold is_decimal. destruct (list_ascii_of_string f) as [|c r]; [discriminate|].
  intros Hf. apply andb_true_iff in Hf. destruct Hf as (Hc & Hall).
  exists c, r. split; [reflexivity|]. split.
  - intros ->. discriminate Hc.
  - apply List.Forall_forall. intros x Hx.
    exact (proj1 (List.forallb_forall _ _) Hall x Hx).
Qed.

Lemma digit_not_slash (c : ascii) : is_digit c = true -> Ascii.eqb c "/" = false.
Proof.
  intros Hc. apply Ascii.eqb_neq. intros ->. discriminate Hc.
Qed.

Lemma split_chars_piece (l rest : list ascii) :
  Forall (fun c => Ascii.eqb c "/" = false) l ->
  split_chars (l ++ "/"%char :: rest) "/" = l :: split_chars rest "/".
Proof.
  intros Hl. induction Hl as [|c l Hc Hl IH]; [reflexivity|].
  cbn [app split_chars]. rewrite Hc, IH. reflexivity.
Qed.

Lemma split_chars_last (l : list ascii) :
  Forall (fun c => Ascii.eqb c "/" = false) l -> split_chars l "/" = [l].
Proof.
  intros Hl. induction Hl as [|c l Hc Hl IH]; [reflexivity|].
  cbn [split_chars]. rewrite Hc, IH. reflexivity.
Qed.

Lemma split_chars_join (l0 : list ascii) (fs : list (list ascii)) :
  Forall (Forall (fun c => Ascii.eqb c "/" = false)) (l0 :: fs) ->
  split_chars (l0 ++ flat_map (fun f => "/"%char :: f) fs) "/" = l0 :: fs.
Proof.
  revert l0. induction fs as [|f fs IH]; intros l0 Hall.
  - cbn [flat_map]. rewrite app_nil_r. apply split_chars_last.
    exact (Forall_inv Hall).
  - cbn [flat_map]. change (("/"%char :: f) ++ ?x) with ("/"%char :: (f ++ x)).
    rewrite split_chars_piece by exact (Forall_inv Hall).
    rewrite IH by exact (Forall_inv_tail Hall). reflexivity.
Qed.

Lemma digits_value_decimal (ds : list ascii) :
  Forall (fun c => is_digit c = true) ds ->
  forall acc : Z,
    digits_value 10 acc ds
    = Some (fold_left (fun acc c => acc * 10 + (Z_of_byte c - 48)) ds acc).
Proof.
  intros Hds. induction Hds as [|c ds Hc Hds IH]; intros acc; [reflexivity|].
  cbn [digits_value fold_left]. unfold digit_value.
  apply is_digit_range in Hc.
  replace ((48 <=? Z_of_byte c) && (Z_of_byte c <=? 57)) with true
    by (symmetry; apply andb_true_iff; lia).
  replace (Z_of_byte c - 48 <? 10) with true by (symmetry; apply Z.ltb_lt; lia).
  apply IH.
Qed.

Lemma filter_not_space_digits (ds : list ascii) :
  Forall (fun c => is_digit c = true) ds ->
  filter (fun c => File.is_space c = false) ds = ds.
Proof.
  intros Hds. induction Hds as [|c ds Hc Hds IH]; [reflexivity|].
  rewrite filter_cons_True by (apply digit_not_space; exact Hc).
  rewrite IH. reflexivity.
Qed.

Lemma c_str_digits (ds : list ascii) :
  Forall (fun c => is_digit c = true) ds -> c_str ds = ds.
Proof.
  intros Hds. induction Hds as [|c ds Hc Hds IH]; [reflexivity|].
  cbn [c_str]. apply is_digit_range in Hc.
  replace (Z_of_byte c =? 0) with false by (symmetry; apply Z.eqb_neq; lia).
  rewrite IH. reflexivity.
Qed.

(** GMP reads a decimal numeral without a leading zero in base ten. *)
Lemma mpz_of_string_decimal (f : string) :
  is_decimal f = true -> exists v : Z, mpz_of_string f = Some v /\ 0 < v.
Proof.
  intros Hf. destruct (is_decimal_chars f Hf) as (c & r & Hchars & Hc & Hdig).
  unfold mpz_of_string. rewrite Hchars, (c_str_digits _ Hdig).
  pose proof (Forall_inv Hdig) as Hcd. pose proof (Forall_inv_tail Hdig) as Hrd.
  assert (Hval : 0 < fold_left (fun acc c => acc * 10 + (Z_of_byte c - 48)) (c :: r) 0).
  { cbn [fold_left]. rewrite decimal_value_from.
    pose proof (decimal_value_nonneg r Hrd) as Hr.
    assert (Hc0 : 0 < Z_of_byte c - 48).
    { destruct (digit_cases c Hcd) as [<- | Hcases]; [congruence|].
      repeat (destruct Hcases as [<- | Hcases]; [reflexivity|]). destruct Hcases. }
    assert (Hpow : 0 < 10 ^ Z.of_nat (length r)) by (apply Z.pow_pos_nonneg; lia).
    nia. }
  exists (fold_left (fun acc c => acc * 10 + (Z_of_byte c - 48)) (c :: r) 0).
  split; [|exact Hval].
  pose proof (digits_value_decimal _ Hdig 0) as Hdv.
  rewrite <- (filter_not_space_digits _ Hdig) in Hdv at 1.
  destruct (digit_cases c Hcd) as [<- | Hcases]; [congruence|].
  repeat (destruct Hcases as [<- | Hcases];
          [match goal with
           | |- _ = Some ?v =>
               match type of Hdv with
               | digits_value 10 0 ?l = _ =>
                   change (match digits_value 10 0 l with
                           | Some v' => Some v'
                           | None => None
                           end = Some v)
               end
           end; rewrite Hdv; reflexivity|]).
  destruct Hcases.
Qed.

Lemma parse_factors_decimal (fs : list string) :
  Forall (fun f => is_decimal f = true) fs ->
  forall acc : list string, proof.parse_factors fs acc = Ok (acc ++ fs).
Proof.
  intros Hfs. induction Hfs as [|f fs Hf Hfs IH]; intros acc.
  - cbn [proof.parse_factors]. rewrite app_nil_r. reflexivity.
  - cbn [proof.parse_factors].
    destruct (mpz_of_string_decimal f Hf) as (v & Hv & Hpos).
    rewrite bool_decide_eq_false_2.
    2:{ intros ->. discriminate Hf. }
    rewrite Hv. replace (v <=? 0) with false by (symmetry; apply Z.leb_gt; lia).
    rewrite IH, <- app_assoc. reflexivity.
Qed.

(** [mersenneFromString] reads back what [mersenneToString] wrote. *)
Lemma mersenneFromString_mersenneToString (E : Z) (fs : list string) :
  0 <= E < 2 ^ 32 ->
  Forall (fun f => is_decimal f = true) fs ->
  proof.mersenneFromString (proof.mersenneToString E fs) = Ok (E, fs).
Proof.
  intros HE Hfs.
  pose proof (mersenneToString_chars E fs) as Hchars.
  apply (f_equal string_of_list_ascii) in Hchars.
  rewrite string_of_list_ascii_of_string in Hchars. rewrite Hchars.
  cbn [string_of_list_ascii]. unfold proof.mersenneFromString, split.
  rewrite list_ascii_of_string_of_list_ascii.
  destruct (to_string_digits E ltac:(lia)) as (ds & Hds & Hne & Hdig & Hval).
  replace (flat_map (fun f => "/"%char :: list_ascii_of_string f) fs)
    with (flat_map (fun f => "/"%char :: f) (map list_ascii_of_string fs)).
  2:{ clear. induction fs as [|f fs IH]; [reflexivity|]. cbn. rewrite IH. reflexivity. }
  rewrite split_chars_join.
  2:{ constructor.
      - rewrite Hds. eapply Forall_impl; [exact Hdig|]. intros c. apply digit_not_slash.
      - apply Forall_map. eapply Forall_impl; [exact Hfs|]. intros f Hf. cbn.
        destruct (is_decimal_chars f Hf) as (c & r & -> & _ & Hfd).
        eapply Forall_impl; [exact Hfd|]. intros x. apply digit_not_slash. }
  cbn [map]. rewrite string_of_list_ascii_of_string.
  rewrite from_chars_to_string by exact HE.
  rewrite map_map.
  replace (map (fun x => string_of_list_ascii (list_ascii_of_string x)) fs) with fs.
  2:{ clear. induction fs as [|f fs IH]; [reflexivity|]. cbn [map].
      rewrite string_of_list_ascii_of_string, <- IH. reflexivity. }
  rewrite parse_factors_decimal by exact Hfs. reflexivity.
Qed.

(** ** The header *)

Lemma format_header (power : Z) (number : string) :
  File.format (File.parse_format (list_ascii_of_string HEADER_v2))
              [File.AUnsigned power; File.AString number; File.AChar newline]
  = header_prefix ++ list_ascii_of_string (to_string power)
    ++ header_middle ++ list_ascii_of_string number ++ [newline].
Proof.
  set (ds := File.parse_format (list_ascii_of_string HEADER_v2)).
  vm_compute in ds. subst ds. cbn [File.format].
  reflexivity.
Qed.

Lemma scan_token_app (tok rest : list ascii) :
  Forall (fun c => File.is_space c = false) tok ->
  File.scan_token (tok ++ newline :: rest) = (tok, newline :: rest).
Proof.
  intros Htok. induction Htok as [|c tok Hc Htok IH]; [reflexivity|].
  cbn [app File.scan_token]. rewrite Hc, IH. reflexivity.
Qed.

Lemma scan_lit (c : ascii) (ds : list File.directive) (inp : list ascii) :
  File.is_space c = false ->
  File.scan (File.DLit c :: ds) (c :: inp) = File.scan ds inp.
Proof.
  intros Hc. cbn [File.scan]. rewrite Hc, Ascii.eqb_refl. reflexivity.
Qed.

Lemma scan_lit_space (c c' : ascii) (ds : list File.directive) (inp : list ascii) :
  File.is_space c = true -> File.is_space c' = false ->
  File.scan (File.DLit c :: ds) (c :: c' :: inp) = File.scan ds (c' :: inp).
Proof.
  intros Hc Hc'. cbn [File.scan File.skip_space]. rewrite Hc, Hc'. reflexivity.
Qed.

Lemma scan_unsigned_digits (ds rest : list ascii) :
  ds <> [] -> Forall (fun c => is_digit c = true) ds ->
  File.starts_with_digit rest = false ->
  File.scan_unsigned (ds ++ rest) = Some (wrap32 (decimal_value ds), rest).
Proof.
  intros Hne Hdig Hrest. destruct ds as [|c ds]; [congruence|].
  pose proof (scan_digits_app (c :: ds) rest Hdig Hrest 0) as Hscan.
  fold (decimal_value (c :: ds)) in Hscan. cbn [app] in Hscan.
  destruct (digit_cases c (Forall_inv Hdig)) as [<- | Hcases];
    [unfold File.scan_unsigned; cbn [app File.skip_space];
     change (File.is_space _) with false; cbv iota;
     rewrite starts_with_digit_cons; change (is_digit _) with true; cbv iota;
     rewrite Hscan; reflexivity|].
  repeat (destruct Hcases as [<- | Hcases];
    [unfold File.scan_unsigned; cbn [app File.skip_space];
     change (File.is_space _) with false; cbv iota;
     rewrite starts_with_digit_cons; change (is_digit _) with true; cbv iota;
     rewrite Hscan; reflexivity|]).
  destruct Hcases.
Qed.

Lemma scan_unsigned_step (ds : list File.directive) (inp r : list ascii) (v : Z) :
  File.scan_unsigned inp = Some (v, r) ->
  File.scan (File.DUnsigned :: ds) inp
  = let '(args, r') := File.scan ds r in (File.AUnsigned v :: args, r').
Proof. intros Hv. cbn [File.scan]. rewrite Hv. reflexivity. Qed.

Lemma scan_string_token (tok rest : list ascii) :
  tok <> [] -> Forall (fun c => File.is_space c = false) tok ->
  File.scan_string (tok ++ newline :: rest)
  = Some (string_of_list_ascii tok, newline :: rest).
Proof.
  intros Hne Htok. destruct tok as [|c tok]; [congruence|].
  unfold File.scan_string. cbn [app File.skip_space].
  rewrite (Forall_inv Htok).
  change (c :: tok ++ newline :: rest) with ((c :: tok) ++ newline :: rest).
  rewrite scan_token_app by exact Htok. reflexivity.
Qed.

Lemma scan_header (ds tok data : list ascii) :
  ds <> [] -> Forall (fun c => is_digit c = true) ds ->
  tok <> [] -> Forall (fun c => File.is_space c = false) tok ->
  File.scan (File.parse_format (list_ascii_of_string HEADER_v2))
            (header_prefix ++ ds ++ header_middle ++ tok ++ newline :: data)
  = ([File.AUnsigned (wrap32 (decimal_value ds));
      File.AString (string_of_list_ascii tok); File.AChar newline], data).
Proof.
  intros Hds Hdig Htok Hsp.
  set (fmt := File.parse_format (list_ascii_of_string HEADER_v2)).
  vm_compute in fmt. subst fmt.
  set (pre := header_prefix). vm_compute in pre. subst pre.
  set (mid := header_middle). vm_compute in mid. subst mid.
  cbn [app].
  repeat first [ rewrite scan_lit by reflexivity
               | rewrite scan_lit_space by reflexivity ].
  match goal with
  | |- context [File.scan (File.DUnsigned :: ?fmt) (ds ++ ?rest)] =>
      rewrite (scan_unsigned_step fmt (ds ++ rest) rest _
                 (scan_unsigned_digits ds rest Hds Hdig eq_refl))
  end.
  repeat first [ rewrite scan_lit by reflexivity
               | rewrite scan_lit_space by reflexivity ].
  cbn [File.scan].
  rewrite scan_string_token by assumption.
  reflexivity.
Qed.

(** ** Residues in a proof file *)

Lemma words_value_nonneg (w : Words) : Forall is_u32 w -> 0 <= words_value w.
Proof.
  intros Hw. induction Hw as [|x w Hx Hw IH]; [cbn; lia|].
  unfold words_value in *. cbn [fold_right]. unfold is_u32 in Hx. lia.
Qed.

Lemma words_value_snoc (init : Words) (last : Z) :
  words_value (init ++ [last])
  = words_value init + 2 ^ (32 * Z.of_nat (length init)) * last.
Proof.
  unfold words_value. induction init as [|x init IH].
  - cbn. lia.
  - cbn [app fold_right length]. rewrite IH.
    replace (32 * Z.of_nat (S (length init))) with (32 + 32 * Z.of_nat (length init))
      by lia.
    rewrite Z.pow_add_r by lia. lia.
Qed.

Lemma group_values_nil (fuel k : nat) : group_values fuel k [] = [].
Proof. destruct fuel; reflexivity. Qed.

Lemma group_values_words (init : Words) (tail : list ascii) :
  Forall is_u32 init ->
  forall fuel : nat,
    group_values (length init + fuel) 4 (Words_data init ++ tail)
    = init ++ group_values fuel 4 tail.
Proof.
  intros Hinit. induction Hinit as [|x init Hx Hinit IH]; intros fuel; [reflexivity|].
  rewrite Words_data_cons. cbn [length Nat.add le_bytes app group_values take drop].
  rewrite IH, take_0.
  change (le_value [byte_of_Z x; byte_of_Z (x / 256); byte_of_Z (x / 256 / 256);
                    byte_of_Z (x / 256 / 256 / 256)])
    with (le_value (le_bytes 4 x)).
  rewrite le_value_le_bytes. unfold is_u32 in Hx.
  rewrite Z.mod_small by (change (256 ^ Z.of_nat 4) with (2 ^ 32); lia).
  reflexivity.
Qed.

Lemma take_le_bytes (r n : nat) (v : Z) :
  (r <= n)%nat -> take r (le_bytes n v) = le_bytes r v.
Proof.
  revert n v. induction r as [|r IH]; intros n v Hr; [reflexivity|].
  destruct n as [|n]; [lia|]. cbn [le_bytes take]. rewrite IH by lia. reflexivity.
Qed.

Lemma canonical_has_bytes (E : Z) (w : Words) :
  0 < E < 2 ^ 32 -> canonical E w -> has_bytes E w.
Proof.
  intros HE (Hlen & _ & _). unfold has_bytes. rewrite nBytes_eq by exact HE.
  rewrite Hlen. Z.to_euclidean_division_equations. lia.
Qed.

Lemma spec_bytes_length (E : Z) (w : Words) :
  0 < E < 2 ^ 32 -> has_bytes E w ->
  Z.of_nat (length (spec_bytes E w)) = nBytes E.
Proof.
  intros HE Hw. unfold has_bytes in Hw. rewrite nBytes_eq in * by exact HE.
  unfold spec_bytes. rewrite length_take, Words_data_length.
  assert (0 <= (E + 7) / 8) by (apply Z.div_pos; lia). lia.
Qed.

(** The words of a canonical residue are read back from its bytes. *)
Lemma words_of_bytes_spec_bytes (E : Z) (w : Words) :
  0 < E < 2 ^ 32 -> canonical E w -> words_of_bytes (spec_bytes E w) = w.
Proof.
  intros HE (Hlen & Hu32 & Hval).
  assert (Hq : 0 <= (E - 1) / 32) by (apply Z.div_pos; lia).
  destruct (exists_last (l := w)) as (init & last & ->).
  { intros ->. cbn [length] in Hlen. lia. }
  rewrite length_app in Hlen. cbn [length] in Hlen.
  apply Forall_app in Hu32. destruct Hu32 as (Hinit & Hlast).
  apply Forall_inv in Hlast.
  rewrite words_value_snoc in Hval.
  pose proof (words_value_nonneg init Hinit) as Hinit0.
  set (r := Z.to_nat ((E + 7) / 8 - 4 * ((E - 1) / 32))).
  assert (Hr : (1 <= r <= 4)%nat)
    by (subst r; Z.to_euclidean_division_equations; lia).
  assert (Hbytes : spec_bytes E (init ++ [last]) = Words_data init ++ le_bytes r last).
  { unfold spec_bytes, Words_data. rewrite flat_map_app. cbn [flat_map].
    rewrite app_nil_r. fold (Words_data init).
    rewrite take_app, (take_ge (Words_data init)), Words_data_length
      by (rewrite Words_data_length; lia).
    replace (Z.to_nat ((E + 7) / 8) - 4 * length init)%nat with r by (subst r; lia).
    rewrite take_le_bytes by lia. reflexivity. }
  assert (Hsmall : last < 256 ^ Z.of_nat r).
  { replace (8 * ((E + 7) / 8))
      with (32 * Z.of_nat (length init) + 8 * Z.of_nat r) in Hval
      by (subst r; Z.to_euclidean_division_equations; lia).
    rewrite Z.pow_add_r in Hval by lia.
    replace (256 ^ Z.of_nat r) with (2 ^ (8 * Z.of_nat r))
      by (rewrite Z.pow_mul_r by lia; reflexivity).
    assert (Hpow : 0 < 2 ^ (32 * Z.of_nat (length init)))
      by (apply Z.pow_pos_nonneg; lia).
    nia. }
  rewrite Hbytes. unfold words_of_bytes.
  rewrite length_app, Words_data_length, le_bytes_length.
  replace (4 * length init + r)%nat with (length init + (3 * length init + r))%nat by lia.
  rewrite group_values_words by exact Hinit.
  f_equal.
  destruct (3 * length init + r)%nat as [|fuel] eqn:Hfuel; [lia|].
  assert (Hcases : r = 1%nat \/ r = 2%nat \/ r = 3%nat \/ r = 4%nat) by lia.
  unfold is_u32 in Hlast.
  assert (Hgroup : le_value (take 4 (le_bytes r last)) = last).
  { rewrite take_ge by (rewrite le_bytes_length; lia).
    rewrite le_value_le_bytes. apply Z.mod_small. lia. }
  assert (Hdrop : drop 4 (le_bytes r last) = [])
    by (apply drop_ge; rewrite le_bytes_length; lia).
  destruct (le_bytes r last) as [|b bs] eqn:Hle.
  { apply (f_equal length) in Hle. rewrite le_bytes_length in Hle. cbn in Hle. lia. }
  cbn [group_values]. rewrite Hgroup, Hdrop, group_values_nil. reflexivity.
Qed.

(** ** Saving and loading a proof *)

Lemma write_words_spec (fo : File.t) (E : Z) (ws : list Words) :
  0 < E < 2 ^ 32 -> Forall (has_bytes E) ws ->
  forall (w : World) (d : list ascii),
    files w !! File.path fo = Some d ->
    exists w1,
      write_words fo E ws w = (Ok tt, w1) /\
      files w1 !! File.path fo = Some (d ++ flat_map (spec_bytes E) ws).
Proof.
  intros HE Hws. induction Hws as [|x ws Hx Hws IH]; intros w d Hd.
  - exists w. cbn [write_words flat_map]. rewrite app_nil_r.
    split; [reflexivity | exact Hd].
  - cbn [write_words flat_map]. unfold io_bind at 1. unfold lift at 1.
    rewrite read_mem_spec by assumption.
    unfold io_bind at 1. unfold File.write at 1.
    destruct (IH (touch (IoWrite (File.path fo))
                    (set_files (alter (fun d => d ++ spec_bytes E x) (File.path fo)
                                      (files w)) w))
                 (d ++ spec_bytes E x)) as (w1 & Hrun & Hfiles).
    { cbn [files touch set_files]. rewrite lookup_alter_eq, Hd. reflexivity. }
    exists w1. split; [exact Hrun|]. rewrite Hfiles, <- app_assoc. reflexivity.
Qed.

Lemma Proof_save_spec (p : Proof) (path : string) (w : World) :
  0 < Proof_E p < 2 ^ 32 ->
  Forall (has_bytes (Proof_E p)) (Proof_B p :: Proof_middles p) ->
  exists w1,
    Proof_save p path w = (Ok tt, w1) /\
    files w1 !! path
    = Some ((header_prefix
             ++ list_ascii_of_string
                  (to_string (wrap32 (Z.of_nat (length (Proof_middles p)))))
             ++ header_middle
             ++ list_ascii_of_string
                  (proof.mersenneToString (Proof_E p) (Proof_knownFactors p))
             ++ [newline])
            ++ flat_map (spec_bytes (Proof_E p)) (Proof_B p :: Proof_middles p)).
Proof.
  intros HE Hbytes. unfold Proof_save.
  unfold io_bind at 1. unfold File.openWrite at 1.
  unfold io_bind at 1. unfold File.printf, File.write at 1. cbn [File.path].
  rewrite format_header.
  set (w0 := touch _ (set_files (alter _ _ _) _)).
  assert (Hw0 : files w0 !! File.path (File.mk path [])
                = Some ([] ++ header_prefix
                        ++ list_ascii_of_string
                             (to_string (wrap32 (Z.of_nat (length (Proof_middles p)))))
                        ++ header_middle
                        ++ list_ascii_of_string
                             (proof.mersenneToString (Proof_E p) (Proof_knownFactors p))
                        ++ [newline])).
  { subst w0. cbn [files touch set_files File.path].
    rewrite lookup_alter_eq, lookup_insert_eq. reflexivity. }
  cbn [app] in Hw0.
  destruct (write_words_spec (File.mk path []) (Proof_E p) [Proof_B p] HE
              ltac:(constructor; [exact (Forall_inv Hbytes) | constructor]) w0 _ Hw0)
    as (w1 & Hrun1 & Hfiles1).
  destruct (write_words_spec (File.mk path []) (Proof_E p) (Proof_middles p) HE
              (Forall_inv_tail Hbytes) w1 _ Hfiles1) as (w2 & Hrun2 & Hfiles2).
  exists w2. unfold io_bind. rewrite Hrun1, Hrun2. split; [reflexivity|].
  cbn [File.path] in Hfiles2. rewrite Hfiles2.
  cbn [flat_map]. rewrite app_nil_r, <- !app_assoc. reflexivity.
Qed.

Lemma read_middles_spec (E : Z) (path : string) (ms : list Words) :
  0 < E < 2 ^ 32 -> Forall (canonical E) ms ->
  forall (acc : list Words) (rest : list ascii),
    read_middles (length ms) (nBytes E)
                 (File.mk path (flat_map (spec_bytes E) ms ++ rest)) acc
    = Ok (acc ++ ms).
Proof.
  intros HE Hms. induction Hms as [|m ms Hm Hms IH]; intros acc rest.
  - cbn [length read_middles]. rewrite app_nil_r. reflexivity.
  - cbn [length read_middles flat_map]. unfold File.readBytesLE.
    rewrite <- app_assoc.
    rewrite read_app
      by (symmetry; apply spec_bytes_length;
          [exact HE | apply canonical_has_bytes; assumption]).
    cbn [outcome_bind fst snd].
    rewrite words_of_bytes_spec_bytes by assumption.
    rewrite IH, <- app_assoc. reflexivity.
Qed.

Lemma mersenneToString_token (E : Z) (fs : list string) :
  0 <= E ->
  Forall (fun f => is_decimal f = true) fs ->
  list_ascii_of_string (proof.mersenneToString E fs) <> [] /\
  Forall (fun c => File.is_space c = false)
         (list_ascii_of_string (proof.mersenneToString E fs)).
Proof.
  intros HE Hfs. rewrite mersenneToString_chars. split; [discriminate|].
  destruct (to_string_digits E HE) as (ds & -> & _ & Hdig & _).
  constructor; [reflexivity|]. apply Forall_app. split.
  - eapply Forall_impl; [exact Hdig|]. intros c. apply digit_not_space.
  - induction Hfs as [|f fs Hf Hfs IH]; [constructor|].
    cbn [flat_map]. constructor; [reflexivity|]. apply Forall_app. split; [|exact IH].
    destruct (is_decimal_chars f Hf) as (c & r & -> & _ & Hfd).
    eapply Forall_impl; [exact Hfd|]. intros x. apply digit_not_space.
Qed.

(** What [load] returns from a file that holds a header and residues. *)
Lemma Proof_load_spec (p : Proof) (path : string) (w : World) :
  0 < Proof_E p < 2 ^ 32 ->
  Z.of_nat (length (Proof_middles p)) < 2 ^ 32 ->
  Forall (canonical (Proof_E p)) (Proof_B p :: Proof_middles p) ->
  Forall (fun f => is_decimal f = true) (Proof_knownFactors p) ->
  Z.of_nat (String.length (proof.mersenneToString (Proof_E p) (Proof_knownFactors p)))
  < 2048 ->
  files w !! path
  = Some ((header_prefix
           ++ list_ascii_of_string
                (to_string (wrap32 (Z.of_nat (length (Proof_middles p)))))
           ++ header_middle
           ++ list_ascii_of_string
                (proof.mersenneToString (Proof_E p) (Proof_knownFactors p))
           ++ [newline])
          ++ flat_map (spec_bytes (Proof_E p)) (Proof_B p :: Proof_middles p)) ->
  Proof_load path w = (Ok p, touch (IoOpenRead path) w).
Proof.
  intros HE Hpower Hcanon Hfs Hlen Hfile.
  destruct p as [E fs B ms]. cbn [Proof_E Proof_knownFactors Proof_B Proof_middles] in *.
  unfold Proof_load. unfold io_bind at 1. unfold File.openReadThrow. rewrite Hfile.
  unfold File.scanf. cbn [File.unread File.path].
  rewrite is_u32_wrap32 by lia.
  destruct (to_string_digits (Z.of_nat (length ms)) ltac:(lia))
    as (ds & -> & Hne & Hdig & Hval).
  destruct (mersenneToString_token E fs ltac:(lia) Hfs) as (Htok & Hsp).
  rewrite <- !app_assoc. cbn [app].
  rewrite scan_header by assumption.
  rewrite string_of_list_ascii_of_string, Hval.
  rewrite is_u32_wrap32 by lia.
  unfold overruns. cbn [existsb orb].
  replace (2048 <? _) with false by (symmetry; apply Z.ltb_ge; lia).
  cbn [orb]. rewrite Ascii.eqb_refl. cbn [negb].
  unfold io_bind at 1. unfold try_catch, lift at 1.
  rewrite mersenneFromString_mersenneToString by (try assumption; lia).
  cbn [fst snd]. unfold io_bind at 1. unfold lift at 1.
  unfold File.readBytesLE. cbn [flat_map].
  pose proof (Forall_inv Hcanon) as HB. pose proof (Forall_inv_tail Hcanon) as Hms.
  rewrite read_app
    by (symmetry; apply spec_bytes_length;
        [exact HE | apply canonical_has_bytes; assumption]).
  cbn [outcome_bind fst snd].
  rewrite words_of_bytes_spec_bytes by assumption.
  unfold io_bind at 1. unfold lift at 1.
  rewrite Nat2Z.id.
  rewrite <- (app_nil_r (flat_map (spec_bytes E) ms)).
  rewrite read_middles_spec by assumption.
  reflexivity.
Qed.

(** C4, as amended.  For a proof whose exponent is positive, whose [B] and
    middles are canonical residues, whose known factors are decimal numerals
    without a leading zero, and whose NUMBER field [M<E>/<factor>/...] is
    shorter than the 2048 characters of the buffer of [load], [save] succeeds
    and [load] of the saved file returns the proof: its exponent, known
    factors, [B] and middles. *)
Theorem load_after_save_returns_the_proof (p : Proof) (path : string) (w : World) :
  0 < Proof_E p < 2 ^ 32 ->
  Z.of_nat (length (Proof_middles p)) < 2 ^ 32 ->
  Forall (canonical (Proof_E p)) (Proof_B p :: Proof_middles p) ->
  Forall (fun f => is_decimal f = true) (Proof_knownFactors p) ->
  Z.of_nat (String.length (proof.mersenneToString (Proof_E p) (Proof_knownFactors p)))
  < 2048 ->
  exists w1 w2 : World,
    Proof_save p path w = (Ok tt, w1) /\ Proof_load path w1 = (Ok p, w2).
Proof.
  intros HE Hpower Hcanon Hfs Hlen.
  destruct (Proof_save_spec p path w HE) as (w1 & Hsave & Hfile).
  { eapply Forall_impl; [exact Hcanon|]. intros x. apply canonical_has_bytes. exact HE. }
  exists w1, (touch (IoOpenRead path) w1). split; [exact Hsave|].
  apply Proof_load_spec; assumption.
Qed.

Lemma makeWords_canonical (E v : Z) :
  0 < E < 2 ^ 32 -> 0 <= v < 256 -> canonical E (makeWords E v).
Proof.
  intros HE Hv. unfold canonical, makeWords.
  rewrite is_u32_wrap32 by lia.
  assert (Hq : 0 <= (E - 1) / 32) by (apply Z.div_pos; lia).
  split; [|split].
  - cbn [length]. rewrite length_replicate. lia.
  - constructor; [unfold is_u32; lia|]. apply Forall_replicate. unfold is_u32. lia.
  - assert (Hzero : forall n, words_value (replicate n 0) = 0).
    { induction n as [|n IH]; [reflexivity|].
      unfold words_value in *. cbn [replicate fold_right]. rewrite IH. reflexivity. }
    unfold words_value in *. cbn [fold_right]. rewrite Hzero.
    assert (H8 : 1 <= (E + 7) / 8) by (Z.to_euclidean_division_equations; lia).
    assert (2 ^ (8 * 1) <= 2 ^ (8 * ((E + 7) / 8))) by (apply Z.pow_le_mono_r; lia).
    change (2 ^ (8 * 1)) with 256 in *. lia.
Qed.

Lemma load_after_save_witness :
  exists w1 w2 : World,
    Proof_save cofactor_proof "18178631-8.proof" empty_world = (Ok tt, w1) /\
    Proof_load "18178631-8.proof" w1 = (Ok cofactor_proof, w2).
Proof.
  apply (load_after_save_returns_the_proof cofactor_proof).
  - cbn [cofactor_proof Proof_E]. lia.
  - cbn [cofactor_proof Proof_middles length]. lia.
  - cbn [cofactor_proof Proof_E Proof_B Proof_middles].
    repeat (apply List.Forall_cons; [apply makeWords_canonical; lia|]). apply List.Forall_nil.
  - cbn [cofactor_proof Proof_knownFactors].
    repeat (apply List.Forall_cons; [reflexivity|]). apply List.Forall_nil.
  - vm_compute. reflexivity.
Defined.

(** C4 as stated fails: [2^6899 - 1] is [13799] times a number of 2073
    digits; the proof for the odd prime 6899 that names this number as the
    known factor has valid fields and is saved, and [load] then reads a
    NUMBER field longer than its buffer [char number[2048]] instead of
    returning the proof. *)
Lemma load_overruns_its_buffer_on_a_long_factor :
  odd_prime (Proof_E long_factor_proof) /\
  1 < long_factor /\ (2 ^ 6899 - 1) mod long_factor = 0 /\
  length (Proof_middles long_factor_proof) = 1%nat /\
  Forall (canonical (Proof_E long_factor_proof))
         (Proof_B long_factor_proof :: Proof_middles long_factor_proof) /\
  Forall (fun f => is_decimal f = true) (Proof_knownFactors long_factor_proof) /\
  String.length (proof.mersenneToString (Proof_E long_factor_proof)
                   (Proof_knownFactors long_factor_proof)) = 2079%nat /\
  fst (Proof_load "6899-1.proof"
         (snd (Proof_save long_factor_proof "6899-1.proof" empty_world)))
  = Crash "number[2048] overrun".
Proof.
  split.
  { split; [apply coprime_below_prime; vm_compute; reflexivity|].
    split; [reflexivity | cbn; lia]. }
  split; [vm_compute; reflexivity|]. split; [vm_compute; reflexivity|].
  split; [reflexivity|]. split; [|split; [|split]].
  - cbn [long_factor_proof Proof_E Proof_B Proof_middles].
    repeat (apply List.Forall_cons; [apply makeWords_canonical; lia|]).
    apply List.Forall_nil.
  - apply List.Forall_cons; [vm_compute; reflexivity | apply List.Forall_nil].
  - vm_compute. reflexivity.
  - vm_compute. reflexivity.
Qed.

(** A known factor written with a leading zero is saved as it is, and
    [load] rejects the header: GMP reads the factor as an octal numeral. *)
Lemma load_rejects_a_factor_with_a_leading_zero :
  fst (Proof_load "7-1.proof"
         (snd (Proof_save (mkProof 7 ["09"] [9] [[71]]) "7-1.proof" empty_world)))
  = Throw "Invalid proof header".
Proof. vm_compute. reflexivity. Qed.

(** ** Which exponents and powers the constructor accepts *)

Lemma odd_land_1 (E : Z) : negb (Z.land E 1 =? 0) = Z.odd E.
Proof.
  change 1 with (Z.ones 1). rewrite Z.land_ones by lia.
  change (2 ^ 1) with 2. rewrite Zmod_odd. destruct (Z.odd E); reflexivity.
Qed.

Lemma spans_loop_sum_upper (n : nat) :
  forall s : Z, 0 < s < 2 ^ 32 - 1 ->
    Zsum (ProofSet.spans_loop n s) <= 2 * s - 1 + Z.of_nat n.
Proof.
  induction n as [|n IH]; intros s Hs; [cbn; lia|].
  cbn [ProofSet.spans_loop Zsum].
  pose proof (halve_bounds s Hs) as Hh.
  pose proof (IH (ProofSet.halve s) ltac:(lia)) as Hrest.
  rewrite halve_eq in * by lia.
  Z.to_euclidean_division_equations. lia.
Qed.

Lemma spans_loop_sum_last (n : nat) :
  forall s : Z, 0 < s < 2 ^ 32 - 1 ->
    Zsum (ProofSet.spans_loop (S n) s) + List.last (ProofSet.spans_loop (S n) s) 0
    <= 2 * s + Z.of_nat n.
Proof.
  induction n as [|n IH]; intros s Hs; [cbn; lia|].
  pose proof (halve_bounds s Hs) as Hh.
  pose proof (IH (ProofSet.halve s) ltac:(lia)) as Hrest.
  change (ProofSet.spans_loop (S (S n)) s)
    with (s :: ProofSet.spans_loop (S n) (ProofSet.halve s)).
  change (List.last (s :: ProofSet.spans_loop (S n) (ProofSet.halve s)) 0)
    with (List.last (ProofSet.spans_loop (S n) (ProofSet.halve s)) 0).
  cbn [Zsum]. rewrite halve_eq in * by lia.
  Z.to_euclidean_division_equations. lia.
Qed.

Lemma spans_loop_last_lower (n : nat) :
  forall s : Z, 0 < s < 2 ^ 32 - 1 ->
    s <= 2 ^ Z.of_nat n * List.last (ProofSet.spans_loop (S n) s) 0.
Proof.
  induction n as [|n IH]; intros s Hs; [cbn; lia|].
  pose proof (halve_bounds s Hs) as Hh.
  pose proof (IH (ProofSet.halve s) ltac:(lia)) as Hrest.
  change (ProofSet.spans_loop (S (S n)) s)
    with (s :: ProofSet.spans_loop (S n) (ProofSet.halve s)).
  change (List.last (s :: ProofSet.spans_loop (S n) (ProofSet.halve s)) 0)
    with (List.last (ProofSet.spans_loop (S n) (ProofSet.halve s)) 0).
  rewrite Nat2Z.inj_succ, Z.pow_succ_r by lia. lia.
Qed.

(** From 49151 on, the spans of every power up to 12 fit. *)
Lemma large_exponent_fits (E power : Z) :
  Z.odd E = true -> 49151 <= E < 2 ^ 32 - 1 -> power <= 12 -> spans_fit E power.
Proof.
  intros Hodd HE Hp. apply (spans_fit_mono E power 12); [lia | exact Hp |].
  unfold spans_fit, ProofSet.spans. change (Z.to_nat 12) with 12%nat.
  pose proof (halve_bounds E ltac:(lia)) as Hh.
  pose proof (spans_loop_sum_last 11 (ProofSet.halve E) ltac:(lia)) as Hsum.
  pose proof (spans_loop_last_lower 11 (ProofSet.halve E) ltac:(lia)) as Hlast.
  change (2 ^ Z.of_nat 11) with 2048 in Hlast. change (Z.of_nat 11) with 11 in Hsum.
  assert (H2 : 2 * ProofSet.halve E = E + 1).
  { rewrite halve_eq by lia. pose proof (Zmod_odd E) as Hm. rewrite Hodd in Hm.
    Z.to_euclidean_division_equations. lia. }
  lia.
Qed.

Lemma points_loop_total (n : nat) :
  forall (span b : Z) (pts : list Z),
    0 < span < 2 ^ 32 - 1 -> In b pts -> 0 <= b ->
    b + Zsum (ProofSet.spans_loop n span) < 2 ^ 32 ->
    In (b + Zsum (ProofSet.spans_loop n span)) (ProofSet.points_loop n span pts).
Proof.
  induction n as [|n IH]; intros span b pts Hspan Hb Hb0 Hsum.
  - cbn. rewrite Z.add_0_r. exact Hb.
  - cbn [ProofSet.points_loop ProofSet.spans_loop Zsum] in *.
    pose proof (halve_bounds span Hspan) as Hh.
    pose proof (spans_loop_sum_nonneg n (ProofSet.halve span) ltac:(lia)) as Hnn.
    rewrite Z.add_assoc. apply IH; try lia.
    apply in_or_app. right. apply in_map_iff. exists b. split; [|exact Hb].
    apply is_u32_wrap32. lia.
Qed.

(** When the assertions of the constructor hold, the spans fit. *)
Lemma new_checks_spans_fit (E power : Z) :
  Z.odd E = true -> 0 < E < 2 ^ 32 - 1 -> 0 < power <= 12 ->
  new_checks E power = true -> spans_fit E power.
Proof.
  intros Hodd HE Hp Hchk.
  destruct (Z_lt_le_dec E 49151) as [Hsmall | Hlarge];
    [|apply large_exponent_fits; [exact Hodd | lia | lia]].
  destruct (new_checks_sorted E power ltac:(lia) Hp Hchk) as (Hs & _ & _ & Hlast & _).
  unfold spans_fit. apply Z.le_ngt. intros Hover.
  pose proof (halve_bounds E HE) as Hh.
  pose proof (spans_loop_sum_upper (Z.to_nat power) (ProofSet.halve E) ltac:(lia)) as Hup.
  fold (ProofSet.spans E power) in Hup.
  assert (H2 : 2 * ProofSet.halve E = E + 1).
  { rewrite halve_eq by lia. pose proof (Zmod_odd E) as Hm. rewrite Hodd in Hm.
    Z.to_euclidean_division_equations. lia. }
  destruct (points_loop_spec (Z.to_nat power) (ProofSet.halve E) [0] ltac:(lia))
    as (extra & Hraw & _).
  { intros b [<-|[]]. fold (ProofSet.spans E power). lia. }
  fold (ProofSet.raw_points E power) in Hraw.
  pose proof (points_loop_total (Z.to_nat power) (ProofSet.halve E) 0 [0] ltac:(lia)
                ltac:(left; reflexivity) ltac:(lia)) as Htotal.
  fold (ProofSet.spans E power) in Htotal. fold (ProofSet.raw_points E power) in Htotal.
  specialize (Htotal ltac:(lia)). cbn [Z.add] in Htotal.
  rewrite Hraw in Htotal. destruct Htotal as [H0 | Hin]; [lia|].
  assert (Hin' : In (Zsum (ProofSet.spans E power)) (ProofSet.sorted_points E power)).
  { unfold ProofSet.sorted_points. rewrite Hraw. apply sort_In. right. exact Hin. }
  apply StronglySorted_app_1_l in Hs.
  pose proof (StronglySorted_last _ (E + 1) _ Hs Hin') as Hle. lia.
Qed.

(** X1.  The constructor [ProofSet(E, knownFactors, power)] returns exactly
    when [E] is odd, [power] is from 1 to 12 and the spans
    [(E + 1) / 2, ...] of the power add up to at most [E]; it then has made
    the directory of the proofs of [E] and nothing else. *)
Theorem constructor_returns_iff_spans_fit
    (E : Z) (kf : list string) (power : Z) (w : World) :
  0 <= E < 2 ^ 32 - 1 ->
  ((exists (ps : ProofSet.t) (w' : World), ProofSet.new E kf power w = (Ok ps, w'))
   <-> Z.odd E = true /\ 1 <= power <= 12 /\ spans_fit E power) /\
  (forall (ps : ProofSet.t) (w' : World),
     ProofSet.new E kf power w = (Ok ps, w') ->
     w' = with_proof_dir E w /\
     ProofSet.points ps = ProofSet.sorted_points E power ++ [u32_max]).
Proof.
  intros HE. split; [split|].
  - intros (ps & w' & Hnew). apply new_Ok_iff in Hnew.
    destruct Hnew as (Hodd & Hp & Hchk & _ & _). rewrite odd_land_1 in Hodd.
    split; [exact Hodd|]. split; [lia|].
    assert (E <> 0) by (intros ->; discriminate Hodd).
    apply new_checks_spans_fit; try assumption; lia.
  - intros (Hodd & Hp & Hfit).
    assert (E <> 0) by (intros ->; discriminate Hodd).
    eexists _, _. apply new_Ok_iff. rewrite odd_land_1.
    split; [exact Hodd|]. split; [lia|].
    split; [apply new_checks_fit; [lia | lia | exact Hfit]|].
    split; reflexivity.
  - intros ps w' Hnew. apply new_Ok_iff in Hnew.
    destruct Hnew as (_ & _ & _ & -> & ->). split; reflexivity.
Qed.

Lemma constructor_returns_iff_spans_fit_witness :
  ((exists (ps : ProofSet.t) (w' : World),
      ProofSet.new 521 [] 4 empty_world = (Ok ps, w'))
   <-> Z.odd 521 = true /\ 1 <= 4 <= 12 /\ spans_fit 521 4) /\
  (forall (ps : ProofSet.t) (w' : World),
     ProofSet.new 521 [] 4 empty_world = (Ok ps, w') ->
     w' = with_proof_dir 521 empty_world /\
     ProofSet.points ps = ProofSet.sorted_points 521 4 ++ [u32_max]).
Proof. apply (constructor_returns_iff_spans_fit 521 [] 4 empty_world). lia. Defined.

(** X2.  For every odd exponent from 49151 on and every power from 1 to 12
    the constructor returns: none of its assertions fails. *)
Theorem constructor_returns_for_large_exponents
    (E : Z) (kf : list string) (power : Z) (w : World) :
  Z.odd E = true -> 49151 <= E < 2 ^ 32 - 1 -> 1 <= power <= 12 ->
  spans_fit E power /\
  exists ps : ProofSet.t,
    ProofSet.new E kf power w = (Ok ps, with_proof_dir E w) /\
    ProofSet.points ps = ProofSet.sorted_points E power ++ [u32_max] /\
    List.last (ProofSet.sorted_points E power) 0 = E.
Proof.
  intros Hodd HE Hp.
  pose proof (large_exponent_fits E power Hodd HE ltac:(lia)) as Hfit.
  split; [exact Hfit|].
  pose proof (new_checks_fit E power ltac:(lia) ltac:(lia) Hfit) as Hchk.
  destruct (new_checks_sorted E power ltac:(lia) ltac:(lia) Hchk)
    as (_ & _ & HinE & Hlast & _).
  eexists. split.
  { apply new_Ok_iff. rewrite odd_land_1. repeat split; try assumption; lia. }
  split; [reflexivity|].
  destruct (ProofSet.sorted_points E power) as [|x l] eqn:Hl; [destruct HinE|].
  rewrite <- Hlast. clear. generalize (E + 1). revert x.
  induction l as [|y l IH]; intros x d; [reflexivity|].
  change (List.last (x :: y :: l) 0) with (List.last (y :: l) 0).
  change (List.last (x :: y :: l) d) with (List.last (y :: l) d).
  apply IH.
Qed.

Lemma constructor_returns_for_large_exponents_witness :
  spans_fit 18178631 8 /\
  exists ps : ProofSet.t,
    ProofSet.new 18178631 [] 8 empty_world = (Ok ps, with_proof_dir 18178631 empty_world) /\
    ProofSet.points ps = ProofSet.sorted_points 18178631 8 ++ [u32_max] /\
    List.last (ProofSet.sorted_points 18178631 8) 0 = 18178631.
Proof.
  apply (constructor_returns_for_large_exponents 18178631 [] 8 empty_world).
  - reflexivity.
  - lia.
  - lia.
Defined.
(** ** The points are distinct *)

Lemma spread_step (R span : Z) (pts : list Z) :
  0 < span -> 0 <= R -> R < span ->
  spread (span + R) pts ->
  spread R (pts ++ map (fun x => wrap32 (x + span)) pts).
Proof.
  intros Hspan HR Hlt (Hnd & Hrange & Hsep).
  assert (Hmap : map (fun x => wrap32 (x + span)) pts = map (fun x => x + span) pts).
  { apply map_ext_in. intros a Ha. apply is_u32_wrap32.
    destruct (Hrange a Ha). lia. }
  rewrite Hmap. split; [|split].
  - apply NoDup_app. split; [exact Hnd|]. split.
    + intros x Hx Hx'. apply list_elem_of_In in Hx, Hx'.
      apply in_map_iff in Hx'. destruct Hx' as (b & <- & Hb).
      pose proof (Hsep _ _ Hx Hb ltac:(lia)). lia.
    + clear - Hnd. induction Hnd as [|a l Ha Hnd IH]; [constructor|].
      cbn [map]. apply NoDup_cons. split; [|exact IH].
      intros Hin. apply list_elem_of_In, in_map_iff in Hin.
      destruct Hin as (b & Hb & Hin). apply Ha.
      replace a with b by lia. apply list_elem_of_In. exact Hin.
  - intros a Ha. apply in_app_or in Ha. destruct Ha as [Ha|Ha].
    + destruct (Hrange a Ha). lia.
    + apply in_map_iff in Ha. destruct Ha as (b & <- & Hb).
      destruct (Hrange b Hb). lia.
  - intros a b Ha Hb Hne.
    apply in_app_or in Ha, Hb.
    destruct Ha as [Ha|Ha], Hb as [Hb|Hb];
      try (apply in_map_iff in Ha; destruct Ha as (a' & <- & Ha));
      try (apply in_map_iff in Hb; destruct Hb as (b' & <- & Hb)).
    + pose proof (Hsep _ _ Ha Hb Hne). lia.
    + destruct (Z.eq_dec a b') as [->|Hne']; [lia|].
      pose proof (Hsep _ _ Ha Hb Hne'). lia.
    + destruct (Z.eq_dec a' b) as [->|Hne']; [lia|].
      pose proof (Hsep _ _ Ha Hb Hne'). lia.
    + assert (Hne' : a' <> b') by (intros ->; apply Hne; reflexivity).
      pose proof (Hsep _ _ Ha Hb Hne'). lia.
Qed.

Lemma points_loop_spread (n : nat) :
  forall (span : Z) (pts : list Z),
    0 < span < 2 ^ 32 - 1 ->
    Zsum (ProofSet.spans_loop n span) <= 2 * span - 1 ->
    spread (Zsum (ProofSet.spans_loop n span)) pts ->
    spread 0 (ProofSet.points_loop n span pts).
Proof.
  induction n as [|n IH]; intros span pts Hspan Hfit Hpts; [exact Hpts|].
  cbn [ProofSet.points_loop ProofSet.spans_loop Zsum] in *.
  pose proof (halve_bounds span Hspan) as Hh.
  pose proof (spans_loop_sum_nonneg n (ProofSet.halve span) ltac:(lia)) as Hnn.
  apply IH; [lia | lia |].
  apply spread_step; [lia | lia | lia | exact Hpts].
Qed.

Lemma raw_points_NoDup (E power : Z) :
  Z.odd E = true -> 0 < E < 2 ^ 32 - 1 -> spans_fit E power ->
  NoDup (ProofSet.raw_points E power).
Proof.
  intros Hodd HE Hfit. unfold spans_fit, ProofSet.spans in Hfit.
  pose proof (halve_bounds E HE) as Hh.
  assert (H2 : 2 * ProofSet.halve E = E + 1).
  { rewrite halve_eq by lia. pose proof (Zmod_odd E) as Hm. rewrite Hodd in Hm.
    Z.to_euclidean_division_equations. lia. }
  refine (proj1 (points_loop_spread (Z.to_nat power) (ProofSet.halve E) [0]
                   ltac:(lia) ltac:(lia) _)).
  split; [apply NoDup_singleton|]. split.
  - intros a [<-|[]]. lia.
  - intros a b [<-|[]] [<-|[]] Hne. congruence.
Qed.

Lemma StronglySorted_NoDup_lt (l : list Z) :
  StronglySorted Z.le l -> NoDup l -> StronglySorted Z.lt l.
Proof.
  induction 1 as [|x l Hs IH Hall]; intros Hnd; [constructor|].
  apply NoDup_cons in Hnd. destruct Hnd as (Hx & Hnd).
  constructor; [apply IH; exact Hnd|].
  apply List.Forall_forall. intros y Hy.
  pose proof (proj1 (List.Forall_forall _ _) Hall y Hy) as Hle.
  destruct (Z.eq_dec x y) as [->|Hne]; [|lia].
  exfalso. apply Hx. apply list_elem_of_In. exact Hy.
Qed.

(** X4.  When the spans fit, the [2^power] sums that the constructor
    collects are pairwise different; after [E] has replaced the 0 and the
    vector is sorted, the points are strictly increasing exactly when the
    spans add up to less than [E]: when they add up to [E], [E] is there
    twice. *)
Theorem points_strictly_increasing_iff
    (E : Z) (power : Z) :
  Z.odd E = true -> 0 < E < 2 ^ 32 - 1 -> 1 <= power <= 12 -> spans_fit E power ->
  NoDup (ProofSet.raw_points E power) /\
  (StronglySorted Z.lt (ProofSet.sorted_points E power)
   <-> Zsum (ProofSet.spans E power) < E).
Proof.
  intros Hodd HE Hp Hfit.
  pose proof (raw_points_NoDup E power Hodd HE Hfit) as Hnd.
  split; [exact Hnd|].
  destruct (raw_points_spec E power HE Hfit) as (extra & Hraw & Hextra).
  assert (Hsorted : ProofSet.sorted_points E power = ProofSet.sort (E :: extra)).
  { unfold ProofSet.sorted_points. rewrite Hraw. reflexivity. }
  assert (Hspans : Forall (fun s => 0 <= s) (ProofSet.spans E power)).
  { unfold ProofSet.spans.
    eapply Forall_impl; [apply spans_loop_pos; pose proof (halve_bounds E HE); lia |].
    simpl. intros; lia. }
  assert (Hperm : ProofSet.sort (E :: extra) ≡ₚ E :: extra)
    by apply merge_sort_Permutation.
  rewrite Hraw in Hnd. apply NoDup_cons in Hnd. destruct Hnd as (_ & Hnd).
  split.
  - intros Hlt. apply Z.le_neq. split; [exact Hfit|]. intros Heq.
    pose proof (halve_bounds E HE) as Hh.
    pose proof (points_loop_total (Z.to_nat power) (ProofSet.halve E) 0 [0] ltac:(lia)
                  ltac:(left; reflexivity) ltac:(lia)) as Htotal.
    fold (ProofSet.spans E power) in Htotal. fold (ProofSet.raw_points E power) in Htotal.
    specialize (Htotal ltac:(lia)). cbn [Z.add] in Htotal.
    rewrite Hraw, Heq in Htotal. destruct Htotal as [H0 | Hin]; [lia|].
    assert (Hdup : ~ NoDup (E :: extra)).
    { intros Hn. apply NoDup_cons in Hn. destruct Hn as (Hn & _).
      apply Hn. apply list_elem_of_In. exact Hin. }
    apply Hdup. rewrite <- Hperm, <- Hsorted.
    clear - Hlt. induction Hlt as [|x l Hs IH Hall]; [constructor|].
    apply NoDup_cons. split; [|exact IH].
    intros Hx. apply list_elem_of_In in Hx.
    pose proof (proj1 (List.Forall_forall _ _) Hall x Hx). lia.
  - intros Hlt. apply StronglySorted_NoDup_lt.
    + rewrite Hsorted. apply sort_sorted.
    + rewrite Hsorted, Hperm. apply NoDup_cons. split; [|exact Hnd].
      intros Hin. apply list_elem_of_In in Hin.
      destruct (Hextra _ Hin) as (Hsub & _).
      pose proof (subsums_bounds _ _ Hspans Hsub). lia.
Qed.

Lemma points_strictly_increasing_witness :
  NoDup (ProofSet.raw_points 521 4) /\
  (StronglySorted Z.lt (ProofSet.sorted_points 521 4)
   <-> Zsum (ProofSet.spans 521 4) < 521).
Proof.
  apply (points_strictly_increasing_iff 521 4).
  - reflexivity.
  - lia.
  - lia.
  - unfold spans_fit. vm_compute. discriminate.
Defined.
(** ** isInPoints *)

Lemma isInPoints_loop_total (n : nat) :
  forall span start k : Z,
    start <= k -> exists b : bool, ProofSet.isInPoints_loop n span start k = Ok b.
Proof.
  induction n as [|n IH]; intros span start k Hk; [exists false; reflexivity|].
  cbn [ProofSet.isInPoints_loop].
  replace (start <=? k) with true by (symmetry; apply Z.leb_le; exact Hk).
  cbn [assert outcome_bind].
  destruct (wrap32 (start + span) <? k) eqn:Hlt.
  - apply IH. apply Z.ltb_lt in Hlt. lia.
  - destruct (k =? wrap32 (start + span)); [exists true; reflexivity|].
    apply IH. exact Hk.
Qed.

Lemma isInPoints_loop_more (n m : nat) :
  forall span start k : Z,
    ProofSet.isInPoints_loop n span start k = Ok true ->
    ProofSet.isInPoints_loop (n + m) span start k = Ok true.
Proof.
  induction n as [|n IH]; intros span start k Hn; [discriminate Hn|].
  cbn [ProofSet.isInPoints_loop Nat.add] in *.
  destruct (start <=? k); [|discriminate Hn].
  cbn [assert outcome_bind] in *.
  destruct (wrap32 (start + span) <? k); [apply IH; exact Hn|].
  destruct (k =? wrap32 (start + span)); [reflexivity|].
  apply IH; exact Hn.
Qed.

Lemma isInPoints_loop_true (n : nat) :
  forall span start k : Z,
    0 < span < 2 ^ 32 - 1 -> 0 <= start ->
    start + Zsum (ProofSet.spans_loop n span) < 2 ^ 32 ->
    ProofSet.isInPoints_loop n span start k = Ok true ->
    exists y, In y (subsums (ProofSet.spans_loop n span)) /\ 0 < y /\ k = start + y.
Proof.
  induction n as [|n IH]; intros span start k Hspan Hstart Hroom Hrun; [discriminate Hrun|].
  cbn [ProofSet.isInPoints_loop ProofSet.spans_loop Zsum subsums] in *.
  pose proof (halve_bounds span Hspan) as Hh.
  pose proof (spans_loop_sum_nonneg n (ProofSet.halve span) ltac:(lia)) as Hnn.
  destruct (start <=? k); [|discriminate Hrun].
  cbn [assert outcome_bind] in Hrun.
  rewrite (is_u32_wrap32 (start + span)) in Hrun by lia.
  destruct (start + span <? k) eqn:Hlt.
  - destruct (IH (ProofSet.halve span) (start + span) k
                 ltac:(lia) ltac:(lia) ltac:(lia) Hrun) as (y & Hy & Hpos & ->).
    exists (span + y). split; [|lia].
    apply in_or_app. right. apply in_map_iff. exists y. split; [reflexivity | exact Hy].
  - destruct (k =? start + span) eqn:Heq.
    + apply Z.eqb_eq in Heq. exists span. split; [|lia].
      apply in_or_app. right. apply in_map_iff. exists 0.
      split; [lia | apply subsums_zero].
    + destruct (IH (ProofSet.halve span) start k
                   ltac:(lia) ltac:(lia) ltac:(lia) Hrun) as (y & Hy & Hpos & ->).
      exists y. split; [|lia]. apply in_or_app. left. exact Hy.
Qed.

Lemma points_loop_subsums (n : nat) :
  forall (span : Z) (pts : list Z) (b y : Z),
    0 < span < 2 ^ 32 - 1 ->
    (forall b, In b pts -> 0 <= b /\ b + Zsum (ProofSet.spans_loop n span) < 2 ^ 32) ->
    In b pts -> In y (subsums (ProofSet.spans_loop n span)) ->
    In (b + y) (ProofSet.points_loop n span pts).
Proof.
  induction n as [|n IH]; intros span pts b y Hspan Hpts Hb Hy.
  - cbn in Hy. destruct Hy as [<-|[]]. rewrite Z.add_0_r. exact Hb.
  - cbn [ProofSet.points_loop ProofSet.spans_loop Zsum subsums] in *.
    pose proof (halve_bounds span Hspan) as Hh.
    pose proof (spans_loop_sum_nonneg n (ProofSet.halve span) ltac:(lia)) as Hnn.
    assert (Hpts' : forall b,
              In b (pts ++ map (fun x => wrap32 (x + span)) pts) ->
              0 <= b /\ b + Zsum (ProofSet.spans_loop n (ProofSet.halve span)) < 2 ^ 32).
    { intros c Hc. apply in_app_or in Hc. destruct Hc as [Hc|Hc].
      - specialize (Hpts c Hc). lia.
      - apply in_map_iff in Hc. destruct Hc as (c' & <- & Hc').
        specialize (Hpts c' Hc'). rewrite is_u32_wrap32 by lia. lia. }
    apply in_app_or in Hy. destruct Hy as [Hy|Hy].
    + apply IH; [lia | exact Hpts' | | exact Hy]. apply in_or_app. left. exact Hb.
    + apply in_map_iff in Hy. destruct Hy as (y' & <- & Hy').
      rewrite Z.add_assoc. apply IH; [lia | exact Hpts' | | exact Hy'].
      apply in_or_app. right. apply in_map_iff. exists b. split; [|exact Hb].
      specialize (Hpts b Hb). apply is_u32_wrap32. lia.
Qed.

(** X5.  When the spans fit, [isInPoints(E, power, k)] returns, and it
    returns true exactly for the elements of the vector of points that the
    constructor builds. *)
Theorem isInPoints_decides_membership (E power k : Z) :
  0 < E < 2 ^ 32 - 1 -> spans_fit E power -> 0 <= k ->
  (exists b : bool, ProofSet.isInPoints E power k = Ok b) /\
  (ProofSet.isInPoints E power k = Ok true <-> In k (ProofSet.sorted_points E power)).
Proof.
  intros HE Hfit Hk.
  destruct (raw_points_spec E power HE Hfit) as (extra & Hraw & Hextra).
  assert (Hsorted : forall x, In x (ProofSet.sorted_points E power) <-> x = E \/ In x extra).
  { intros x. unfold ProofSet.sorted_points. rewrite Hraw.
    change (<[0%nat:=E]> (0 :: extra)) with (E :: extra).
    rewrite sort_In. cbn [In]. intuition congruence. }
  pose proof (halve_bounds E HE) as Hh.
  assert (Hspans : Forall (fun s => 0 <= s) (ProofSet.spans E power)).
  { unfold ProofSet.spans.
    eapply Forall_impl; [apply spans_loop_pos; lia |]. simpl. intros; lia. }
  split.
  - unfold ProofSet.isInPoints. destruct (k =? E); [exists true; reflexivity|].
    apply isInPoints_loop_total. exact Hk.
  - rewrite Hsorted. split.
    + unfold ProofSet.isInPoints. destruct (k =? E) eqn:HkE.
      { intros _. left. apply Z.eqb_eq. exact HkE. }
      intros Hrun. right.
      unfold spans_fit, ProofSet.spans in Hfit.
      destruct (isInPoints_loop_true (Z.to_nat power) (ProofSet.halve E) 0 k
                  ltac:(lia) ltac:(lia) ltac:(lia) Hrun)
        as (y & Hy & Hpos & ->).
      pose proof (points_loop_subsums (Z.to_nat power) (ProofSet.halve E) [0] 0 y
                    ltac:(lia)) as Hin.
      fold (ProofSet.raw_points E power) in Hin. rewrite Hraw in Hin.
      destruct Hin as [H0 | Hin]; [| left; reflexivity | exact Hy | lia | exact Hin].
      intros b [<-|[]]. lia.
    + intros [-> | Hin].
      * unfold ProofSet.isInPoints. rewrite Z.eqb_refl. reflexivity.
      * destruct (Hextra k Hin) as (Hsub & Hpos).
        apply isInPoints_subsum; assumption.
Qed.

Lemma isInPoints_decides_membership_witness :
  (exists b : bool, ProofSet.isInPoints 521 4 294 = Ok b) /\
  (ProofSet.isInPoints 521 4 294 = Ok true <-> In 294 (ProofSet.sorted_points 521 4)).
Proof.
  apply (isInPoints_decides_membership 521 4 294).
  - lia.
  - unfold spans_fit. vm_compute. discriminate.
  - lia.
Defined.

(** X6.  A proof point of some power is a proof point of every higher
    power: the residues kept for a proof serve every coarser one. *)
Theorem isInPoints_nested (E power power' k : Z) :
  0 <= power <= power' ->
  ProofSet.isInPoints E power k = Ok true ->
  ProofSet.isInPoints E power' k = Ok true.
Proof.
  intros Hp. unfold ProofSet.isInPoints. destruct (k =? E); [reflexivity|].
  intros Hrun.
  replace (Z.to_nat power') with (Z.to_nat power + (Z.to_nat power' - Z.to_nat power))%nat
    by lia.
  apply isInPoints_loop_more. exact Hrun.
Qed.

Lemma isInPoints_nested_witness : ProofSet.isInPoints 521 4 131 = Ok true.
Proof.
  apply (isInPoints_nested 521 2 4 131).
  - lia.
  - vm_compute. reflexivity.
Defined.
(** ** next beyond the last point *)

Lemma upper_bound_all_le (l : list Z) (val : Z) :
  StronglySorted Z.le l -> (forall x, In x l -> x <= val) ->
  ProofSet.upper_bound l val = length l.
Proof.
  intros Hs Hall.
  apply (splits_unique l val);
    [apply upper_bound_splits, StronglySorted_ascending; exact Hs|].
  repeat split; [lia | | intros j Hj; lia].
  intros j Hj. apply Hall. apply nth_In. exact Hj.
Qed.

(** X7.  Whatever calls came before: for [k] from [E] up to [2^32 - 2],
    [next(k)] returns the guard element [2^32 - 1]; and [next(2^32 - 1)]
    dereferences [points.end()]. *)
Theorem next_beyond_the_last_point
    (E : Z) (kf : list string) (power : Z) (w w' : World) (ps ps' : ProofSet.t)
    (history : list Z) :
  0 <= E < 2 ^ 32 ->
  ProofSet.new E kf power w = (Ok ps, w') ->
  after_calls ps history = Ok ps' ->
  (forall k, E <= k < u32_max ->
     exists ps'' : ProofSet.t, ProofSet.next ps' k = Ok (u32_max, ps'')) /\
  ProofSet.next ps' u32_max = Crash "dereference of end()".
Proof.
  intros HE Hnew Hhist.
  destruct (new_cache_ok E kf power w w' ps HE Hnew)
    as (Hok & Hpts & _ & _ & _ & Hp & Hchk).
  destruct (after_calls_cache_ok history ps ps' Hok Hhist) as (Hok' & Hsame).
  destruct (new_checks_sorted E power HE Hp Hchk) as (_ & Hin & _).
  split.
  - intros k Hk.
    pose proof (next_upper_bound ps' k Hok' ltac:(lia)) as Hnext. cbv zeta in Hnext.
    destruct Hok as (Hs & Hmax & _).
    pose proof (nth_upper_bound_least (ProofSet.points ps) k Hs Hmax ltac:(lia))
      as (Hr & Hgt & _).
    rewrite Hsame in Hnext. rewrite Hnext. eexists. f_equal. f_equal.
    set (r := nth _ _ _) in *. clearbody r.
    rewrite Hpts in Hr. apply in_app_or in Hr. destruct Hr as [Hr | [<-|[]]].
    + destruct (Hin _ Hr). lia.
    + reflexivity.
  - destruct Hok' as (Hs & Hmax & Hc). rewrite Hsame in *.
    assert (Hall : forall x, In x (ProofSet.points ps) -> x <= u32_max).
    { intros x Hx. rewrite Hpts in Hx. apply in_app_or in Hx.
      destruct Hx as [Hx | [<-|[]]]; [|lia].
      destruct (Hin _ Hx). unfold u32_max. lia. }
    unfold ProofSet.next. rewrite Hsame.
    rewrite (deref_nth _ _ Hc). cbn [outcome_bind].
    replace (nth (ProofSet.cacheIt ps') (ProofSet.points ps) 0 <=? u32_max) with true
      by (symmetry; apply Z.leb_le, Hall, nth_In; exact Hc).
    cbn [outcome_bind].
    rewrite (upper_bound_all_le _ _ Hs Hall).
    unfold ProofSet.deref. rewrite lookup_ge_None_2 by lia. reflexivity.
Qed.

Lemma next_beyond_the_last_point_witness :
  (forall k, 521 <= k < u32_max ->
     exists ps'' : ProofSet.t,
       ProofSet.next
         (ProofSet.mk 521 [] 4 (ProofSet.sorted_points 521 4 ++ [u32_max]) 15) k
       = Ok (u32_max, ps'')) /\
  ProofSet.next
    (ProofSet.mk 521 [] 4 (ProofSet.sorted_points 521 4 ++ [u32_max]) 15) u32_max
  = Crash "dereference of end()".
Proof.
  apply (next_beyond_the_last_point 521 [] 4 empty_world
           (with_proof_dir 521 empty_world)
           (ProofSet.mk 521 [] 4 (ProofSet.sorted_points 521 4 ++ [u32_max]) 0)
           (ProofSet.mk 521 [] 4 (ProofSet.sorted_points 521 4 ++ [u32_max]) 15)
           [0; 100; 50; 520]).
  - lia.
  - vm_compute. reflexivity.
  - vm_compute. reflexivity.
Defined.

(** ** save and load of a residue *)

(** X8.  [save(E, power, k, words)] returns exactly when [k] is not 0 and at
    most [E], [k] is a proof point, and [words] has [E / 32 + 1] words; it
    then leaves the words and their checksum in the file of [k]. *)
Theorem save_returns_iff (E power k : Z) (R : Words) (w : World) :
  0 <= E < 2 ^ 32 -> Forall is_u32 R ->
  ((exists w1 : World, ProofSet.save_static E power k R w = (Ok tt, w1))
   <-> (k <> 0 /\ k <= E) /\ ProofSet.isInPoints E power k = Ok true /\
       Z.of_nat (length R) = E / 32 + 1) /\
  (forall w1 : World,
     ProofSet.save_static E power k R w = (Ok tt, w1) ->
     files w1 = <[ProofSet.pointPath E k := saved_file R]> (files w)).
Proof.
  intros HE HR.
  assert (Hn : wrap32 (E / 32 + 1) = E / 32 + 1).
  { apply is_u32_wrap32. Z.to_euclidean_division_equations. lia. }
  split; [split|].
  - intros (w1 & Hrun). apply save_static_Ok in Hrun.
    destruct Hrun as (Hk & Hin & Hlen & _). rewrite Hn in Hlen. auto.
  - intros (Hk & Hin & Hlen). eexists.
    apply save_static_returns; try assumption. rewrite Hn. exact Hlen.
  - intros w1 Hrun. apply save_static_Ok in Hrun.
    destruct Hrun as (_ & _ & _ & ->). reflexivity.
Qed.

Lemma save_returns_iff_witness :
  ((exists w1 : World, ProofSet.save_static 7 1 4 [71] empty_world = (Ok tt, w1))
   <-> (4 <> 0 /\ 4 <= 7) /\ ProofSet.isInPoints 7 1 4 = Ok true /\
       Z.of_nat (length [71]) = 7 / 32 + 1) /\
  (forall w1 : World,
     ProofSet.save_static 7 1 4 [71] empty_world = (Ok tt, w1) ->
     files w1 = <[ProofSet.pointPath 7 4 := saved_file [71]]> (files empty_world)).
Proof.
  apply (save_returns_iff 7 1 4 [71] empty_world).
  - lia.
  - repeat constructor; unfold is_u32; lia.
Defined.

Lemma append_inj_r (a b c : string) : a +:+ b = a +:+ c -> b = c.
Proof.
  induction a as [|x a IH]; intros Heq; [exact Heq|].
  change (String x (a +:+ b) = String x (a +:+ c)) in Heq.
  injection Heq as Heq. apply IH. exact Heq.
Qed.

Lemma pointPath_inj (E k k' : Z) :
  ProofSet.pointPath E k = ProofSet.pointPath E k' -> k = k'.
Proof.
  unfold ProofSet.pointPath, path_join. intros Heq.
  apply append_inj_r, append_inj_r in Heq.
  unfold to_string in Heq. apply (inj pretty) in Heq. exact Heq.
Qed.

Lemma load_static_files (E power k : Z) (w1 w2 : World) :
  files w1 !! ProofSet.pointPath E k = files w2 !! ProofSet.pointPath E k ->
  fst (ProofSet.load_static E power k w1) = fst (ProofSet.load_static E power k w2).
Proof.
  intros Hfiles. unfold ProofSet.load_static. rewrite !io_bind_assert.
  destruct (negb (k =? 0) && (k <=? E)); [|reflexivity].
  unfold io_bind at 1 3. unfold lift at 1 3.
  destruct (ProofSet.isInPoints E power k) as [ok| |]; [|reflexivity..].
  rewrite !io_bind_assert. destruct ok; [|reflexivity].
  unfold io_bind, File.openReadThrow, lift, io_ret. rewrite Hfiles.
  destruct (files w2 !! ProofSet.pointPath E k); [|reflexivity].
  destruct (File.readChecked _ _); reflexivity.
Qed.

(** X9.  A [save] at [k] that returns changes no other file, makes no
    directory and logs nothing; a [load] at any other [k'] gives afterwards
    what it gave before. *)
Theorem save_leaves_other_points (E power k : Z) (R : Words) (w w1 : World) :
  ProofSet.save_static E power k R w = (Ok tt, w1) ->
  (forall p : string, p <> ProofSet.pointPath E k -> files w1 !! p = files w !! p) /\
  dirs w1 = dirs w /\ console w1 = console w /\
  (forall k' : Z, k' <> k ->
     fst (ProofSet.load_static E power k' w1) = fst (ProofSet.load_static E power k' w)).
Proof.
  intros Hrun. apply save_static_Ok in Hrun. destruct Hrun as (_ & _ & _ & ->).
  assert (Hother : forall p : string, p <> ProofSet.pointPath E k ->
            files (after_save (ProofSet.pointPath E k) R w) !! p = files w !! p).
  { intros p Hp. unfold after_save. cbn [files]. apply lookup_insert_ne. congruence. }
  split; [exact Hother|]. split; [reflexivity|]. split; [reflexivity|].
  intros k' Hk'. apply load_static_files. apply Hother.
  intros Heq. apply Hk'. apply (pointPath_inj E). exact Heq.
Qed.

Lemma save_leaves_other_points_witness :
  (forall p : string, p <> ProofSet.pointPath 7 4 ->
     files (after_save (ProofSet.pointPath 7 4) [71] empty_world) !! p
     = files empty_world !! p) /\
  dirs (after_save (ProofSet.pointPath 7 4) [71] empty_world) = dirs empty_world /\
  console (after_save (ProofSet.pointPath 7 4) [71] empty_world) = console empty_world /\
  (forall k' : Z, k' <> 4 ->
     fst (ProofSet.load_static 7 1 k' (after_save (ProofSet.pointPath 7 4) [71] empty_world))
     = fst (ProofSet.load_static 7 1 k' empty_world)).
Proof.
  apply (save_leaves_other_points 7 1 4 [71] empty_world).
  vm_compute. reflexivity.
Defined.
(** ** bestPower *)

Lemma floor_log2_ratio_above (a b : Z) :
  0 < b <= a ->
  0 <= ProofSet.floor_log2_ratio a b /\
  b * 2 ^ ProofSet.floor_log2_ratio a b <= a < b * 2 ^ (ProofSet.floor_log2_ratio a b + 1).
Proof.
  intros Hab. unfold ProofSet.floor_log2_ratio.
  destruct (Z.leb_spec b a) as [_|?]; [|lia].
  assert (Hq : 0 < a / b) by (apply Z.div_str_pos; lia).
  pose proof (Z.log2_spec (a / b) Hq) as Hl.
  pose proof (Z.log2_nonneg (a / b)) as Hnn.
  replace (Z.succ (Z.log2 (a / b))) with (Z.log2 (a / b) + 1) in Hl by lia.
  split; [exact Hnn|].
  pose proof (Z.div_mod a b ltac:(lia)) as Hdm.
  pose proof (Z.mod_pos_bound a b ltac:(lia)) as Hmb.
  nia.
Qed.

Ltac pin_constants :=
  repeat match goal with
  | H : context [2 ^ ?e] |- _ =>
      let v := eval vm_compute in (2 ^ e) in progress change (2 ^ e) with v in H
  | |- context [4 ^ ?e] =>
      let v := eval vm_compute in (4 ^ e) in progress change (4 ^ e) with v
  | |- context [?a / 2] =>
      let v := eval vm_compute in (a / 2) in progress change (a / 2) with v
  end.

Ltac bestPower_case f Hrun :=
  subst f; eexists; split; [apply Hrun; [reflexivity | pin_constants; lia]|];
  pin_constants; lia.

Lemma bestPower_spec (E : Z) :
  916 <= E < 2 ^ 32 ->
  exists p : Z,
    ProofSet.bestPower E = Ok p /\ 2 <= p <= 13 /\
    60000000 * 4 ^ p <= E * 4 ^ 10 < 60000000 * 4 ^ (p + 1).
Proof.
  intros HE. unfold ProofSet.bestPower.
  replace (0 <? E) with true by (symmetry; apply Z.ltb_lt; lia).
  cbn [assert outcome_bind].
  set (f := ProofSet.floor_log2_ratio E 60000000).
  assert (Hrun : forall p, p = 10 + f / 2 -> 2 <= p <= 13 ->
            (assert (2 <=? 10 + f / 2) "power >= 2" ;; Ok (wrap32 (10 + f / 2)))%outcome
            = Ok p).
  { intros p -> Hp. replace (2 <=? 10 + f / 2) with true by (symmetry; apply Z.leb_le; lia).
    cbn [assert outcome_bind]. rewrite is_u32_wrap32 by lia. reflexivity. }
  destruct (Z_lt_le_dec E 60000000) as [Hlow | Hhigh].
  - assert (Hbelow : forall n, 0 <= n -> - n <= f <-> 60000000 <= E * 2 ^ n)
      by (intros n Hn; apply floor_log2_ratio_below; lia).
    assert (Hneg : f < 0).
    { apply Z.lt_nge. intros H0. apply (Hbelow 0) in H0; [|lia]. cbn in H0. lia. }
    assert (H16 : -16 <= f) by (apply (Hbelow 16); [lia | change (2 ^ 16) with 65536; lia]).
    assert (Hlo : 60000000 <= E * 2 ^ (- f)) by (apply Hbelow; lia).
    assert (Hhi : ~ 60000000 <= E * 2 ^ (- f - 1)).
    { intros H. apply Hbelow in H; lia. }
    assert (Hcases : f = -1 \/ f = -2 \/ f = -3 \/ f = -4 \/ f = -5 \/ f = -6 \/
                     f = -7 \/ f = -8 \/ f = -9 \/ f = -10 \/ f = -11 \/ f = -12 \/
                     f = -13 \/ f = -14 \/ f = -15 \/ f = -16) by lia.
    clearbody f. clear Hbelow.
    repeat (destruct Hcases as [Hf | Hcases]; [bestPower_case f Hrun|]).
    bestPower_case f Hrun.
  - destruct (floor_log2_ratio_above E 60000000 ltac:(lia)) as (Hnn & Hlo & Hhi).
    fold f in Hnn, Hlo, Hhi.
    assert (H6 : f <= 6).
    { apply Z.lt_succ_r. apply (Z.pow_lt_mono_r_iff 2); [lia | lia|].
      change (2 ^ Z.succ 6) with 128. nia. }
    assert (Hcases : f = 0 \/ f = 1 \/ f = 2 \/ f = 3 \/ f = 4 \/ f = 5 \/ f = 6) by lia.
    clearbody f.
    repeat (destruct Hcases as [Hf | Hcases]; [bestPower_case f Hrun|]).
    bestPower_case f Hrun.
Qed.

Lemma bestPower_thresholds (E p : Z) :
  2 <= p <= 13 ->
  60000000 * 4 ^ p <= E * 4 ^ 10 -> E * 4 ^ 10 < 60000000 * 4 ^ (p + 1) ->
  (p = 10 <-> 60000000 <= E < 240000000) /\ (p = 13 <-> 3840000000 <= E).
Proof.
  intros Hp Hlo Hhi.
  assert (Hcases : p = 2 \/ p = 3 \/ p = 4 \/ p = 5 \/ p = 6 \/ p = 7 \/ p = 8 \/
                   p = 9 \/ p = 10 \/ p = 11 \/ p = 12 \/ p = 13) by lia.
  repeat (destruct Hcases as [-> | Hcases];
          [change (4 ^ 10) with 1048576 in *; pin_constants;
           repeat match goal with
                  | H : context [4 ^ ?e] |- _ =>
                      let v := eval vm_compute in (4 ^ e) in
                      progress change (4 ^ e) with v in H
                  end; lia|]).
  subst p. change (4 ^ 10) with 1048576 in *.
  repeat match goal with
         | H : context [4 ^ ?e] |- _ =>
             let v := eval vm_compute in (4 ^ e) in
             progress change (4 ^ e) with v in H
         end. lia.
Qed.

(** X10.  [bestPower(E)] dies on an assertion for [E] below 916; from 916
    on it returns the [p] from 2 to 13 with
    [60000000 * 4^(p - 10) <= E < 60000000 * 4^(p - 9)]: 10 from 60M to
    240M, and 13, more than the constructor accepts, from 3840M on. *)
Theorem bestPower_value (E : Z) :
  0 <= E < 2 ^ 32 ->
  (E = 0 -> ProofSet.bestPower E = Crash "E > 0") /\
  (0 < E < 916 -> ProofSet.bestPower E = Crash "power >= 2") /\
  (916 <= E ->
   exists p : Z,
     ProofSet.bestPower E = Ok p /\ 2 <= p <= 13 /\
     60000000 * 4 ^ p <= E * 4 ^ 10 < 60000000 * 4 ^ (p + 1) /\
     (p = 10 <-> 60000000 <= E < 240000000) /\
     (p = 13 <-> 3840000000 <= E)).
Proof.
  intros HE. split; [intros ->; reflexivity|]. split.
  - intros Hsmall. apply bestPower_asserts; lia.
  - intros Hbig. destruct (bestPower_spec E ltac:(lia)) as (p & Hrun & Hp & Hlo & Hhi).
    exists p. split; [exact Hrun|]. split; [exact Hp|]. split; [split; assumption|].
    apply bestPower_thresholds; assumption.
Qed.

Lemma bestPower_value_witness :
  (18178631 = 0 -> ProofSet.bestPower 18178631 = Crash "E > 0") /\
  (0 < 18178631 < 916 -> ProofSet.bestPower 18178631 = Crash "power >= 2") /\
  (916 <= 18178631 ->
   exists p : Z,
     ProofSet.bestPower 18178631 = Ok p /\ 2 <= p <= 13 /\
     60000000 * 4 ^ p <= 18178631 * 4 ^ 10 < 60000000 * 4 ^ (p + 1) /\
     (p = 10 <-> 60000000 <= 18178631 < 240000000) /\
     (p = 13 <-> 3840000000 <= 18178631)).
Proof. apply (bestPower_value 18178631). lia. Defined.

Lemma small_power_fits (E power : Z) :
  Z.odd E = true -> 63 <= E < 2 ^ 32 - 1 -> power <= 4 -> spans_fit E power.
Proof.
  intros Hodd HE Hp. apply (spans_fit_mono E power 4); [lia | exact Hp |].
  unfold spans_fit, ProofSet.spans. change (Z.to_nat 4) with 4%nat.
  pose proof (halve_bounds E ltac:(lia)) as Hh.
  pose proof (spans_loop_sum_last 3 (ProofSet.halve E) ltac:(lia)) as Hsum.
  pose proof (spans_loop_last_lower 3 (ProofSet.halve E) ltac:(lia)) as Hlast.
  change (2 ^ Z.of_nat 3) with 8 in Hlast. change (Z.of_nat 3) with 3 in Hsum.
  assert (H2 : 2 * ProofSet.halve E = E + 1).
  { rewrite halve_eq by lia. pose proof (Zmod_odd E) as Hm. rewrite Hodd in Hm.
    Z.to_euclidean_division_equations. lia. }
  lia.
Qed.

(** X11.  The power that [bestPower] recommends can be built: for every odd
    [E] from 916 up to 3840M the constructor returns on it.  From 3840M on
    the recommended power is 13 and the constructor throws. *)
Theorem recommended_power_is_constructible (E : Z) (kf : list string) (w : World) :
  Z.odd E = true -> 916 <= E < 2 ^ 32 - 1 ->
  exists p : Z,
    ProofSet.bestPower E = Ok p /\
    (E < 3840000000 ->
     exists ps : ProofSet.t, ProofSet.new E kf p w = (Ok ps, with_proof_dir E w)) /\
    (3840000000 <= E ->
     p = 13 /\ fst (ProofSet.new E kf p w) = Throw "Invalid proof power").
Proof.
  intros Hodd HE.
  destruct (bestPower_spec E ltac:(lia)) as (p & Hrun & Hp & Hlo & Hhi).
  destruct (bestPower_thresholds E p Hp Hlo Hhi) as (_ & H13).
  exists p. split; [exact Hrun|]. split.
  - intros Hlt. assert (Hp12 : p <= 12).
    { destruct (Z.eq_dec p 13) as [H|H]; [apply H13 in H|]; lia. }
    assert (Hfit : spans_fit E p).
    { destruct (Z_lt_le_dec E 49151) as [Hsmall | Hlarge].
      - apply small_power_fits; [exact Hodd | lia |].
        apply Z.lt_succ_r.
        apply (Z.pow_lt_mono_r_iff 4); [lia | lia|].
        change (4 ^ Z.succ 4) with 1024. change (4 ^ 10) with 1048576 in Hlo. lia.
      - apply large_exponent_fits; [exact Hodd | lia | exact Hp12]. }
    eexists. apply new_Ok_iff. rewrite odd_land_1.
    split; [exact Hodd|]. split; [lia|].
    split; [apply new_checks_fit; [lia | lia | exact Hfit]|].
    split; reflexivity.
  - intros Hge. apply H13 in Hge. split; [exact Hge|]. subst p.
    unfold ProofSet.new. rewrite io_bind_assert, odd_land_1, Hodd.
    reflexivity.
Qed.

Lemma recommended_power_is_constructible_witness :
  exists p : Z,
    ProofSet.bestPower 18178631 = Ok p /\
    (18178631 < 3840000000 ->
     exists ps : ProofSet.t,
       ProofSet.new 18178631 [] p empty_world = (Ok ps, with_proof_dir 18178631 empty_world)) /\
    (3840000000 <= 18178631 ->
     p = 13 /\ fst (ProofSet.new 18178631 [] p empty_world) = Throw "Invalid proof power").
Proof.
  apply (recommended_power_is_constructible 18178631 [] empty_world).
  - reflexivity.
  - lia.
Defined.
(** ** What load returns *)

Lemma Words_data_group_values (n : nat) :
  forall (bs : list ascii) (fuel : nat),
    length bs = (4 * n)%nat -> (n <= fuel)%nat ->
    Words_data (group_values fuel 4 bs) = bs /\
    Forall is_u32 (group_values fuel 4 bs) /\
    length (group_values fuel 4 bs) = n.
Proof.
  induction n as [|n IH]; intros bs fuel Hlen Hfuel.
  - destruct bs; [|discriminate Hlen]. rewrite group_values_nil.
    repeat split. constructor.
  - destruct fuel as [|fuel]; [lia|].
    destruct bs as [|b0 [|b1 [|b2 [|b3 bs]]]]; try (cbn in Hlen; lia).
    cbn [group_values take drop]. rewrite take_0, drop_0.
    destruct (IH bs fuel ltac:(cbn [length] in Hlen; lia) ltac:(lia))
      as (Hdata & Hu32 & Hn).
    rewrite Words_data_cons, Hdata.
    pose proof (le_bytes_le_value [b0; b1; b2; b3]) as Hback.
    pose proof (le_value_range [b0; b1; b2; b3]) as Hrange.
    cbn [length] in Hback, Hrange. rewrite Hback.
    split; [reflexivity|]. split.
    + constructor; [|exact Hu32]. unfold is_u32.
      change (256 ^ Z.of_nat 4) with (2 ^ 32) in Hrange. exact Hrange.
    + cbn [length]. rewrite Hn. reflexivity.
Qed.

(** X12.  When [load(E, power, k)] returns words, [k] is a proof point from
    1 to [E], the words are [E / 32 + 1] in number, and the file of [k]
    begins with them and their checksum, as [save] writes them; bytes after
    the checksum are not looked at.  No file is changed. *)
Theorem load_returns_what_was_saved (E power k : Z) (ws : Words) (w w' : World) :
  0 <= E < 2 ^ 32 ->
  ProofSet.load_static E power k w = (Ok ws, w') ->
  (k <> 0 /\ k <= E) /\ ProofSet.isInPoints E power k = Ok true /\
  Z.of_nat (length ws) = E / 32 + 1 /\ Forall is_u32 ws /\
  (exists rest : list ascii,
     files w !! ProofSet.pointPath E k = Some (saved_file ws ++ rest)) /\
  files w' = files w.
Proof.
  intros HE. unfold ProofSet.load_static. rewrite io_bind_assert.
  destruct (negb (k =? 0) && (k <=? E)) eqn:Hk; [|discriminate].
  apply andb_true_iff in Hk. destruct Hk as (Hk0 & HkE).
  apply negb_true_iff, Z.eqb_neq in Hk0. apply Z.leb_le in HkE.
  unfold io_bind at 1. unfold lift at 1.
  destruct (ProofSet.isInPoints E power k) as [[|]|?|?] eqn:Hin; try discriminate.
  rewrite io_bind_assert.
  unfold io_bind, File.openReadThrow, lift, io_ret.
  destruct (files w !! ProofSet.pointPath E k) as [d|] eqn:Hd; [|discriminate].
  assert (Hn : wrap32 (E / 32 + 1) = E / 32 + 1).
  { apply is_u32_wrap32. Z.to_euclidean_division_equations. lia. }
  rewrite Hn. unfold File.readChecked.
  destruct (File.read (4 * (E / 32 + 1)) _) as [[bs f1]| |] eqn:Hr1; try discriminate.
  cbn [outcome_bind fst snd].
  destruct (File.read 4 f1) as [[c f2]| |] eqn:Hr2; try discriminate.
  cbn [outcome_bind fst snd].
  destruct (le_value c =? crc32 bs) eqn:Hcrc; [|discriminate].
  intros [= <- <-]. apply Z.eqb_eq in Hcrc.
  apply read_Ok in Hr1; [|Z.to_euclidean_division_equations; lia].
  apply read_Ok in Hr2; [|lia].
  cbn [File.unread File.path] in Hr1. destruct Hr1 as (Hd1 & Hlen1 & _).
  destruct Hr2 as (Hd2 & Hlen2 & _).
  assert (Hq : 0 <= E / 32) by (apply Z.div_pos; lia).
  destruct (Words_data_group_values (Z.to_nat (E / 32 + 1)) bs (length bs)
              ltac:(lia) ltac:(lia)) as (Hdata & Hu32 & Hcount).
  fold (words_of_bytes bs) in Hdata, Hu32, Hcount.
  split; [split; assumption|]. split; [reflexivity|].
  split; [rewrite Hcount; lia|]. split; [exact Hu32|]. split; [|reflexivity].
  exists (File.unread f2). unfold saved_file. rewrite Hdata, <- Hcrc.
  replace 4%nat with (length c) by lia. rewrite le_bytes_le_value.
  rewrite Hd1, Hd2, <- app_assoc. reflexivity.
Qed.

Lemma load_returns_what_was_saved_witness :
  (4 <> 0 /\ 4 <= 7) /\ ProofSet.isInPoints 7 1 4 = Ok true /\
  Z.of_nat (length [71]) = 7 / 32 + 1 /\ Forall is_u32 [71] /\
  (exists rest : list ascii,
     files (after_save (ProofSet.pointPath 7 4) [71] empty_world)
       !! ProofSet.pointPath 7 4 = Some (saved_file [71] ++ rest)) /\
  files (touch (IoOpenRead (ProofSet.pointPath 7 4))
           (after_save (ProofSet.pointPath 7 4) [71] empty_world))
  = files (after_save (ProofSet.pointPath 7 4) [71] empty_world).
Proof.
  apply (load_returns_what_was_saved 7 1 4 [71]
           (after_save (ProofSet.pointPath 7 4) [71] empty_world)).
  - lia.
  - vm_compute. reflexivity.
Defined.
(** ** What isValidTo looks at *)



(** ** The NUMBER field, in general *)

Lemma parse_factors_accepted (fs : list string) :
  Forall (fun f => f = "" \/ accepted_factor f) fs ->
  forall acc : list string, proof.parse_factors fs acc = Ok (acc ++ non_empty fs).
Proof.
  intros Hfs. induction Hfs as [|f fs Hf Hfs IH]; intros acc.
  - cbn. rewrite app_nil_r. reflexivity.
  - cbn [proof.parse_factors non_empty List.filter].
    destruct Hf as [-> | (Hne & _ & v & Hv & Hpos)].
    + rewrite bool_decide_eq_true_2 by reflexivity. cbn [String.eqb negb]. apply IH.
    + rewrite bool_decide_eq_false_2 by exact Hne.
      replace (String.eqb f "") with false by (symmetry; apply String.eqb_neq; exact Hne).
      cbn [negb]. rewrite Hv.
      replace (v <=? 0) with false by (symmetry; apply Z.leb_gt; lia).
      rewrite IH, <- app_assoc. reflexivity.
Qed.

Lemma parse_factors_Ok (parts : list string) :
  forall acc fs : list string,
    proof.parse_factors parts acc = Ok fs ->
    fs = acc ++ non_empty parts /\
    Forall (fun f => f <> "" /\ exists v, mpz_of_string f = Some v /\ 0 < v)
           (non_empty parts).
Proof.
  induction parts as [|part parts IH]; intros acc fs Hrun.
  - cbn in *. injection Hrun as <-. rewrite app_nil_r. split; [reflexivity | constructor].
  - cbn [proof.parse_factors non_empty List.filter] in *.
    destruct (bool_decide (part = "")) eqn:Hempty.
    + apply bool_decide_eq_true in Hempty. subst part. cbn [String.eqb negb].
      apply IH. exact Hrun.
    + apply bool_decide_eq_false in Hempty.
      replace (String.eqb part "") with false
        by (symmetry; apply String.eqb_neq; exact Hempty).
      cbn [negb].
      destruct (mpz_of_string part) as [v|] eqn:Hv; [|discriminate Hrun].
      destruct (Z.leb_spec v 0) as [|Hpos]; [discriminate Hrun|].
      destruct (IH _ _ Hrun) as (-> & Hall). split.
      * rewrite <- app_assoc. reflexivity.
      * constructor; [|exact Hall]. split; [exact Hempty|]. exists v. split; [exact Hv | lia].
Qed.

Lemma split_chars_no_delim (s : list ascii) :
  Forall (Forall (fun c => Ascii.eqb c "/" = false)) (split_chars s "/").
Proof.
  induction s as [|c s IH]; [repeat constructor|].
  cbn [split_chars]. destruct (Ascii.eqb c "/") eqn:Hc.
  - constructor; [constructor | exact IH].
  - destruct (split_chars s "/") as [|piece pieces]; [repeat constructor; exact Hc|].
    apply Forall_cons in IH. destruct IH as (Hp & Hps).
    constructor; [constructor; assumption | exact Hps].
Qed.

Lemma scan_digits_nonneg (inp : list ascii) :
  forall acc : Z, 0 <= acc -> 0 <= fst (File.scan_digits acc inp).
Proof.
  induction inp as [|c r IH]; intros acc Hacc; [exact Hacc|].
  cbn [File.scan_digits]. unfold File.digit_of.
  destruct ((48 <=? Z_of_byte c) && (Z_of_byte c <=? 57)) eqn:Hd; [|exact Hacc].
  apply IH. apply andb_true_iff in Hd. lia.
Qed.

(** The general round trip of the NUMBER field. *)
Lemma mersenneFromString_mersenneToString_accepted (E : Z) (fs : list string) :
  0 <= E < 2 ^ 32 ->
  Forall (fun f => f = "" \/ accepted_factor f) fs ->
  proof.mersenneFromString (proof.mersenneToString E fs) = Ok (E, non_empty fs).
Proof.
  intros HE Hfs.
  pose proof (mersenneToString_chars E fs) as Hchars.
  apply (f_equal string_of_list_ascii) in Hchars.
  rewrite string_of_list_ascii_of_string in Hchars. rewrite Hchars.
  cbn [string_of_list_ascii]. unfold proof.mersenneFromString, split.
  rewrite list_ascii_of_string_of_list_ascii.
  destruct (to_string_digits E ltac:(lia)) as (ds & Hds & Hne & Hdig & Hval).
  replace (flat_map (fun f => "/"%char :: list_ascii_of_string f) fs)
    with (flat_map (fun f => "/"%char :: f) (map list_ascii_of_string fs)).
  2:{ clear. induction fs as [|f fs IH]; [reflexivity|]. cbn. rewrite IH. reflexivity. }
  rewrite split_chars_join.
  2:{ constructor.
      - rewrite Hds. eapply Forall_impl; [exact Hdig|]. intros c. apply digit_not_slash.
      - apply Forall_map. eapply Forall_impl; [exact Hfs|]. intros f Hf. cbn.
        destruct Hf as [-> | (_ & Hslash & _)]; [constructor | exact Hslash]. }
  cbn [map]. rewrite string_of_list_ascii_of_string.
  rewrite from_chars_to_string by exact HE.
  rewrite map_map.
  replace (map (fun x => string_of_list_ascii (list_ascii_of_string x)) fs) with fs.
  2:{ clear. induction fs as [|f fs IH]; [reflexivity|]. cbn [map].
      rewrite string_of_list_ascii_of_string, <- IH. reflexivity. }
  rewrite parse_factors_accepted by exact Hfs. reflexivity.
Qed.

Lemma non_empty_accepted (fs : list string) :
  Forall accepted_factor fs -> non_empty fs = fs.
Proof.
  intros Hfs. induction Hfs as [|f fs (Hne & _) Hfs IH]; [reflexivity|].
  cbn [non_empty List.filter].
  replace (String.eqb f "") with false by (symmetry; apply String.eqb_neq; exact Hne).
  cbn [negb]. fold (non_empty fs). rewrite IH. reflexivity.
Qed.

(** What GMP reads: the prefix of the base must follow the sign at once, a
    digit must follow the sign, and a bare prefix is the number 0. *)
Lemma mpz_of_string_samples :
  map mpz_of_string
      ["0x1F"; "0 x1F"; "0b1"; "0 b1"; "0x"; "-5"; "- 5"; "010"; "09"; " 1 2 "; "-"]
  = [Some 31; None; Some 1; None; Some 0; Some (-5); None; Some 8; None; Some 12; None].
Proof. vm_compute. reflexivity. Qed.

Lemma mersenneFromString_samples :
  proof.mersenneFromString "M7/0 x1F" = Throw "Invalid factor: '0 x1F' (not numeric)" /\
  proof.mersenneFromString "M7/0 b1" = Throw "Invalid factor: '0 b1' (not numeric)" /\
  proof.mersenneFromString "M7/- 5" = Throw "Invalid factor: '- 5' (not numeric)" /\
  proof.mersenneFromString "M7/0x" = Throw "Invalid factor: '0x' (not positive)" /\
  proof.mersenneFromString "M7/0x7F" = Ok (7, ["0x7F"]).
Proof. repeat split; vm_compute; reflexivity. Qed.

(** X14.  [mersenneFromString] reads back the exponent that
    [mersenneToString] wrote, and the known factors without the empty ones,
    when every factor that is not empty has no ['/'] and is read by GMP as a
    positive number. *)
Theorem mersenne_number_round_trip (E : Z) (fs : list string) :
  0 <= E < 2 ^ 32 ->
  Forall (fun f => f = "" \/ accepted_factor f) fs ->
  proof.mersenneFromString (proof.mersenneToString E fs) = Ok (E, non_empty fs) /\
  (Forall accepted_factor fs ->
   proof.mersenneFromString (proof.mersenneToString E fs) = Ok (E, fs)).
Proof.
  intros HE Hfs.
  pose proof (mersenneFromString_mersenneToString_accepted E fs HE Hfs) as Hrt.
  split; [exact Hrt|]. intros Hall. rewrite Hrt, (non_empty_accepted fs Hall). reflexivity.
Qed.

Lemma mersenne_number_round_trip_witness :
  proof.mersenneFromString
    (proof.mersenneToString 18178631 ["36357263"; ""; "0x8AB1E39"; "8411216206439"])
  = Ok (18178631, non_empty ["36357263"; ""; "0x8AB1E39"; "8411216206439"]) /\
  (Forall accepted_factor ["36357263"; ""; "0x8AB1E39"; "8411216206439"] ->
   proof.mersenneFromString
     (proof.mersenneToString 18178631 ["36357263"; ""; "0x8AB1E39"; "8411216206439"])
   = Ok (18178631, ["36357263"; ""; "0x8AB1E39"; "8411216206439"])).
Proof.
  apply (mersenne_number_round_trip 18178631).
  - lia.
  - repeat (apply List.Forall_cons;
            [first [left; reflexivity
                   | right; split; [discriminate|]; split;
                     [repeat constructor | eexists; split; [vm_compute; reflexivity | lia]]]|]).
    apply List.Forall_nil.
Defined.

(** X15.  What [mersenneFromString] returns is well formed: the exponent
    fits [u32], every known factor is not empty, has no ['/'] and is read by
    GMP as a positive number; the string began with ['M']; and writing the
    result with [mersenneToString] and reading it again gives the same
    result. *)
Theorem mersenneFromString_returns_well_formed (s : string) (E : Z) (fs : list string) :
  proof.mersenneFromString s = Ok (E, fs) ->
  0 <= E <= u32_max /\
  Forall accepted_factor fs /\
  (exists rest : string, s = String "M" rest) /\
  proof.mersenneFromString (proof.mersenneToString E fs) = Ok (E, fs).
Proof.
  intros Hrun.
  assert (Hparts : 0 <= E <= u32_max /\ Forall accepted_factor fs /\
                   exists rest : string, s = String "M" rest).
  { unfold proof.mersenneFromString in Hrun.
    destruct s as [|c rest]; [discriminate Hrun|].
    destruct (Ascii.eqb_spec c "M") as [-> | Hc].
    2:{ exfalso. destruct c as [[] [] [] [] [] [] [] []]; try discriminate Hrun.
        apply Hc. reflexivity. }
    cbv iota in Hrun. unfold split in Hrun.
    pose proof (split_chars_no_delim (list_ascii_of_string rest)) as Hslash.
    destruct (split_chars (list_ascii_of_string rest) "/") as [|part0 parts];
      [discriminate Hrun|].
    cbn [map] in Hrun.
    destruct (from_chars (string_of_list_ascii part0)) as [[left ec] exponent] eqn:Hfc.
    destruct left as [|? ?]; [|discriminate Hrun].
    destruct ec; try discriminate Hrun.
    destruct (proof.parse_factors _ _) as [kf| |] eqn:Hpf; try discriminate Hrun.
    cbn [outcome_bind] in Hrun. injection Hrun as <- <-.
    split; [|split; [|exists rest; reflexivity]].
    - unfold from_chars in Hfc.
      destruct (File.starts_with_digit _); [|discriminate Hfc].
      pose proof (scan_digits_nonneg (list_ascii_of_string (string_of_list_ascii part0))
                    0 ltac:(lia)) as Hnn.
      destruct (File.scan_digits 0 _) as [v r]. cbn [fst] in Hnn.
      destruct (Z.leb_spec v u32_max); [|discriminate Hfc].
      injection Hfc as _ <-. lia.
    - apply parse_factors_Ok in Hpf. destruct Hpf as (-> & Hall). cbn [app].
      apply Forall_inv_tail in Hslash.
      clear - Hall Hslash.
      induction parts as [|part parts IH]; [constructor|].
      cbn [map non_empty List.filter] in *.
      apply Forall_cons in Hslash. destruct Hslash as (Hp & Hps).
      destruct (String.eqb (string_of_list_ascii part) "") eqn:Hempty; cbn [negb] in *.
      + apply IH; assumption.
      + apply Forall_cons in Hall. destruct Hall as ((Hne & Hv) & Hall).
        constructor; [|apply IH; assumption].
        split; [exact Hne|]. split; [|exact Hv].
        rewrite list_ascii_of_string_of_list_ascii. exact Hp. }
  destruct Hparts as (HE & Hfs & Hrest).
  split; [exact HE|]. split; [exact Hfs|]. split; [exact Hrest|].
  rewrite mersenneFromString_mersenneToString_accepted.
  - rewrite (non_empty_accepted fs Hfs). reflexivity.
  - unfold u32_max in HE. lia.
  - eapply Forall_impl; [exact Hfs|]. intros f Hf. right. exact Hf.
Qed.

Lemma mersenneFromString_returns_well_formed_witness :
  0 <= 18178631 <= u32_max /\
  Forall accepted_factor ["36357263"; "145429049"] /\
  (exists rest : string, "M0018178631/36357263//145429049" = String "M" rest) /\
  proof.mersenneFromString (proof.mersenneToString 18178631 ["36357263"; "145429049"])
  = Ok (18178631, ["36357263"; "145429049"]).
Proof.
  apply (mersenneFromString_returns_well_formed "M0018178631/36357263//145429049").
  vm_compute. reflexivity.
Defined.
(** ** The name of a proof file *)

Lemma app_separator_inj (x : ascii) (l1 l2 r1 r2 : list ascii) :
  ~ In x l1 -> ~ In x l2 -> l1 ++ x :: r1 = l2 ++ x :: r2 -> l1 = l2 /\ r1 = r2.
Proof.
  revert l2. induction l1 as [|a l1 IH]; intros l2 H1 H2 Heq.
  - destruct l2 as [|b l2]; [injection Heq as <-; split; reflexivity|].
    cbn in Heq. injection Heq as <- _. exfalso. apply H2. left. reflexivity.
  - destruct l2 as [|b l2].
    + cbn in Heq. injection Heq as -> _. exfalso. apply H1. left. reflexivity.
    + cbn in Heq. injection Heq as <- Heq.
      destruct (IH l2) as (-> & ->); [| |exact Heq|split; reflexivity].
      * intros Hin. apply H1. right. exact Hin.
      * intros Hin. apply H2. right. exact Hin.
Qed.

Lemma to_string_no (x : ascii) (n : Z) :
  0 <= n -> is_digit x = false -> ~ In x (list_ascii_of_string (to_string n)).
Proof.
  intros Hn Hx Hin.
  destruct (to_string_digits n Hn) as (ds & Hds & _ & Hdig & _).
  rewrite Hds in Hin.
  pose proof (proj1 (List.Forall_forall _ _) Hdig x Hin) as Hd. congruence.
Qed.

Lemma list_ascii_of_string_inj (a b : string) :
  list_ascii_of_string a = list_ascii_of_string b -> a = b.
Proof.
  intros Heq. apply (f_equal string_of_list_ascii) in Heq.
  rewrite !string_of_list_ascii_of_string in Heq. exact Heq.
Qed.

Lemma path_append_inj_r (a b c : string) : path_append a b = path_append a c -> b = c.
Proof.
  unfold path_append. destruct (rev (list_ascii_of_string a)) as [|x r]; [tauto|].
  destruct (Ascii.eqb x "/"); intros Heq.
  - apply append_inj_r in Heq. exact Heq.
  - apply append_inj_r, append_inj_r in Heq. exact Heq.
Qed.

(** X16.  [Proof::file] gives proofs of different exponents or of different
    powers different file names in the same directory. *)
Theorem Proof_file_determines_exponent_and_power (p q : Proof) (proofDir : string) :
  0 <= Proof_E p -> 0 <= Proof_E q ->
  Proof_file p proofDir = Proof_file q proofDir ->
  Proof_E p = Proof_E q /\
  wrap32 (Z.of_nat (length (Proof_middles p)))
  = wrap32 (Z.of_nat (length (Proof_middles q))).
Proof.
  intros Hp Hq Heq. unfold Proof_file in Heq. cbv zeta in Heq.
  apply path_append_inj_r in Heq.
  apply (f_equal list_ascii_of_string) in Heq.
  rewrite !list_ascii_of_string_append in Heq.
  change (list_ascii_of_string "-") with ["-"%char] in Heq.
  change (list_ascii_of_string ".proof")
    with ("."%char :: list_ascii_of_string "proof") in Heq.
  cbn [app] in Heq.
  assert (Hpow : forall n, 0 <= wrap32 n)
    by (intros n; unfold wrap32; apply Z.mod_pos_bound; lia).
  apply app_separator_inj in Heq; try (apply to_string_no; [assumption | reflexivity]).
  destruct Heq as (HE & Heq).
  apply app_separator_inj in Heq; try (apply to_string_no; [apply Hpow | reflexivity]).
  destruct Heq as (Hpw & _).
  apply list_ascii_of_string_inj in HE, Hpw.
  unfold to_string in HE, Hpw. apply (inj pretty) in HE, Hpw. split; assumption.
Qed.

Lemma Proof_file_witness :
  Proof_E proof_of_7 = Proof_E (mkProof 7 ["3"] [1] [[2]]) /\
  wrap32 (Z.of_nat (length (Proof_middles proof_of_7)))
  = wrap32 (Z.of_nat (length (Proof_middles (mkProof 7 ["3"] [1] [[2]])))).
Proof.
  apply (Proof_file_determines_exponent_and_power proof_of_7 (mkProof 7 ["3"] [1] [[2]])
           "proofs/").
  - cbn. lia.
  - cbn. lia.
  - reflexivity.
Defined.

(** ** The layout of a proof file *)




(** ** [fileHash] and [getInfo] *)

Section FileHash.
Context `{MD5}.

Lemma fileHash_loop_chunks (fuel : nat) (p : string) (d : list ascii) (h : MD5_state) :
  (length d < fuel)%nat ->
  exists cs : list (list ascii),
    concat cs = d /\
    Forall (fun c => 0 < Z.of_nat (length c) <= 65536) cs /\
    fileHash_loop fuel (File.mk p d) h = fold_left (fun h c => MD5_update c h) cs h.
Proof.
  revert d h. induction fuel as [|fuel IH]; intros d h Hfuel; [lia|].
  cbn [fileHash_loop]. unfold File.readUpTo. cbn [File.unread File.path].
  destruct (Z.eqb_spec (Z.of_nat (length (take (Z.to_nat 65536) d))) 0) as [Hz|Hnz].
  - exists []. destruct d as [|c d]; [|rewrite length_take in Hz; cbn [length] in Hz; lia].
    repeat split. constructor.
  - assert (Hd : d <> []) by (intros ->; apply Hnz; reflexivity).
    destruct (IH (drop (Z.to_nat 65536) d) (MD5_update (take (Z.to_nat 65536) d) h))
      as (cs & Hcat & Hcs & Hrun).
    { rewrite length_drop. destruct d; [congruence|]. cbn [length] in *. lia. }
    exists (take (Z.to_nat 65536) d :: cs). split; [|split].
    + cbn [concat]. rewrite Hcat. apply take_drop.
    + constructor; [|exact Hcs]. rewrite length_take in *. lia.
    + rewrite Hrun. reflexivity.
Qed.

(** X18.  [fileHash] throws for a file that cannot be opened; for an existing
    file it returns the MD5 of the whole content, fed to the hash in order in
    pieces of 1 to 65536 bytes (none for an empty file), and changes no
    file. *)
Theorem fileHash_hashes_the_whole_file (path : string) (w : World) :
  match files w !! path with
  | None => exists msg w', fileHash path w = (Throw msg, w') /\ files w' = files w
  | Some d =>
      exists (cs : list (list ascii)) (w' : World),
        concat cs = d /\
        Forall (fun c => 0 < Z.of_nat (length c) <= 65536) cs /\
        fileHash path w
        = (Ok (MD5_finish (fold_left (fun h c => MD5_update c h) cs MD5_init)), w') /\
        files w' = files w
  end.
Proof.
  unfold fileHash, io_bind, File.openReadThrow.
  destruct (files w !! path) as [d|] eqn:Hd.
  - destruct (fileHash_loop_chunks (S (length d)) path d MD5_init ltac:(lia))
      as (cs & Hcat & Hcs & Hrun).
    exists cs, (touch (IoOpenRead path) w). cbn [File.unread]. unfold io_ret.
    rewrite Hrun. repeat split; assumption.
  - eexists _, _. split; reflexivity.
Qed.


End FileHash.

(** ** computeProof runs through its assertions *)

Lemma popcount_succ (i : Z) :
  0 <= i -> (popcount (i + 1) + trailing_ones i = S (popcount i))%nat.
Proof.
  intros Hi. destruct i as [|q|q]; [reflexivity| |lia].
  change (Z.pos q + 1) with (Z.pos (q + 1)). rewrite Pos.add_1_r.
  cbn [popcount trailing_ones]. clear Hi.
  induction q as [q IH|q IH|].
  - change (Pos.succ q~1) with (Pos.succ q)~0%positive.
    cbn [pos_popcount pos_trailing_ones]. lia.
  - change (Pos.succ q~0) with q~1%positive. cbn [pos_popcount pos_trailing_ones]. lia.
  - reflexivity.
Qed.

Lemma trailing_ones_le_popcount (i : Z) : (trailing_ones i <= popcount i)%nat.
Proof.
  destruct i as [|q|q]; cbn [popcount trailing_ones]; [lia| |lia].
  induction q as [q IH|q IH|]; cbn [pos_popcount pos_trailing_ones]; lia.
Qed.

Lemma trailing_ones_odd (z : Z) :
  0 <= z ->
  trailing_ones z = if Z.odd z then S (trailing_ones (Z.div2 z)) else 0%nat.
Proof. intros Hz. destruct z as [|q|q]; [reflexivity | destruct q; reflexivity | lia]. Qed.

Lemma popcount_bound (n : nat) (i : Z) : i < 2 ^ Z.of_nat n -> (popcount i <= n)%nat.
Proof.
  destruct i as [|q|q]; cbn [popcount]; [lia| |lia].
  revert n. induction q as [q IH|q IH|]; intros n Hlt; cbn [pos_popcount].
  - destruct n as [|n]; [cbn in Hlt; lia|].
    rewrite Nat2Z.inj_succ, Z.pow_succ_r in Hlt by lia.
    specialize (IH n ltac:(lia)). lia.
  - destruct n as [|n]; [cbn in Hlt; lia|].
    rewrite Nat2Z.inj_succ, Z.pow_succ_r in Hlt by lia.
    specialize (IH n ltac:(lia)). lia.
  - destruct n as [|n]; [cbn in Hlt; lia | lia].
Qed.

Lemma popcount_pow2 (n : nat) : popcount (2 ^ Z.of_nat n) = 1%nat.
Proof.
  induction n as [|n IH]; [reflexivity|].
  rewrite Nat2Z.inj_succ, Z.pow_succ_r by lia.
  destruct (2 ^ Z.of_nat n) as [|q|q]; [discriminate IH | exact IH | discriminate IH].
Qed.

Lemma at_index_Ok {A : Type} (l : list A) (i : nat) :
  (i < length l)%nat -> exists x, ProofSet.at_index l i = Ok x /\ l !! i = Some x.
Proof.
  intros Hi. unfold ProofSet.at_index.
  destruct (lookup_lt_is_Some_2 l i Hi) as (x & ->). exists x. split; reflexivity.
Qed.

(** The inner loop folds one buffer per trailing one bit of [i]. *)
Lemma collapse_spec `{Gpu} (p i : Z) (hashes : list Z) (fuel : nat) :
  0 <= i -> p < 2 ^ 32 -> Z.of_nat (length hashes) = p ->
  forall (m : nat) (k : Z) (bufVect : list Buffer) (bufIt : nat),
    0 <= k -> k + Z.of_nat m = p -> Z.shiftr i k < 2 ^ Z.of_nat m ->
    (m < fuel)%nat ->
    (trailing_ones (Z.shiftr i k) < bufIt)%nat -> (bufIt <= length bufVect)%nat ->
    exists bv : list Buffer,
      ProofSet.collapse fuel p i k hashes bufVect bufIt
      = Ok (bv, (bufIt - trailing_ones (Z.shiftr i k))%nat) /\
      length bv = length bufVect.
Proof.
  intros Hi Hp Hhashes.
  induction fuel as [|fuel IH]; intros m k bufVect bufIt Hk Hkm Hlt Hfuel Hit Hlen; [lia|].
  cbn [ProofSet.collapse].
  assert (Hz : 0 <= Z.shiftr i k) by (apply Z.shiftr_nonneg; exact Hi).
  assert (Hbit : Z.testbit i k = Z.odd (Z.shiftr i k)).
  { rewrite <- Z.bit0_odd, Z.shiftr_spec by lia. reflexivity. }
  rewrite Hbit. rewrite (trailing_ones_odd _ Hz) in *.
  assert (Hnext : Z.shiftr i (k + 1) = Z.div2 (Z.shiftr i k)).
  { rewrite Z.div2_spec, Z.shiftr_shiftr by lia. reflexivity. }
  destruct (Z.odd (Z.shiftr i k)) eqn:Hodd.
  - destruct m as [|m].
    { assert (Z.shiftr i k = 0) by (cbn in Hlt; lia).
      rewrite H0 in Hodd. discriminate Hodd. }
    assert (Hpk : wrap32 (p - 1) = p - 1) by (apply is_u32_wrap32; lia).
    rewrite Hpk.
    replace (k <=? p - 1) with true by (symmetry; apply Z.leb_le; lia).
    cbn [assert outcome_bind].
    destruct bufIt as [|[|below]]; [lia | lia |].
    assert (Hidx : wrap32 (p - 1 - k) = p - 1 - k) by (apply is_u32_wrap32; lia).
    rewrite Hidx.
    destruct (at_index_Ok hashes (Z.to_nat (p - 1 - k)) ltac:(lia)) as (h & -> & _).
    destruct (at_index_Ok bufVect below ltac:(lia)) as (a & -> & _).
    destruct (at_index_Ok bufVect (S below) ltac:(lia)) as (b & -> & _).
    cbn [outcome_bind].
    destruct (IH m (k + 1) (<[below := expMulBuf a h b]> bufVect) (S below))
      as (bv & Hrun & Hbv).
    + lia.
    + lia.
    + rewrite Hnext, Z.div2_div.
      rewrite Nat2Z.inj_succ, Z.pow_succ_r in Hlt by lia.
      apply Z.div_lt_upper_bound; lia.
    + lia.
    + rewrite Hnext. lia.
    + rewrite length_insert. lia.
    + exists bv. rewrite Hrun, Hnext. split; [|rewrite Hbv; apply length_insert].
      repeat f_equal.
  - exists bufVect. rewrite Nat.sub_0_r. split; reflexivity.
Qed.

Lemma load_point (E power : Z) (kf : list string) (k : Z) (w : World) :
  0 < E < 2 ^ 32 - 1 -> 0 < power <= 12 -> spans_fit E power ->
  In k (ProofSet.sorted_points E power) ->
  is_Some (stored_words (files w) E k) ->
  exists ws : Words,
    ProofSet.load (constructed E kf power) k w
    = (Ok ws, touch (IoOpenRead (ProofSet.pointPath E k)) w) /\
    stored_words (files w) E k = Some ws.
Proof.
  intros HE Hp Hfit Hin (ws & Hws).
  pose proof (new_checks_fit E power HE Hp Hfit) as Hchk.
  pose proof (new_checks_positive E power HE Hp Hchk k Hin) as Hk.
  destruct (new_checks_sorted E power ltac:(lia) Hp Hchk) as (_ & Hpts & _).
  destruct (Hpts k Hin) as (_ & Hisin).
  destruct (load_static_spec E power k w Hk Hisin) as (r & Hrun & Hr).
  rewrite Hws in Hr. subst r. exists ws. split; [exact Hrun | exact Hws].
Qed.

(** One level: the buffers are used as a stack that holds one buffer per
    one bit of the number of points folded so far. *)
Lemma level_loop_spec `{Gpu} (E power : Z) (kf : list string) (p : Z) (hashes : list Z)
    (n : nat) :
  0 < E < 2 ^ 32 - 1 -> 0 < power <= 12 -> spans_fit E power ->
  0 <= p < power -> Z.of_nat (length hashes) = p ->
  forall (i : Z) (bufVect : list Buffer) (w : World),
    0 <= i -> i + Z.of_nat n <= 2 ^ p ->
    Z.of_nat (length bufVect) = power ->
    (forall k, In k (ProofSet.sorted_points E power) ->
               is_Some (stored_words (files w) E k)) ->
    exists (bv : list Buffer) (w' : World),
      ProofSet.level_loop n (constructed E kf power) p (2 ^ (power - p - 1)) i hashes
                          bufVect (popcount i) w
      = (Ok (bv, popcount (i + Z.of_nat n)), w') /\
      length bv = length bufVect /\ files w' = files w.
Proof.
  intros HE Hpower Hfit Hp Hhashes.
  induction n as [|n IH]; intros i bufVect w Hi Hin Hlen Hfiles.
  - exists bufVect, w. rewrite Z.add_0_r. repeat split.
  - cbn [ProofSet.level_loop].
    assert (Hs : 0 < 2 ^ (power - p - 1)) by (apply Z.pow_pos_nonneg; lia).
    assert (Hi2 : 2 * i + 1 < 2 ^ (p + 1))
      by (rewrite Z.pow_add_r by lia; change (2 ^ 1) with 2; lia).
    assert (Hpow : 2 ^ power = 2 ^ (power - p - 1) * 2 ^ (p + 1)).
    { rewrite <- Z.pow_add_r by lia. f_equal. lia. }
    assert (Hbig : 2 ^ power <= 2 ^ 12) by (apply Z.pow_le_mono_r; lia).
    change (2 ^ 12) with 4096 in Hbig.
    assert (Hidx : 0 < 2 ^ (power - p - 1) * (2 * i + 1) < 2 ^ power) by nia.
    assert (Hi3 : i < 2 ^ p) by lia.
    assert (H2p : 2 ^ p <= 2 ^ power) by (apply Z.pow_le_mono_r; lia).
    rewrite (Z.mul_comm i 2).
    rewrite (is_u32_wrap32 (2 * i + 1)) by lia.
    rewrite (is_u32_wrap32 (2 ^ (power - p - 1) * (2 * i + 1))) by lia.
    rewrite (is_u32_wrap32 (2 ^ (power - p - 1) * (2 * i + 1) - 1)) by lia.
    set (j := Z.to_nat (2 ^ (power - p - 1) * (2 * i + 1) - 1)).
    pose proof (sorted_points_length E power ltac:(lia)) as Hplen.
    assert (Hj : (j < length (ProofSet.sorted_points E power))%nat) by (subst j; lia).
    destruct (lookup_lt_is_Some_2 _ _ Hj) as (k & Hk).
    unfold io_bind at 1. unfold lift at 1. unfold ProofSet.at_index at 1.
    change (ProofSet.points (constructed E kf power))
      with (ProofSet.sorted_points E power ++ [u32_max]).
    rewrite (lookup_app_l_Some _ _ _ _ Hk).
    assert (Hkin : In k (ProofSet.sorted_points E power)).
    { apply list_elem_of_In. eapply list_elem_of_lookup_2. exact Hk. }
    destruct (load_point E power kf k w HE Hpower Hfit Hkin (Hfiles k Hkin))
      as (ws & Hload & _).
    unfold io_bind at 1. rewrite Hload.
    pose proof (popcount_bound (Z.to_nat p) i ltac:(rewrite Z2Nat.id by lia; lia)) as Hpc.
    destruct (at_index_Ok bufVect (popcount i) ltac:(lia)) as (x & Hx & _).
    unfold io_bind at 1. unfold lift at 1. rewrite Hx.
    destruct (collapse_spec p i hashes 32 Hi ltac:(lia) Hhashes (Z.to_nat p) 0
                (<[popcount i := writeIn ws]> bufVect) (S (popcount i)))
      as (bv & Hrun & Hbv).
    + lia.
    + lia.
    + rewrite Z.shiftr_0_r, Z2Nat.id by lia. lia.
    + lia.
    + rewrite Z.shiftr_0_r. pose proof (trailing_ones_le_popcount i). lia.
    + rewrite length_insert. lia.
    + unfold io_bind at 1. unfold lift at 1. rewrite Hrun. cbn [fst snd].
      rewrite Z.shiftr_0_r.
      replace (S (popcount i) - trailing_ones i)%nat with (popcount (i + 1))
        by (pose proof (popcount_succ i Hi); lia).
      destruct (IH (i + 1) bv (touch (IoOpenRead (ProofSet.pointPath E k)) w))
        as (bv' & w' & Hrec & Hbv' & Hw').
      * lia.
      * lia.
      * rewrite Hbv, length_insert. exact Hlen.
      * intros k' Hk'. rewrite files_touch. apply Hfiles. exact Hk'.
      * exists bv', w'. split; [|split].
        -- rewrite Hrec. replace (i + Z.of_nat (S n)) with (i + 1 + Z.of_nat n) by lia.
           reflexivity.
        -- rewrite Hbv', Hbv. apply length_insert.
        -- rewrite Hw'. apply files_touch.
Qed.

Lemma computeProof_loop_total `{Gpu} (E power : Z) (kf : list string) :
  0 < E < 2 ^ 32 - 1 -> 0 < power <= 12 -> spans_fit E power ->
  compresses_to_residues E ->
  forall (n : nat) (p : Z) (bufVect : list Buffer) (hash : list Z)
         (middles : list Words) (hashes : list Z) (w : World),
    0 <= p -> p + Z.of_nat n = power ->
    Z.of_nat (length hashes) = p -> Z.of_nat (length bufVect) = power ->
    (forall k, In k (ProofSet.sorted_points E power) ->
               is_Some (stored_words (files w) E k)) ->
    exists (r : outcome (list Words * list Z)) (w' : World),
      ProofSet.computeProof_loop n (constructed E kf power) p bufVect hash middles hashes w
      = (r, w') /\
      files w' = files w /\
      (r = Throw "Read ZERO during proof generation" \/
       exists (ms : list Words) (hs : list Z),
         r = Ok (ms, hs) /\
         length ms = (n + length middles)%nat /\
         length hs = (n + length hashes)%nat).
Proof.
  intros HE Hpower Hfit Hcomp.
  induction n as [|n IH]; intros p bufVect hash middles hashes w Hp Hpn Hhashes Hlen Hfiles.
  - exists (Ok (middles, hashes)), w. split; [reflexivity|]. split; [reflexivity|].
    right. exists middles, hashes. repeat split.
  - assert (H2p : 0 < 2 ^ p) by (apply Z.pow_pos_nonneg; lia).
    destruct (level_loop_spec E power kf p hashes (Z.to_nat (2 ^ p)) HE Hpower Hfit
                ltac:(lia) Hhashes 0 bufVect w ltac:(lia) ltac:(lia) Hlen Hfiles)
      as (bv & w1 & Hlevel & Hbv & Hw1).
    change (popcount 0) with 0%nat in Hlevel.
    rewrite Z.add_0_l, Z2Nat.id in Hlevel by lia.
    assert (Hone : popcount (2 ^ p) = 1%nat)
      by (rewrite <- (Z2Nat.id p) by lia; apply popcount_pow2).
    rewrite Hone in Hlevel.
    destruct (at_index_Ok bv 0 ltac:(lia)) as (front & Hfront & _).
    assert (Hstep :
      ProofSet.computeProof_loop (S n) (constructed E kf power) p bufVect hash middles
                                 hashes w
      = ((if bool_decide (readAndCompress front = [])
          then throw "Read ZERO during proof generation" else io_ret tt) ;;
         hash' <- lift (proof.hashWords_prefix E hash (readAndCompress front)) ;;
         log (LogMiddle p (readAndCompress front) (nth 0 hash' 0)) ;;
         ProofSet.computeProof_loop n (constructed E kf power) (p + 1) bv hash'
           (middles ++ [readAndCompress front]) (hashes ++ [nth 0 hash' 0]))%io w1).
    { cbn [ProofSet.computeProof_loop]. rewrite io_bind_assert.
      replace (p =? Z.of_nat (length hashes)) with true by (symmetry; apply Z.eqb_eq; lia).
      change (ProofSet.power (constructed E kf power)) with power.
      change (ProofSet.E (constructed E kf power)) with E.
      rewrite (is_u32_wrap32 (power - p)) by lia.
      rewrite (is_u32_wrap32 (power - p - 1)) by lia.
      rewrite (shiftl_1_small (power - p - 1)) by lia.
      rewrite (shiftl_1_small p) by lia.
      unfold io_bind at 1. rewrite Hlevel. cbn [fst snd].
      rewrite io_bind_assert. rewrite bool_decide_true by reflexivity.
      unfold io_bind at 1. unfold lift at 1. rewrite Hfront. reflexivity. }
    rewrite Hstep. clear Hstep.
    destruct (Hcomp front) as [Hempty | Hbytes].
    + exists (Throw "Read ZERO during proof generation"), w1.
      split; [|split; [exact Hw1 | left; reflexivity]].
      rewrite Hempty. rewrite bool_decide_true by reflexivity. reflexivity.
    + assert (Hne : readAndCompress front <> []).
      { intros Hnil. rewrite Hnil in Hbytes. unfold has_bytes in Hbytes.
        rewrite nBytes_eq in Hbytes by lia. cbn [length] in Hbytes.
        assert (1 <= (E + 7) / 8) by (Z.to_euclidean_division_equations; lia). lia. }
      rewrite bool_decide_false by exact Hne.
      unfold io_bind at 1. unfold io_ret at 1.
      unfold io_bind at 1. unfold lift at 1.
      rewrite hashWords_prefix_spec by (try assumption; lia).
      unfold io_bind at 1. unfold log at 1.
      match goal with
      | |- context [ProofSet.computeProof_loop n _ _ _ ?h ?ms ?hs ?w2] =>
          destruct (IH (p + 1) bv h ms hs w2) as (r & w' & Hrun & Hw' & Hres)
      end.
      * lia.
      * lia.
      * rewrite length_app. cbn [length]. lia.
      * lia.
      * cbn [files]. intros k Hk. rewrite Hw1. apply Hfiles. exact Hk.
      * exists r, w'. split; [exact Hrun|]. split; [rewrite Hw'; cbn [files]; exact Hw1|].
        destruct Hres as [Hthrow | (ms & hs & Hok & Hms & Hhs)]; [left; exact Hthrow|].
        right. exists ms, hs. split; [exact Hok|].
        rewrite Hms, Hhs, !length_app. cbn [length]. lia.
Qed.

Lemma computeProof_total `{Gpu} (E power : Z) (kf : list string) (w : World) :
  0 < E < 2 ^ 32 - 1 -> 0 < power <= 12 -> spans_fit E power ->
  compresses_to_residues E ->
  (forall k, In k (ProofSet.sorted_points E power) ->
             is_Some (stored_words (files w) E k)) ->
  exists (r : outcome (Proof * list Z)) (w' : World),
    ProofSet.computeProof (constructed E kf power) w = (r, w') /\
    files w' = files w /\
    (r = Throw "Read ZERO during proof generation" \/
     exists (prf : Proof) (hashes : list Z),
       r = Ok (prf, hashes) /\
       Proof_E prf = E /\ Proof_knownFactors prf = kf /\
       stored_words (files w) E E = Some (Proof_B prf) /\
       Z.of_nat (length (Proof_middles prf)) = power /\
       Z.of_nat (length hashes) = power).
Proof.
  intros HE Hpower Hfit Hcomp Hfiles.
  pose proof (new_checks_fit E power HE Hpower Hfit) as Hchk.
  destruct (new_checks_sorted E power ltac:(lia) Hpower Hchk) as (_ & _ & HinE & _).
  destruct (load_point E power kf E w HE Hpower Hfit HinE (Hfiles E HinE))
    as (B & Hload & HB).
  unfold ProofSet.computeProof.
  change (ProofSet.power (constructed E kf power)) with power.
  change (ProofSet.E (constructed E kf power)) with E.
  change (ProofSet.knownFactors (constructed E kf power)) with kf.
  unfold io_bind at 1. rewrite Hload.
  assert (HBbytes : has_bytes E B).
  { unfold has_bytes. rewrite nBytes_eq by lia.
    pose proof (stored_words_length _ _ _ _ HB) as Hlen.
    rewrite is_u32_wrap32 in Hlen by (Z.to_euclidean_division_equations; lia).
    Z.to_euclidean_division_equations; lia. }
  unfold io_bind at 1. unfold lift at 1.
  rewrite hashWords_spec by (try assumption; lia).
  unfold io_bind at 1.
  match goal with
  | |- context [ProofSet.computeProof_loop ?n _ 0 ?bv ?h [] [] ?w1] =>
      destruct (computeProof_loop_total E power kf HE Hpower Hfit Hcomp
                  n 0 bv h [] [] w1) as (r & w' & Hrun & Hw' & Hres)
  end.
  - lia.
  - lia.
  - reflexivity.
  - rewrite length_replicate. lia.
  - intros k Hk. rewrite files_touch. apply Hfiles. exact Hk.
  - rewrite Hrun.
    destruct Hres as [-> | (ms & hs & -> & Hms & Hhs)].
    + eexists _, w'. split; [reflexivity|]. split; [rewrite Hw'; apply files_touch|].
      left. reflexivity.
    + eexists _, w'. split; [reflexivity|]. split; [rewrite Hw'; apply files_touch|].
      right. exists (mkProof E kf B ms), hs.
      cbn [fst snd Proof_E Proof_knownFactors Proof_B Proof_middles length] in *.
      repeat split; try assumption; lia.
Qed.

(** X20.  [computeProof] trips none of its assertions and never reads
    outside its vectors: on the proof set that the constructor returned, with
    a loadable cache file at every proof point, and an engine whose results
    are residues of [E] bits or empty, it returns or it throws
    [Read ZERO during proof generation].  When it returns, the proof carries
    the exponent and the known factors of the set, [B] is the cached residue
    at [E], and there are [power] middles and [power] challenges.  In both
    cases no file is changed. *)
Theorem computeProof_returns_or_reads_zero
    `{Gpu} (E power : Z) (kf : list string) (w0 w0' : World) (ps : ProofSet.t) (w : World) :
  0 < E < 2 ^ 32 - 1 ->
  ProofSet.new E kf power w0 = (Ok ps, w0') ->
  compresses_to_residues E ->
  (forall k, In k (ProofSet.sorted_points E power) ->
             is_Some (stored_words (files w) E k)) ->
  exists (r : outcome (Proof * list Z)) (w' : World),
    ProofSet.computeProof ps w = (r, w') /\
    files w' = files w /\
    (r = Throw "Read ZERO during proof generation" \/
     exists (prf : Proof) (hashes : list Z),
       r = Ok (prf, hashes) /\
       Proof_E prf = E /\ Proof_knownFactors prf = kf /\
       stored_words (files w) E E = Some (Proof_B prf) /\
       Z.of_nat (length (Proof_middles prf)) = power /\
       Z.of_nat (length hashes) = power).
Proof.
  intros HE Hnew Hcomp Hfiles.
  apply new_Ok_iff in Hnew. destruct Hnew as (Hodd & Hpower & Hchk & -> & _).
  rewrite odd_land_1 in Hodd.
  pose proof (new_checks_spans_fit E power Hodd HE Hpower Hchk) as Hfit.
  fold (constructed E kf power).
  apply computeProof_total; assumption.
Qed.

Lemma computeProof_returns_or_reads_zero_witness :
  exists (r : outcome (Proof * list Z)) (w' : World),
    @ProofSet.computeProof (reference_gpu 7) (constructed 7 [] 1)
      (save_all 7 1 (prp_residue 7) [4; 7] empty_world) = (r, w') /\
    files w' = files (save_all 7 1 (prp_residue 7) [4; 7] empty_world) /\
    (r = Throw "Read ZERO during proof generation" \/
     exists (prf : Proof) (hashes : list Z),
       r = Ok (prf, hashes) /\
       Proof_E prf = 7 /\ Proof_knownFactors prf = [] /\
       stored_words (files (save_all 7 1 (prp_residue 7) [4; 7] empty_world)) 7 7
       = Some (Proof_B prf) /\
       Z.of_nat (length (Proof_middles prf)) = 1 /\
       Z.of_nat (length hashes) = 1).
Proof.
  apply (@computeProof_returns_or_reads_zero (reference_gpu 7) 7 1 []
           empty_world (with_proof_dir 7 empty_world) (constructed 7 [] 1)).
  - lia.
  - apply new_Ok_iff. repeat split; try lia; vm_compute; reflexivity.
  - intros b. cbn [readAndCompress reference_gpu].
    destruct (b =? 0); [left; reflexivity | right; vm_compute; discriminate].
  - intros k Hk. vm_compute in Hk.
    destruct Hk as [<- | [<- | []]]; vm_compute; eexists; reflexivity.
Defined.
(** ** What [load] reads after the header *)

(** After a well-formed header, [load] goes on to the residues. *)
Lemma Proof_load_header (power E : Z) (fs : list string) (data : list ascii)
    (path : string) (w : World) :
  0 <= power < 2 ^ 32 -> 0 < E < 2 ^ 32 ->
  Forall (fun f => is_decimal f = true) fs ->
  Z.of_nat (String.length (proof.mersenneToString E fs)) < 2048 ->
  files w !! path = Some (proof_header power (proof.mersenneToString E fs) ++ data) ->
  Proof_load path w
  = (b <- lift (File.readBytesLE (nBytes E) (File.mk path data)) ;;
     middles <- lift (read_middles (Z.to_nat power) (nBytes E) (snd b) []) ;;
     io_ret (mkProof E fs (fst b) middles))%io (touch (IoOpenRead path) w).
Proof.
  intros Hpower HE Hfs Hlen Hfile.
  unfold Proof_load. unfold io_bind at 1. unfold File.openReadThrow. rewrite Hfile.
  unfold File.scanf. cbn [File.unread File.path]. unfold proof_header.
  destruct (to_string_digits power ltac:(lia)) as (ds & -> & Hne & Hdig & Hval).
  destruct (mersenneToString_token E fs ltac:(lia) Hfs) as (Htok & Hsp).
  rewrite <- !app_assoc. cbn [app].
  rewrite scan_header by assumption.
  rewrite string_of_list_ascii_of_string, Hval.
  rewrite is_u32_wrap32 by lia.
  unfold overruns. cbn [existsb orb].
  replace (2048 <? _) with false by (symmetry; apply Z.ltb_ge; lia).
  cbn [orb]. rewrite Ascii.eqb_refl. cbn [negb].
  unfold io_bind at 1. unfold try_catch, lift at 1.
  rewrite mersenneFromString_mersenneToString by (try assumption; lia).
  reflexivity.
Qed.

Lemma read_middles_short (nB : Z) (n : nat) :
  0 < nB ->
  forall (fi : File.t) (acc : list Words),
    Z.of_nat (length (File.unread fi)) < Z.of_nat n * nB ->
    read_middles n nB fi acc = Throw "unexpected end of file".
Proof.
  intros HnB. induction n as [|n IH]; intros fi acc Hshort; [lia|].
  cbn [read_middles]. unfold File.readBytesLE, File.read.
  destruct (Z.leb_spec nB (Z.of_nat (length (File.unread fi)))) as [Hle | Hgt];
    [|reflexivity].
  cbn [outcome_bind fst snd]. apply IH. cbn [File.unread].
  rewrite length_drop. lia.
Qed.

(** X21.  [Proof::load] throws on a truncated file: after a well-formed
    header for [power] and [E], fewer than [(power + 1) * ceil(E / 8)]
    residue bytes end in the exception of the read, and no file is
    changed. *)
Theorem load_throws_on_a_truncated_file
    (power E : Z) (fs : list string) (data : list ascii) (path : string) (w : World) :
  0 <= power < 2 ^ 32 -> 0 < E < 2 ^ 32 ->
  Forall (fun f => is_decimal f = true) fs ->
  Z.of_nat (String.length (proof.mersenneToString E fs)) < 2048 ->
  Z.of_nat (length data) < (power + 1) * ((E + 7) / 8) ->
  files w !! path = Some (proof_header power (proof.mersenneToString E fs) ++ data) ->
  exists w' : World,
    Proof_load path w = (Throw "unexpected end of file", w') /\ files w' = files w.
Proof.
  intros Hpower HE Hfs Hlen Hshort Hfile.
  rewrite (Proof_load_header power E fs data path w) by assumption.
  exists (touch (IoOpenRead path) w). split; [|apply files_touch].
  rewrite nBytes_eq by exact HE.
  assert (HnB : 0 < (E + 7) / 8) by (Z.to_euclidean_division_equations; lia).
  unfold io_bind at 1. unfold lift at 1. unfold File.readBytesLE, File.read.
  cbn [File.unread File.path].
  destruct (Z.leb_spec ((E + 7) / 8) (Z.of_nat (length data))) as [Hle | Hgt];
    [|reflexivity].
  cbn [outcome_bind fst snd]. unfold io_bind at 1. unfold lift at 1.
  rewrite read_middles_short; [reflexivity | exact HnB |].
  cbn [File.unread]. rewrite length_drop. lia.
Qed.

Lemma load_throws_on_a_truncated_file_witness :
  exists w' : World,
    Proof_load "7-1.proof" header_only_world = (Throw "unexpected end of file", w') /\
    files w' = files header_only_world.
Proof.
  apply (load_throws_on_a_truncated_file 1 7 [] (list_ascii_of_string "x")).
  - lia.
  - lia.
  - apply List.Forall_nil.
  - vm_compute. reflexivity.
  - vm_compute. reflexivity.
  - unfold header_only_world, set_files. cbn [files]. apply lookup_insert_eq.
Defined.

(** X22.  [Proof::load] does not look past the last middle: a file that
    holds a well-formed header, the bytes of [B] and of [power] middles
    (canonical residues), and then any further bytes, loads as the proof
    with that exponent, those factors, [B] and those middles. *)
Theorem load_ignores_trailing_bytes
    (p : Proof) (extra : list ascii) (path : string) (w : World) :
  0 < Proof_E p < 2 ^ 32 ->
  Z.of_nat (length (Proof_middles p)) < 2 ^ 32 ->
  Forall (canonical (Proof_E p)) (Proof_B p :: Proof_middles p) ->
  Forall (fun f => is_decimal f = true) (Proof_knownFactors p) ->
  Z.of_nat (String.length (proof.mersenneToString (Proof_E p) (Proof_knownFactors p)))
  < 2048 ->
  files w !! path
  = Some (proof_header (Z.of_nat (length (Proof_middles p)))
                       (proof.mersenneToString (Proof_E p) (Proof_knownFactors p))
          ++ flat_map (spec_bytes (Proof_E p)) (Proof_B p :: Proof_middles p) ++ extra) ->
  exists w' : World, Proof_load path w = (Ok p, w') /\ files w' = files w.
Proof.
  intros HE Hpower Hcanon Hfs Hlen Hfile.
  destruct p as [E fs B ms]. cbn [Proof_E Proof_knownFactors Proof_B Proof_middles] in *.
  rewrite (Proof_load_header (Z.of_nat (length ms)) E fs _ path w ltac:(lia) HE Hfs Hlen Hfile).
  exists (touch (IoOpenRead path) w). split; [|apply files_touch].
  pose proof (Forall_inv Hcanon) as HB. pose proof (Forall_inv_tail Hcanon) as Hms.
  unfold io_bind at 1. unfold lift at 1. unfold File.readBytesLE. cbn [flat_map].
  rewrite <- app_assoc.
  rewrite read_app
    by (symmetry; apply spec_bytes_length;
        [exact HE | apply canonical_has_bytes; assumption]).
  cbn [outcome_bind fst snd].
  rewrite words_of_bytes_spec_bytes by assumption.
  unfold io_bind at 1. unfold lift at 1.
  rewrite Nat2Z.id.
  rewrite read_middles_spec by assumption.
  reflexivity.
Qed.

Lemma load_ignores_trailing_bytes_witness :
  exists w' : World,
    Proof_load "7-1.proof" trailing_world = (Ok proof_of_7, w') /\
    files w' = files trailing_world.
Proof.
  apply (load_ignores_trailing_bytes proof_of_7 (list_ascii_of_string "end")).
  - cbn. lia.
  - cbn. lia.
  - unfold proof_of_7. cbn [Proof_E Proof_B Proof_middles].
    repeat (apply List.Forall_cons; [apply (makeWords_canonical 7); lia|]).
    apply List.Forall_nil.
  - apply List.Forall_nil.
  - vm_compute. reflexivity.
  - unfold trailing_world, set_files. cbn [files]. apply lookup_insert_eq.
Defined.
(** ** [verify] and the file system *)

Lemma only_logged_refl (w : World) : only_logged w w.
Proof. repeat split. exists []. symmetry. apply app_nil_r. Qed.

Lemma only_logged_trans (w1 w2 w3 : World) :
  only_logged w1 w2 -> only_logged w2 w3 -> only_logged w1 w3.
Proof.
  intros (Hf & Hd & Ha & l1 & Hc) (Hf' & Hd' & Ha' & l2 & Hc').
  repeat split; try congruence.
  exists (l1 ++ l2). rewrite Hc', Hc, app_assoc. reflexivity.
Qed.

Lemma quiet_bind {A B : Type} (m : IO A) (k : A -> IO B) :
  quiet m -> (forall a, quiet (k a)) -> quiet (io_bind m k).
Proof.
  intros Hm Hk w. unfold io_bind. specialize (Hm w).
  destruct (m w) as [[a| |] w1]; cbn [snd] in *; [|exact Hm..].
  eapply only_logged_trans; [exact Hm | apply Hk].
Qed.

Lemma quiet_lift {A : Type} (m : outcome A) : quiet (lift m).
Proof. intros w. apply only_logged_refl. Qed.

Lemma quiet_ret {A : Type} (a : A) : quiet (io_ret a).
Proof. intros w. apply only_logged_refl. Qed.

Lemma quiet_log (l : log_line) : quiet (log l).
Proof. intros w. unfold log. cbn [snd]. repeat split. exists [l]. reflexivity. Qed.

Lemma verify_loop_quiet `{Gpu} (E : Z) (hashes : list Z) (middles : list Words) :
  forall (i span : Z) (hash : list Z) (A B : Words),
    quiet (verify_loop E hashes middles i span hash A B).
Proof.
  induction middles as [|M rest IH]; intros i span hash A B.
  - apply quiet_ret.
  - cbn [verify_loop]. apply quiet_bind; [apply quiet_lift|]. intros hash'.
    destruct (_ && _).
    + apply quiet_bind; [apply quiet_log | intros _; apply quiet_ret].
    + apply quiet_bind; [destruct verbose; [apply quiet_log | apply quiet_ret]|].
      intros _. apply IH.
Qed.

(** X23.  [verify] only computes and logs: whatever it returns, and also
    when an assertion stops it, every file and directory is as before, no
    file has been opened, and the log has only grown. *)
Theorem verify_touches_no_file `{Gpu} (p : Proof) (hashes : list Z) (w : World) :
  only_logged w (snd (Proof_verify p hashes w)).
Proof.
  revert w. fold (quiet (Proof_verify p hashes)).
  unfold Proof_verify. cbv zeta.
  apply quiet_bind; [apply quiet_lift|]. intros _.
  apply quiet_bind; [apply quiet_lift|]. intros hash.
  apply quiet_bind; [apply verify_loop_quiet|]. intros [[[A B] span]|]; [|apply quiet_ret].
  apply quiet_bind; [apply quiet_log|]. intros _.
  apply quiet_bind; [destruct (Words_eqb _ _); apply quiet_log|]. intros _.
  apply quiet_ret.
Qed.
(** ** effectivePower on the exponents in use *)



